(** * GNSS-SDR: acquisition adapters and the hybrid PVT block

    A shallow embedding of

      - [GalileoE1PcpsQuickSyncAmbiguousAcquisition]
        (galileo_e1_pcps_quicksync_ambiguous_acquisition.cc),
      - [GpsL1CaPcpsTongAcquisition] (gps_l1_ca_pcps_tong_acquisition.cc),
      - [hybrid_pvt_cc] (hybrid_pvt_cc.cc),

    followed by the properties of the receiver specification that concern
    them.  Unsigned and signed machine integers are integers of [Z] with the
    wrap-around written out, IEEE-754 doubles are the kernel's binary64
    floats, [std::map] is a [gmap] keyed by [Z]. *)

From Stdlib Require Import ZArith Lia Bool.
From Stdlib Require Import Floats.PrimFloat.
From Stdlib Require Import Numbers.Cyclic.Int63.Uint63.
From stdpp Require Import base option list gmap strings pretty.

Local Open Scope Z_scope.

(* ===================================================================== *)
(** ** Machine integers *)
(* ===================================================================== *)

Module MachInt.

(** [unsigned int]: arithmetic modulo 2^32. *)
Definition wrap32 (z : Z) : Z := z mod 2 ^ 32.

(** [(int) u]: the two's complement reading of a 32-bit pattern. *)
Definition to_int32 (z : Z) : Z := (z + 2 ^ 31) mod 2 ^ 32 - 2 ^ 31.

(** [unsigned long] on LP64: arithmetic modulo 2^64. *)
Definition wrap64 (z : Z) : Z := z mod 2 ^ 64.

(** [round(n / d)] for a non-negative numerator and a positive
    denominator that are both exactly representable: halves are rounded away
    from zero, as C's [round] does. *)
Definition round_div (n d : Z) : Z := (2 * n + d) / (2 * d).

End MachInt.

Import MachInt.

(* ===================================================================== *)
(** ** Configuration *)
(* ===================================================================== *)

Module Config.

(** Modelled from the spec: [ConfigurationInterface] (declared in
    configuration_interface.h, which is not part of the sources at hand).
    A configuration is a set of keys with typed values; [property key
    default] yields the stored value, or [default] when the key is absent. *)
Record ConfigurationInterface : Type := {
  int_properties : gmap string Z;
  bool_properties : gmap string bool;
  string_properties : gmap string string;
  double_properties : gmap string float
}.

Definition property_int (c : ConfigurationInterface) (key : string) (dflt : Z) : Z :=
  default dflt (int_properties c !! key).

Definition property_bool (c : ConfigurationInterface) (key : string) (dflt : bool) : bool :=
  default dflt (bool_properties c !! key).

Definition property_string (c : ConfigurationInterface) (key : string) (dflt : string) : string :=
  default dflt (string_properties c !! key).

Definition property_double (c : ConfigurationInterface) (key : string) (dflt : float) : float :=
  default dflt (double_properties c !! key).

Definition empty_configuration : ConfigurationInterface :=
  {| int_properties := ∅; bool_properties := ∅;
     string_properties := ∅; double_properties := ∅ |}.

(** [boost::lexical_cast<std::string>(channel)] for an unsigned channel. *)
Definition lexical_cast (channel : Z) : string := pretty (Z.to_N channel).

End Config.

Import Config.

(* ===================================================================== *)
(** ** Logging and floating-point library functions *)
(* ===================================================================== *)

Inductive Severity : Type := INFO | WARNING.

(** A glog record: the severity and the integers streamed into the message. *)
Record LogRecord : Type := LOG { log_severity : Severity; log_text : string; log_values : list Z }.

(** The functions of libm and Boost.Math the adapters call.  Their values
    are not computed here; the adapters only choose the arguments.
    [exponential_quantile] is the value of Boost's quantile where it returns
    one (the checks that make it throw are in [quantile] below); [to_single]
    is the narrowing [(float) x]; a C [float] is represented by the double it
    promotes to. *)
Class MathLib : Type := {
  pow : float → float → float;
  exponential_quantile : float → float → float;
  to_single : float → float
}.

(** [(double) u] for an unsigned 32-bit [u]. *)
Definition double_of_uint (u : Z) : float := PrimFloat.of_uint63 (Uint63.of_Z u).

(** A complex sample [gr_complex]. *)
Definition gr_complex : Type := (float * float)%type.

(** A heap array: [None] marks an element that was never written. *)
Definition buffer : Type := list (option gr_complex).

Definition new_buffer (n : Z) : buffer := replicate (Z.to_nat n) None.

(** [memcpy(&dst[off], src, sizeof(gr_complex) * length src)]; [None] when
    the copy would leave the array [dst]. *)
Definition memcpy (dst : buffer) (off : Z) (src : list gr_complex) : option buffer :=
  if decide (0 ≤ off ∧ off + Z.of_nat (length src) ≤ Z.of_nat (length dst))
  then Some (take (Z.to_nat off) dst ++ (Some <$> src)
             ++ drop (Z.to_nat off + length src) dst)
  else None.

(** The acquisition block behind an adapter, as far as the adapters drive it
    (pcps_quicksync_acquisition_cc.h: [set_threshold], [set_doppler_max],
    [set_doppler_step], [set_channel], [set_local_code]). *)
Record acquisition_cc : Type := {
  d_threshold : option float;
  d_doppler_max : Z;
  d_doppler_step : Z;
  d_channel : Z;
  d_max_dwells : Z;
  d_sampled_ms : Z;
  d_code : option buffer
}.

Definition block_update (b : acquisition_cc) (threshold : option float)
    (doppler_max doppler_step channel : Z) (code : option buffer) : acquisition_cc :=
  {| d_threshold := threshold; d_doppler_max := doppler_max; d_doppler_step := doppler_step;
     d_channel := channel; d_max_dwells := d_max_dwells b; d_sampled_ms := d_sampled_ms b;
     d_code := code |}.

Definition block_set_threshold (threshold : float) (b : acquisition_cc) : acquisition_cc :=
  block_update b (Some threshold) (d_doppler_max b) (d_doppler_step b) (d_channel b) (d_code b).
Definition block_set_doppler_max (doppler_max : Z) (b : acquisition_cc) : acquisition_cc :=
  block_update b (d_threshold b) doppler_max (d_doppler_step b) (d_channel b) (d_code b).
Definition block_set_doppler_step (doppler_step : Z) (b : acquisition_cc) : acquisition_cc :=
  block_update b (d_threshold b) (d_doppler_max b) doppler_step (d_channel b) (d_code b).
Definition block_set_channel (channel : Z) (b : acquisition_cc) : acquisition_cc :=
  block_update b (d_threshold b) (d_doppler_max b) (d_doppler_step b) channel (d_code b).
Definition block_set_local_code (code : buffer) (b : acquisition_cc) : acquisition_cc :=
  block_update b (d_threshold b) (d_doppler_max b) (d_doppler_step b) (d_channel b) (Some code).

(** The Doppler-bin count loop shared by both [calculate_threshold]s:

      for (int doppler = (int)(-doppler_max_); doppler <= (int)doppler_max_;
           doppler += doppler_step_) frequency_bins++;

    The loop need not terminate (a zero step), hence the fuel. *)
Fixpoint frequency_bins_loop (fuel : nat) (doppler_max_ doppler_step_ doppler bins : Z)
  : option Z :=
  match fuel with
  | O => None
  | S fuel' =>
      if decide (doppler ≤ to_int32 doppler_max_)
      then frequency_bins_loop fuel' doppler_max_ doppler_step_
             (to_int32 (wrap32 (doppler + doppler_step_))) (wrap32 (bins + 1))
      else Some bins
  end.

Definition frequency_bins (fuel : nat) (doppler_max_ doppler_step_ : Z) : option Z :=
  frequency_bins_loop fuel doppler_max_ doppler_step_
    (to_int32 (wrap32 (- doppler_max_))) 0.

(* ===================================================================== *)
(** ** Faults of the modelled C++ *)
(* ===================================================================== *)

(** What the C++ leaves undefined, made explicit; the exceptions
    [std::domain_error] and [std::overflow_error] that Boost.Math throws and
    no caller catches; and fuel exhaustion of a loop of the model. *)
Inductive fault : Type :=
  | DivisionByZero
  | OutOfBoundsWrite (offset count capacity : Z)
  | OutOfBoundsRead (index : Z)
  | DomainError
  | OverflowError
  | OutOfFuel.

Inductive result (A : Type) : Type :=
  | Done (a : A)
  | Fault (f : fault).
Arguments Done {A} a.
Arguments Fault {A} f.

#[global] Instance result_ret : MRet result := λ A a, Done a.
#[global] Instance result_bind : MBind result :=
  λ A B k r, match r with Done a => k a | Fault f => Fault f end.

Definition of_fuel {A} (o : option A) : result A :=
  match o with Some a => Done a | None => Fault OutOfFuel end.

(** Unsigned division and remainder, which trap on a zero divisor. *)
Definition udiv (a b : Z) : result Z :=
  if decide (b = 0) then Fault DivisionByZero else Done (a / b).
Definition umod (a b : Z) : result Z :=
  if decide (b = 0) then Fault DivisionByZero else Done (a mod b).

(** [boost::math::exponential_distribution<double> mydist(lambda)] under
    Boost's default error policy: the constructor throws
    [std::domain_error] unless the rate is positive and finite. *)
Definition exponential_distribution (lambda : float) : result float :=
  if (lambda <=? 0)%float || negb (is_finite lambda) then Fault DomainError
  else Done lambda.

(** [quantile(mydist, p)] under the same policy: [std::domain_error] for a
    probability that is below 0, above 1 or not finite, [std::overflow_error]
    for the probability 1, and otherwise the value, which
    [exponential_quantile] stands for. *)
Definition quantile `{M : MathLib} (mydist : float) (p : float) : result float :=
  if (p <? 0)%float || (1 <? p)%float || negb (is_finite p) then Fault DomainError
  else if (p =? 1)%float then Fault OverflowError
  else Done (exponential_quantile mydist p).

(** [memcpy] of [count] elements with the bounds of both arrays checked. *)
Definition checked_memcpy (dst : buffer) (off : Z) (src : list gr_complex) (count : Z)
  : result buffer :=
  if decide (Z.of_nat (length src) < count) then Fault (OutOfBoundsRead count)
  else match memcpy dst off (take (Z.to_nat count) src) with
       | Some b => Done b
       | None => Fault (OutOfBoundsWrite off count (Z.of_nat (length dst)))
       end.

(** [for (unsigned int i = 0; i < n; i++) memcpy(&code_[i*code_length_], code,
    sizeof(gr_complex)*code_length_);] *)
Definition replicate_code (code_ : buffer) (n code_length_ : Z) (code : list gr_complex)
  : result buffer :=
  foldl (λ acc i, b ← acc; checked_memcpy b (wrap32 (i * code_length_)) code code_length_)
        (Done code_) (seqZ 0 n).

(* ===================================================================== *)
(** ** GalileoE1PcpsQuickSyncAmbiguousAcquisition *)
(* ===================================================================== *)

Module QuickSync.

(** Modelled from the spec: Galileo_E1.h is not at hand; the E1 code has
    4092 chips and lasts 4 ms, a chip rate of 1.023 MHz. *)
Definition Galileo_E1_CODE_CHIP_RATE_HZ : Z := 1023000.
Definition Galileo_E1_B_CODE_LENGTH_CHIPS : Z := 4092.

(** The members of the adapter.  The class declaration is not at hand:
    the counters and lengths are [unsigned int], [fs_in_] and [if_] are
    [long], as the casts and the factory's signature in
    pcps_quicksync_acquisition_cc.h have them. *)
Record t : Type := {
  configuration_ : ConfigurationInterface;
  role_ : string;
  item_type_ : string;
  fs_in_ : Z;
  if_ : Z;
  dump_ : bool;
  shift_resolution_ : Z;
  sampled_ms_ : Z;
  code_length_ : Z;
  folding_factor_ : Z;
  vector_length_ : Z;
  bit_transition_flag_ : bool;
  max_dwells_ : Z;
  dump_filename_ : string;
  code_ : buffer;
  channel_ : Z;
  threshold_ : option float;
  doppler_max_ : Z;
  doppler_step_ : Z;
  acquisition_cc_ : option acquisition_cc
}.

(** The block of the constructor that forces [sampled_ms_] to a multiple of
    [folding_factor_*4]; yields the new [sampled_ms_] and the log. *)
Definition adjust_sampled_ms (sampled_ms folding_factor : Z)
  : result (Z * list LogRecord) :=
  let m := wrap32 (folding_factor * 4) in
  r ← umod sampled_ms m;
  if decide (r ≠ 0) then
    let sampled_ms' :=
      if decide (sampled_ms < m)
      then wrap32 (to_int32 m)
      else wrap32 (wrap32 (to_int32 (sampled_ms / m)) * m) in
    mret (sampled_ms',
          [LOG WARNING "QuickSync Algorithm requires a coherent_integration_time multiple of"
               [m; sampled_ms];
           LOG WARNING "coherent_integration_time will be used" [sampled_ms']])
  else mret (sampled_ms, []).

(** The constructor.  The members the constructor leaves unset
    ([channel_], [threshold_], [doppler_max_], [doppler_step_]) start at
    zero here; the flow graph sets them before use. *)
Definition GalileoE1PcpsQuickSyncAmbiguousAcquisition
    (configuration : ConfigurationInterface) (role : string)
  : result (t * list LogRecord) :=
  let item_type := property_string configuration (role +:+ ".item_type") "gr_complex" in
  let fs_in := property_int configuration "GNSS-SDR.internal_fs_hz" 4000000 in
  let if_v := property_int configuration (role +:+ ".ifreq") 0 in
  let dump := property_bool configuration (role +:+ ".dump") false in
  let shift_resolution := wrap32 (property_int configuration (role +:+ ".doppler_max") 15) in
  let sampled_ms0 :=
    wrap32 (property_int configuration (role +:+ ".coherent_integration_time_ms") 8) in
  let code_length :=
    wrap32 (round_div fs_in
              (Galileo_E1_CODE_CHIP_RATE_HZ / Galileo_E1_B_CODE_LENGTH_CHIPS)) in
  let samples_per_ms := to_int32 (round_div code_length 4) in
  let folding_factor := wrap32 (property_int configuration (role +:+ ".folding_factor") 2) in
  '(sampled_ms, log1) ← adjust_sampled_ms sampled_ms0 folding_factor;
  let vector_length := wrap32 (sampled_ms * wrap32 samples_per_ms) in
  let bit_transition_flag :=
    property_bool configuration (role +:+ ".bit_transition_flag") false in
  let max_dwells :=
    if negb bit_transition_flag
    then wrap32 (property_int configuration (role +:+ ".max_dwells") 1)
    else 2 in
  let dump_filename :=
    property_string configuration (role +:+ ".dump_filename") "../data/acquisition.dat" in
  let code := new_buffer code_length in
  let log2 := [LOG INFO "Vector Length, Samples per ms, Folding factor, Sampled ms, Code Length"
                   [vector_length; samples_per_ms; folding_factor; sampled_ms; code_length]] in
  let is_complex := bool_decide (item_type = "gr_complex") in
  let block :=
    if is_complex
    then Some {| d_threshold := None; d_doppler_max := shift_resolution;
                 d_doppler_step := 0; d_channel := 0; d_max_dwells := max_dwells;
                 d_sampled_ms := sampled_ms; d_code := None |}
    else None in
  let log3 := if is_complex then [] else [LOG WARNING "unknown acquisition item type" []] in
  mret ({| configuration_ := configuration; role_ := role; item_type_ := item_type;
           fs_in_ := fs_in; if_ := if_v; dump_ := dump;
           shift_resolution_ := shift_resolution; sampled_ms_ := sampled_ms;
           code_length_ := code_length; folding_factor_ := folding_factor;
           vector_length_ := vector_length; bit_transition_flag_ := bit_transition_flag;
           max_dwells_ := max_dwells; dump_filename_ := dump_filename; code_ := code;
           channel_ := 0; threshold_ := None; doppler_max_ := 0; doppler_step_ := 0;
           acquisition_cc_ := block |},
        log1 ++ log2 ++ log3).

Definition is_gr_complex (a : t) : bool := bool_decide (item_type_ a = "gr_complex").

(** Update of the block behind the adapter, guarded by the item type as
    every setter is. *)
Definition with_block (a : t) (f : acquisition_cc → acquisition_cc) : option acquisition_cc :=
  if is_gr_complex a then f <$> acquisition_cc_ a else acquisition_cc_ a.

(** The members that change after construction, replaced at once. *)
Definition update (a : t) (code : buffer) (channel : Z) (threshold : option float)
    (doppler_max doppler_step : Z) (block : option acquisition_cc) : t :=
  {| configuration_ := configuration_ a; role_ := role_ a;
     item_type_ := item_type_ a; fs_in_ := fs_in_ a; if_ := if_ a; dump_ := dump_ a;
     shift_resolution_ := shift_resolution_ a; sampled_ms_ := sampled_ms_ a;
     code_length_ := code_length_ a; folding_factor_ := folding_factor_ a;
     vector_length_ := vector_length_ a; bit_transition_flag_ := bit_transition_flag_ a;
     max_dwells_ := max_dwells_ a; dump_filename_ := dump_filename_ a; code_ := code;
     channel_ := channel; threshold_ := threshold; doppler_max_ := doppler_max;
     doppler_step_ := doppler_step; acquisition_cc_ := block |}.

Definition set_channel (a : t) (channel : Z) : t :=
  update a (code_ a) channel (threshold_ a) (doppler_max_ a) (doppler_step_ a)
    (with_block a (block_set_channel channel)).

Definition set_doppler_max (a : t) (doppler_max : Z) : t :=
  update a (code_ a) (channel_ a) (threshold_ a) doppler_max (doppler_step_ a)
    (with_block a (block_set_doppler_max doppler_max)).

Definition set_doppler_step (a : t) (doppler_step : Z) : t :=
  update a (code_ a) (channel_ a) (threshold_ a) (doppler_max_ a) doppler_step
    (with_block a (block_set_doppler_step doppler_step)).

(** The integer arguments of the threshold: the Doppler bins, [ncells] and
    the rate of the exponential distribution before its conversion to
    [double]. *)
Definition threshold_cells (fuel : nat) (a : t) : result (Z * Z * Z) :=
  bins ← of_fuel (frequency_bins fuel (doppler_max_ a) (doppler_step_ a));
  q ← udiv (code_length_ a) (folding_factor_ a);
  let ncells := wrap32 (q * bins) in
  q' ← udiv (code_length_ a) (folding_factor_ a);
  mret (bins, ncells, q').

Definition calculate_threshold `{M : MathLib} (fuel : nat) (a : t) (pfa : float)
  : result float :=
  '(_, ncells, lambda_int) ← threshold_cells fuel a;
  let exponent := (1 / double_of_uint ncells)%float in
  let val := pow (1 - pfa)%float exponent in
  let lambda := double_of_uint lambda_int in
  mydist ← exponential_distribution lambda;
  threshold ← quantile mydist val;
  mret (to_single threshold).

(** [float pfa = configuration_->property(key, 0.0)]: a double read,
    narrowed to [float]. *)
Definition read_pfa `{M : MathLib} (a : t) (key : string) : float :=
  to_single (property_double (configuration_ a) key 0).

Definition set_threshold `{M : MathLib} (fuel : nat) (a : t) (threshold : float) : result t :=
  let pfa := read_pfa a (role_ a +:+ lexical_cast (channel_ a) +:+ ".pfa") in
  let pfa := if (pfa =? 0)%float then read_pfa a (role_ a +:+ ".pfa") else pfa in
  threshold' ← (if (pfa =? 0)%float then mret threshold else calculate_threshold fuel a pfa);
  mret (update a (code_ a) (channel_ a) (Some threshold') (doppler_max_ a) (doppler_step_ a)
          (with_block a (block_set_threshold threshold'))).

(** [set_local_code]; [code] is the replica that
    [galileo_e1_code_gen_complex_sampled] (not at hand) writes into the
    temporary array of [code_length_] samples. *)
Definition set_local_code (a : t) (code : list gr_complex) : result t :=
  if is_gr_complex a then
    n ← udiv (sampled_ms_ a) (wrap32 (folding_factor_ a * 4));
    code' ← replicate_code (code_ a) n (code_length_ a) code;
    mret (update a code' (channel_ a) (threshold_ a) (doppler_max_ a) (doppler_step_ a)
            (block_set_local_code code' <$> acquisition_cc_ a))
  else mret a.

End QuickSync.

(* ===================================================================== *)
(** ** GpsL1CaPcpsTongAcquisition *)
(* ===================================================================== *)

Module Tong.

(** Modelled from the spec: GPS_L1_CA.h is not at hand; the C/A code has
    1023 chips and lasts 1 ms, a chip rate of 1.023 MHz. *)
Definition GPS_L1_CA_CODE_RATE_HZ : Z := 1023000.
Definition GPS_L1_CA_CODE_LENGTH_CHIPS : Z := 1023.

Record t : Type := {
  configuration_ : ConfigurationInterface;
  role_ : string;
  item_type_ : string;
  fs_in_ : Z;
  if_ : Z;
  dump_ : bool;
  shift_resolution_ : Z;
  sampled_ms_ : Z;
  tong_init_val_ : Z;
  tong_max_val_ : Z;
  dump_filename_ : string;
  code_length_ : Z;
  vector_length_ : Z;
  code_ : buffer;
  channel_ : Z;
  threshold_ : option float;
  doppler_max_ : Z;
  doppler_step_ : Z;
  acquisition_cc_ : option acquisition_cc
}.

Definition GpsL1CaPcpsTongAcquisition
    (configuration : ConfigurationInterface) (role : string) : t * list LogRecord :=
  let item_type := property_string configuration (role +:+ ".item_type") "gr_complex" in
  let fs_in := property_int configuration "GNSS-SDR.internal_fs_hz" 2048000 in
  let if_v := property_int configuration (role +:+ ".ifreq") 0 in
  let dump := property_bool configuration (role +:+ ".dump") false in
  let shift_resolution := wrap32 (property_int configuration (role +:+ ".doppler_max") 15) in
  let sampled_ms :=
    wrap32 (property_int configuration (role +:+ ".coherent_integration_time_ms") 1) in
  let tong_init_val := wrap32 (property_int configuration (role +:+ ".tong_init_val") 1) in
  let tong_max_val := wrap32 (property_int configuration (role +:+ ".tong_max_val") 2) in
  let dump_filename :=
    property_string configuration (role +:+ ".dump_filename") "./data/acquisition.dat" in
  let code_length :=
    wrap32 (round_div fs_in (GPS_L1_CA_CODE_RATE_HZ / GPS_L1_CA_CODE_LENGTH_CHIPS)) in
  let vector_length := wrap32 (code_length * sampled_ms) in
  let code := new_buffer vector_length in
  let is_complex := bool_decide (item_type = "gr_complex") in
  let block :=
    if is_complex
    then Some {| d_threshold := None; d_doppler_max := shift_resolution;
                 d_doppler_step := 0; d_channel := 0; d_max_dwells := 0;
                 d_sampled_ms := sampled_ms; d_code := None |}
    else None in
  let log := if is_complex then [] else [LOG WARNING "unknown acquisition item type" []] in
  ({| configuration_ := configuration; role_ := role; item_type_ := item_type;
      fs_in_ := fs_in; if_ := if_v; dump_ := dump; shift_resolution_ := shift_resolution;
      sampled_ms_ := sampled_ms; tong_init_val_ := tong_init_val;
      tong_max_val_ := tong_max_val; dump_filename_ := dump_filename;
      code_length_ := code_length; vector_length_ := vector_length; code_ := code;
      channel_ := 0; threshold_ := None; doppler_max_ := 0; doppler_step_ := 0;
      acquisition_cc_ := block |}, log).

Definition is_gr_complex (a : t) : bool := bool_decide (item_type_ a = "gr_complex").

Definition with_block (a : t) (f : acquisition_cc → acquisition_cc) : option acquisition_cc :=
  if is_gr_complex a then f <$> acquisition_cc_ a else acquisition_cc_ a.

Definition update (a : t) (code : buffer) (channel : Z) (threshold : option float)
    (doppler_max doppler_step : Z) (block : option acquisition_cc) : t :=
  {| configuration_ := configuration_ a; role_ := role_ a; item_type_ := item_type_ a;
     fs_in_ := fs_in_ a; if_ := if_ a; dump_ := dump_ a;
     shift_resolution_ := shift_resolution_ a; sampled_ms_ := sampled_ms_ a;
     tong_init_val_ := tong_init_val_ a; tong_max_val_ := tong_max_val_ a;
     dump_filename_ := dump_filename_ a; code_length_ := code_length_ a;
     vector_length_ := vector_length_ a; code_ := code; channel_ := channel;
     threshold_ := threshold; doppler_max_ := doppler_max; doppler_step_ := doppler_step;
     acquisition_cc_ := block |}.

Definition set_channel (a : t) (channel : Z) : t :=
  update a (code_ a) channel (threshold_ a) (doppler_max_ a) (doppler_step_ a)
    (with_block a (block_set_channel channel)).

Definition set_doppler_max (a : t) (doppler_max : Z) : t :=
  update a (code_ a) (channel_ a) (threshold_ a) doppler_max (doppler_step_ a)
    (with_block a (block_set_doppler_max doppler_max)).

Definition set_doppler_step (a : t) (doppler_step : Z) : t :=
  update a (code_ a) (channel_ a) (threshold_ a) (doppler_max_ a) doppler_step
    (with_block a (block_set_doppler_step doppler_step)).

Definition threshold_cells (fuel : nat) (a : t) : result (Z * Z * Z) :=
  bins ← of_fuel (frequency_bins fuel (doppler_max_ a) (doppler_step_ a));
  let ncells := wrap32 (vector_length_ a * bins) in
  mret (bins, ncells, vector_length_ a).

Definition calculate_threshold `{M : MathLib} (fuel : nat) (a : t) (pfa : float)
  : result float :=
  '(_, ncells, lambda_int) ← threshold_cells fuel a;
  let exponent := (1 / double_of_uint ncells)%float in
  let val := pow (1 - pfa)%float exponent in
  let lambda := double_of_uint lambda_int in
  mydist ← exponential_distribution lambda;
  threshold ← quantile mydist val;
  mret (to_single threshold).

Definition read_pfa `{M : MathLib} (a : t) (key : string) : float :=
  to_single (property_double (configuration_ a) key 0).

Definition set_threshold `{M : MathLib} (fuel : nat) (a : t) (threshold : float) : result t :=
  let pfa := read_pfa a (role_ a +:+ lexical_cast (channel_ a) +:+ ".pfa") in
  let pfa := if (pfa =? 0)%float then read_pfa a (role_ a +:+ ".pfa") else pfa in
  threshold' ← (if (pfa =? 0)%float then mret threshold else calculate_threshold fuel a pfa);
  mret (update a (code_ a) (channel_ a) (Some threshold') (doppler_max_ a) (doppler_step_ a)
          (with_block a (block_set_threshold threshold'))).

(** [set_local_code]; [code] is the replica written by
    [gps_l1_ca_code_gen_complex_sampled] into the temporary array. *)
Definition set_local_code (a : t) (code : list gr_complex) : result t :=
  if is_gr_complex a then
    code' ← replicate_code (code_ a) (sampled_ms_ a) (code_length_ a) code;
    mret (update a code' (channel_ a) (threshold_ a) (doppler_max_ a) (doppler_step_ a)
            (block_set_local_code code' <$> acquisition_cc_ a))
  else mret a.

End Tong.

(* ===================================================================== *)
(** ** hybrid_pvt_cc *)
(* ===================================================================== *)

Module HybridPvt.

(** The navigation-data classes, whose declarations are not at hand; the
    block only stores, copies and forwards their values.  The [default_*]
    members are the default-constructed objects inside [hybrid_ls_pvt]. *)
Class NavData : Type := {
  Gps_Ephemeris : Type;
  Galileo_Ephemeris : Type;
  Gps_Iono : Type;
  Gps_Utc_Model : Type;
  Galileo_Iono : Type;
  Galileo_Utc_Model : Type;
  Galileo_Almanac : Type;
  default_gps_iono : Gps_Iono;
  default_gps_utc_model : Gps_Utc_Model;
  default_galileo_iono : Galileo_Iono;
  default_galileo_utc_model : Galileo_Utc_Model;
  default_galileo_almanac : Galileo_Almanac
}.

(** The members of [Gnss_Synchro] (gnss_synchro.h) that the block reads. *)
Record Gnss_Synchro : Type := {
  PRN : Z;
  Flag_valid_pseudorange : bool;
  Pseudorange_m : float;
  d_TOW_at_current_symbol : float;
  d_TOW_hybrid_at_current_symbol : float
}.

(** [std::map<int, V>::insert]: an existing key keeps its value. *)
Definition map_insert {V} (k : Z) (v : V) (m : gmap Z V) : gmap Z V :=
  match m !! k with Some _ => m | None => <[k := v]> m end.

(** [m.begin()]: the entry with the least key, [None] for [m.end()]. *)
Definition map_begin {V} (m : gmap Z V) : option (Z * V) :=
  foldr (λ kv acc,
           match acc with
           | Some kv' => if decide (kv'.1 < kv.1) then Some kv' else Some kv
           | None => Some kv
           end) None (map_to_list m).

(** Modelled from the spec: [concurrent_map] (concurrent_map.h, not at
    hand) is the shared repository, [read(key)] copying the record out when
    the key is present and [get_map_copy] taking a snapshot.  At an epoch
    the block sees the content [m] of a global map. *)
Definition concurrent_read {V} (m : gmap Z V) (key : Z) (current : V) : bool * V :=
  match m !! key with Some v => (true, v) | None => (false, current) end.

(** The state of the dump stream, as far as the block can bring it about:
    good; [failbit] alone, after an [open] that failed; [badbit], after a
    write that failed. *)
Inductive iostate : Type := goodbit | failbit | badbit.

(** [std::ofstream d_dump_file]: the doubles of the writes the stream has
    accepted, in order, and its state.  The stream buffers what it accepts:
    how much of it is in the file on disk at a given moment is not told. *)
Record ofstream : Type := {
  written : list float;
  rdstate : iostate
}.

Section WithNavData.
Context `{N : NavData}.

(** The members of [hybrid_ls_pvt] the block assigns. *)
Record hybrid_ls_pvt : Type := {
  galileo_ephemeris_map : gmap Z Galileo_Ephemeris;
  gps_ephemeris_map : gmap Z Gps_Ephemeris;
  galileo_utc_model : Galileo_Utc_Model;
  galileo_iono : Galileo_Iono;
  galileo_almanac : Galileo_Almanac;
  gps_utc_model : Gps_Utc_Model;
  gps_iono : Gps_Iono
}.

(** The block.  [d_sample_counter] and [d_last_sample_nav_output] are
    [unsigned long], the rates are [int], [d_nchannels] is [unsigned int];
    [d_dump_file] is the stream of the raw dump file. *)
Record t : Type := {
  d_nchannels : Z;
  d_dump : bool;
  d_flag_averaging : bool;
  d_averaging_depth : Z;
  d_output_rate_ms : Z;
  d_display_rate_ms : Z;
  d_sample_counter : Z;
  d_last_sample_nav_output : Z;
  d_rx_time : float;
  d_TOW_at_curr_symbol_constellation : float;
  b_rinex_header_writen : bool;
  d_ls_pvt : hybrid_ls_pvt;
  d_dump_file : ofstream
}.

(** What the block asks of its collaborators during one call. *)
Inductive Event : Type :=
  | get_PVT (pseudoranges : gmap Z Gnss_Synchro) (rx_time : float) (flag_averaging : bool)
  | print_position_hybrid
  | rinex_obs_header (gps_eph : option Gps_Ephemeris) (galileo_eph : option Galileo_Ephemeris)
      (d_TOW_first_observation : float)
  | rinex_nav_header (gi : Gps_Iono) (gu : Gps_Utc_Model) (ei : Galileo_Iono)
      (eu : Galileo_Utc_Model) (ea : Galileo_Almanac)
  | log_rinex_nav (gps_eph_map : gmap Z Gps_Ephemeris)
      (galileo_eph_map : gmap Z Galileo_Ephemeris)
  | log_rinex_obs (gps_eph : option Gps_Ephemeris) (galileo_eph : option Galileo_Ephemeris)
      (obs_time : float) (pseudoranges : gmap Z Gnss_Synchro)
  | display_position
  | log_dump_exception.

(** What one call of [general_work] finds outside the block: the first
    item of each input stream, the content of the global maps, what
    [get_PVT] answers (hybrid_ls_pvt is not at hand) and leaves in
    [b_valid_position], and whether a write to a good dump stream fails:
    [Some k] when the write after [k] accepted ones does. *)
Record Environment : Type := {
  input_items : list Gnss_Synchro;
  global_galileo_ephemeris_map : gmap Z Galileo_Ephemeris;
  global_galileo_iono_map : gmap Z Galileo_Iono;
  global_galileo_utc_model_map : gmap Z Galileo_Utc_Model;
  global_galileo_almanac_map : gmap Z Galileo_Almanac;
  global_gps_ephemeris_map : gmap Z Gps_Ephemeris;
  global_gps_iono_map : gmap Z Gps_Iono;
  global_gps_utc_model_map : gmap Z Gps_Utc_Model;
  pvt_result : bool;
  b_valid_position : bool;
  dump_write_fault : option nat
}.

(** The constructor.  The KML and NMEA printers are left out.
    [dump_file_opens] tells whether [d_dump_file.open(d_dump_filename)]
    succeeds.  The exception mask of the stream is set to
    [failbit | badbit] before the [open]; a failing [open] sets [failbit],
    the exception is caught and logged, and [d_dump] stays as it is. *)
Definition hybrid_pvt_cc (nchannels : Z) (dump : bool) (averaging_depth : Z)
    (flag_averaging : bool) (output_rate_ms display_rate_ms : Z)
    (dump_file_opens : bool) : t :=
  {| d_nchannels := nchannels; d_dump := dump; d_flag_averaging := flag_averaging;
     d_averaging_depth := averaging_depth; d_output_rate_ms := output_rate_ms;
     d_display_rate_ms := display_rate_ms; d_sample_counter := 0;
     d_last_sample_nav_output := 0; d_rx_time := 0;
     d_TOW_at_curr_symbol_constellation := 0; b_rinex_header_writen := false;
     d_ls_pvt := {| galileo_ephemeris_map := ∅; gps_ephemeris_map := ∅;
                    galileo_utc_model := default_galileo_utc_model;
                    galileo_iono := default_galileo_iono;
                    galileo_almanac := default_galileo_almanac;
                    gps_utc_model := default_gps_utc_model;
                    gps_iono := default_gps_iono |};
     d_dump_file := {| written := [];
                       rdstate := if dump && negb dump_file_opens
                                  then failbit else goodbit |} |}.

(** [in[i][0]] for [i < d_nchannels]. *)
Definition read_inputs (nchannels : Z) (items : list Gnss_Synchro)
  : result (list Gnss_Synchro) :=
  if decide (nchannels ≤ Z.of_nat (length items))
  then Done (take (Z.to_nat nchannels) items)
  else Fault (OutOfBoundsRead (Z.of_nat (length items))).

(** The first loop: the valid pseudoranges, and the two time stamps of
    the last valid channel. *)
Definition collect_pseudoranges (channels : list Gnss_Synchro)
    (tow rx_time : float) : gmap Z Gnss_Synchro * float * float :=
  foldl (λ '(m, tow, rx) ch,
           if Flag_valid_pseudorange ch
           then (map_insert (to_int32 (PRN ch)) ch m,
                 d_TOW_at_current_symbol ch, d_TOW_hybrid_at_current_symbol ch)
           else (m, tow, rx))
        (∅, tow, rx_time) channels.

(** Steps 1: the ephemerides and models read from the global maps. *)
Definition read_global_maps (ls : hybrid_ls_pvt) (env : Environment)
  : hybrid_ls_pvt * bool :=
  let gal_eph := if decide (0 < size (global_galileo_ephemeris_map env))%nat
                 then global_galileo_ephemeris_map env else galileo_ephemeris_map ls in
  let gal_utc := if decide (0 < size (global_galileo_utc_model_map env))%nat
                 then (concurrent_read (global_galileo_utc_model_map env) 0
                         (galileo_utc_model ls)).2
                 else galileo_utc_model ls in
  let gal_iono := if decide (0 < size (global_galileo_iono_map env))%nat
                  then (concurrent_read (global_galileo_iono_map env) 0 (galileo_iono ls)).2
                  else galileo_iono ls in
  let '(arrived_galileo_almanac, gal_alm) :=
    if decide (0 < size (global_galileo_almanac_map env))%nat
    then concurrent_read (global_galileo_almanac_map env) 0 (galileo_almanac ls)
    else (false, galileo_almanac ls) in
  let gps_eph := if decide (0 < size (global_gps_ephemeris_map env))%nat
                 then global_gps_ephemeris_map env else gps_ephemeris_map ls in
  let gps_utc := if decide (0 < size (global_gps_utc_model_map env))%nat
                 then (concurrent_read (global_gps_utc_model_map env) 0 (gps_utc_model ls)).2
                 else gps_utc_model ls in
  let gps_ion := if decide (0 < size (global_gps_iono_map env))%nat
                 then (concurrent_read (global_gps_iono_map env) 0 (gps_iono ls)).2
                 else gps_iono ls in
  ({| galileo_ephemeris_map := gal_eph; gps_ephemeris_map := gps_eph;
      galileo_utc_model := gal_utc; galileo_iono := gal_iono; galileo_almanac := gal_alm;
      gps_utc_model := gps_utc; gps_iono := gps_ion |}, arrived_galileo_almanac).

(** [if (!b_rinex_header_writen) { ... }]: the new flag and the headers. *)
Definition write_rinex_header (header_writen : bool) (ls : hybrid_ls_pvt)
    (arrived_galileo_almanac : bool) (rx_time : float) : bool * list Event :=
  if negb header_writen then
    let galileo_ephemeris_iter := map_begin (galileo_ephemeris_map ls) in
    let gps_ephemeris_iter := map_begin (gps_ephemeris_map ls) in
    if bool_decide (galileo_ephemeris_iter ≠ None) && bool_decide (gps_ephemeris_iter ≠ None)
    then
      if arrived_galileo_almanac
      then (true,
            [rinex_obs_header (snd <$> gps_ephemeris_iter) (snd <$> galileo_ephemeris_iter)
               rx_time;
             rinex_nav_header (gps_iono ls) (gps_utc_model ls) (galileo_iono ls)
               (galileo_utc_model ls) (galileo_almanac ls)])
      else (header_writen, [])
    else (header_writen, [])
  else (header_writen, []).

(** [if (b_rinex_header_writen) { ... }]: the new
    [d_last_sample_nav_output] and the records.  A [None] in
    [log_rinex_obs] is an end iterator dereferenced. *)
Definition write_rinex_records (header_writen : bool) (sample_counter last_nav : Z)
    (ls : hybrid_ls_pvt) (rx_time : float) (pseudoranges : gmap Z Gnss_Synchro)
  : Z * list Event :=
  if header_writen then
    let '(last_nav', nav) :=
      if decide (6000 ≤ wrap64 (sample_counter - last_nav))
      then (sample_counter,
            [log_rinex_nav (gps_ephemeris_map ls) (galileo_ephemeris_map ls)])
      else (last_nav, []) in
    let galileo_ephemeris_iter := map_begin (galileo_ephemeris_map ls) in
    let gps_ephemeris_iter := map_begin (gps_ephemeris_map ls) in
    let obs :=
      if bool_decide (galileo_ephemeris_iter ≠ None) || bool_decide (gps_ephemeris_iter ≠ None)
      then [log_rinex_obs (snd <$> gps_ephemeris_iter) (snd <$> galileo_ephemeris_iter)
              rx_time pseudoranges]
      else [] in
    (last_nav', nav ++ obs)
  else (last_nav, []).

(** The doubles the dump loop writes, channel by channel. *)
Definition dump_records (channels : list Gnss_Synchro) (rx_time : float) : list float :=
  channels ≫= λ ch, [Pseudorange_m ch; 0%float; rx_time].

(** The dump loop inside its [try], on a stream whose exception mask is
    [failbit | badbit] (libstdc++).  A good stream accepts each write until
    one fails, which sets [badbit] and throws.  With [failbit] alone every
    write returns at once, nothing written and nothing thrown.  With
    [badbit] the first write throws.  The exception ends the loop and is
    logged. *)
Definition write_dump (file : ofstream) (records : list float) (fault_at : option nat)
  : ofstream * list Event :=
  match rdstate file with
  | goodbit =>
      match fault_at with
      | Some k =>
          if decide (k < length records)%nat
          then ({| written := written file ++ take k records; rdstate := badbit |},
                [log_dump_exception])
          else ({| written := written file ++ records; rdstate := goodbit |}, [])
      | None => ({| written := written file ++ records; rdstate := goodbit |}, [])
      end
  | failbit => (file, [])
  | badbit =>
      match records with
      | [] => (file, [])
      | _ :: _ => (file, [log_dump_exception])
      end
  end.

(** The block with the members that change during a call replaced. *)
Definition update (b : t) (sample_counter last_nav : Z) (rx_time tow : float)
    (header_writen : bool) (ls : hybrid_ls_pvt) (file : ofstream) : t :=
  {| d_nchannels := d_nchannels b; d_dump := d_dump b;
     d_flag_averaging := d_flag_averaging b; d_averaging_depth := d_averaging_depth b;
     d_output_rate_ms := d_output_rate_ms b; d_display_rate_ms := d_display_rate_ms b;
     d_sample_counter := sample_counter; d_last_sample_nav_output := last_nav;
     d_rx_time := rx_time; d_TOW_at_curr_symbol_constellation := tow;
     b_rinex_header_writen := header_writen; d_ls_pvt := ls; d_dump_file := file |}.

(** Step 2, [if ((d_sample_counter % d_output_rate_ms) == 0) { ... }], with
    [r] the remainder: the new header flag, the new
    [d_last_sample_nav_output] and what was called. *)
Definition compute_pvt (b : t) (env : Environment) (sample_counter r : Z)
    (ls : hybrid_ls_pvt) (arrived_galileo_almanac : bool) (rx_time : float)
    (gnss_pseudoranges_map : gmap Z Gnss_Synchro) : bool * Z * list Event :=
  if decide (r = 0) then
    if pvt_result env then
      let '(hw, ev_header) :=
        write_rinex_header (b_rinex_header_writen b) ls arrived_galileo_almanac rx_time in
      let '(ln, ev_records) :=
        write_rinex_records hw sample_counter (d_last_sample_nav_output b) ls rx_time
          gnss_pseudoranges_map in
      (hw, ln,
       get_PVT gnss_pseudoranges_map rx_time (d_flag_averaging b)
         :: print_position_hybrid :: ev_header ++ ev_records)
    else (b_rinex_header_writen b, d_last_sample_nav_output b,
          [get_PVT gnss_pseudoranges_map rx_time (d_flag_averaging b)])
  else (b_rinex_header_writen b, d_last_sample_nav_output b, []).

(** The console message, with [r] the remainder by [d_display_rate_ms]. *)
Definition display (env : Environment) (r : Z) : list Event :=
  if bool_decide (r = 0) && b_valid_position env then [display_position] else [].

(** [if (d_dump == true) { ... }]. *)
Definition record_dump (b : t) (env : Environment) (channels : list Gnss_Synchro)
    (rx_time : float) : ofstream * list Event :=
  if d_dump b
  then write_dump (d_dump_file b) (dump_records channels rx_time) (dump_write_fault env)
  else (d_dump_file b, []).

(** One call of [general_work]. *)
Definition general_work (b : t) (env : Environment) : result (t * list Event) :=
  let sample_counter := wrap64 (d_sample_counter b + 1) in
  channels ← read_inputs (d_nchannels b) (input_items env);
  let '(gnss_pseudoranges_map, tow, rx_time) :=
    collect_pseudoranges channels (d_TOW_at_curr_symbol_constellation b) (d_rx_time b) in
  let '(ls, arrived_galileo_almanac) := read_global_maps (d_ls_pvt b) env in
  if decide (0 < size gnss_pseudoranges_map)%nat then
    r ← umod sample_counter (wrap64 (d_output_rate_ms b));
    let '(header_writen, last_nav, ev_pvt) :=
      compute_pvt b env sample_counter r ls arrived_galileo_almanac rx_time
        gnss_pseudoranges_map in
    r' ← umod sample_counter (wrap64 (d_display_rate_ms b));
    let ev_display := display env r' in
    let '(file, ev_dump) := record_dump b env channels rx_time in
    mret (update b sample_counter last_nav rx_time tow header_writen ls file,
          ev_pvt ++ ev_display ++ ev_dump)
  else
    mret (update b sample_counter (d_last_sample_nav_output b) rx_time tow
            (b_rinex_header_writen b) ls (d_dump_file b), []).

(** One epoch of a session: the block before the call, what it found,
    what it did and the block after the call. *)
Record Epoch : Type := {
  before : t;
  found : Environment;
  events : list Event;
  after : t
}.

(** A session: [general_work] called once per environment, in order. *)
Fixpoint session (b : t) (envs : list Environment) : result (list Epoch) :=
  match envs with
  | [] => mret []
  | env :: envs' =>
      '(b', evs) ← general_work b env;
      rest ← session b' envs';
      mret ({| before := b; found := env; events := evs; after := b' |} :: rest)
  end.

(** *** What a session shows *)

Definition is_get_PVT (e : Event) : bool :=
  match e with get_PVT _ _ _ => true | _ => false end.
Definition is_rinex_header (e : Event) : bool :=
  match e with
  | rinex_obs_header _ _ _ | rinex_nav_header _ _ _ _ _ => true
  | _ => false
  end.
Definition is_log_rinex_nav (e : Event) : bool :=
  match e with log_rinex_nav _ _ => true | _ => false end.

(** The epoch with index [k] of the session, if the session gets there. *)
Definition epoch_at (b : t) (envs : list Environment) (k : nat) : option Epoch :=
  match session b envs with Done tr => tr !! k | Fault _ => None end.

Definition writes_header (ep : Epoch) : bool := existsb is_rinex_header (events ep).
Definition logs_nav (ep : Epoch) : bool := existsb is_log_rinex_nav (events ep).

Definition nav_logged_at (b : t) (envs : list Environment) (k : nat) : bool :=
  match epoch_at b envs k with Some ep => logs_nav ep | None => false end.

(** An epoch with a valid PVT: [get_PVT] was called and answered [true]. *)
Definition valid_pvt (ep : Epoch) : bool :=
  existsb is_get_PVT (events ep) && pvt_result (found ep).

(** An epoch at which the headers can be written: a valid PVT, an
    ephemeris of each constellation inside the solver, and the Galileo
    almanac in the repository. *)
Definition header_gate (ep : Epoch) : bool :=
  valid_pvt ep
  && bool_decide (gps_ephemeris_map (d_ls_pvt (after ep)) ≠ ∅)
  && bool_decide (galileo_ephemeris_map (d_ls_pvt (after ep)) ≠ ∅)
  && bool_decide (is_Some (global_galileo_almanac_map (found ep) !! 0)).

(** Ticks of the sample counter since the last navigation record. *)
Definition nav_gap (b : t) : Z :=
  wrap64 (d_sample_counter b - d_last_sample_nav_output b).

(** The header flag implies an ephemeris of each constellation. *)
Definition header_implies_ephemeris (b : t) : Prop :=
  b_rinex_header_writen b = true →
  gps_ephemeris_map (d_ls_pvt b) ≠ ∅ ∧ galileo_ephemeris_map (d_ls_pvt b) ≠ ∅.

End WithNavData.

End HybridPvt.

(* ===================================================================== *)
(** ** Concrete sessions *)
(* ===================================================================== *)

Module Fixtures.
Import HybridPvt.

(** Navigation data reduced to an issue number per ephemeris. *)
Definition issue_numbers : NavData :=
  {| Gps_Ephemeris := Z; Galileo_Ephemeris := Z; Gps_Iono := unit;
     Gps_Utc_Model := unit; Galileo_Iono := unit; Galileo_Utc_Model := unit;
     Galileo_Almanac := unit; default_gps_iono := tt; default_gps_utc_model := tt;
     default_galileo_iono := tt; default_galileo_utc_model := tt;
     default_galileo_almanac := tt |}.

Definition channel (prn : Z) (valid : bool) (pseudorange tow : float) : Gnss_Synchro :=
  {| PRN := prn; Flag_valid_pseudorange := valid; Pseudorange_m := pseudorange;
     d_TOW_at_current_symbol := tow; d_TOW_hybrid_at_current_symbol := tow |}.

(** Two channels, one of them valid; both constellations and the almanac
    are in the repository; the solver finds a fix. *)
Definition full_epoch : Environment (N := issue_numbers) :=
  {| input_items := [channel 3 true 25000000 100.5; channel 7 false 0 0];
     global_galileo_ephemeris_map := {[ 11 := 5 ]};
     global_galileo_iono_map := ∅; global_galileo_utc_model_map := ∅;
     global_galileo_almanac_map := {[ 0 := tt ]};
     global_gps_ephemeris_map := {[ 3 := 9 ]};
     global_gps_iono_map := ∅; global_gps_utc_model_map := ∅;
     pvt_result := true; b_valid_position := true; dump_write_fault := None |}.

(** The same epoch before any Galileo data has been decoded. *)
Definition gps_only_epoch : Environment (N := issue_numbers) :=
  {| input_items := [channel 3 true 25000000 100.5; channel 7 false 0 0];
     global_galileo_ephemeris_map := ∅;
     global_galileo_iono_map := ∅; global_galileo_utc_model_map := ∅;
     global_galileo_almanac_map := ∅;
     global_gps_ephemeris_map := {[ 3 := 9 ]};
     global_gps_iono_map := ∅; global_gps_utc_model_map := ∅;
     pvt_result := true; b_valid_position := true; dump_write_fault := None |}.

Definition two_channel_block (dump : bool) : t (N := issue_numbers) :=
  hybrid_pvt_cc 2 dump 10 false 1 1000 true.


(** *** Adapters *)

Definition cfg_ms (ms : Z) : ConfigurationInterface :=
  {| int_properties := {[ "Acquisition.coherent_integration_time_ms" := ms ]};
     bool_properties := ∅; string_properties := ∅; double_properties := ∅ |}.

(** A configuration that sets the bit-transition flag and the dwell cap. *)
Definition cfg_dwells (flag : bool) (dwells : Z) : ConfigurationInterface :=
  {| int_properties := {[ "Acquisition.max_dwells" := dwells ]};
     bool_properties := {[ "Acquisition.bit_transition_flag" := flag ]};
     string_properties := ∅; double_properties := ∅ |}.

(** A stand-in for the library functions that shows which rate reaches
    the distribution. *)
Definition rate_probe : MathLib :=
  {| pow := λ _ y, y; exponential_quantile := λ lambda _, lambda; to_single := λ x, x |}.

Definition default_quicksync : result QuickSync.t :=
  r ← QuickSync.GalileoE1PcpsQuickSyncAmbiguousAcquisition empty_configuration "Acquisition";
  mret (QuickSync.set_doppler_step (QuickSync.set_doppler_max r.1 10000) 250).

(** The adapter [default_quicksync] yields, written out. *)
Definition default_quicksync_value : QuickSync.t :=
  let block := {| d_threshold := None; d_doppler_max := 10000; d_doppler_step := 250;
                  d_channel := 0; d_max_dwells := 1; d_sampled_ms := 8; d_code := None |} in
  {| QuickSync.configuration_ := empty_configuration; QuickSync.role_ := "Acquisition";
     QuickSync.item_type_ := "gr_complex"; QuickSync.fs_in_ := 4000000;
     QuickSync.if_ := 0; QuickSync.dump_ := false; QuickSync.shift_resolution_ := 15;
     QuickSync.sampled_ms_ := 8; QuickSync.code_length_ := 16000;
     QuickSync.folding_factor_ := 2; QuickSync.vector_length_ := 32000;
     QuickSync.bit_transition_flag_ := false; QuickSync.max_dwells_ := 1;
     QuickSync.dump_filename_ := "../data/acquisition.dat";
     QuickSync.code_ := new_buffer 16000; QuickSync.channel_ := 0;
     QuickSync.threshold_ := None; QuickSync.doppler_max_ := 10000;
     QuickSync.doppler_step_ := 250; QuickSync.acquisition_cc_ := Some block |}.

Definition default_tong : Tong.t :=
  Tong.set_doppler_step
    (Tong.set_doppler_max
       (Tong.GpsL1CaPcpsTongAcquisition empty_configuration "Acquisition").1 10000) 250.



End Fixtures.

(* ===================================================================== *)
(** ** Statements of the receiver specification, in its own words *)
(* ===================================================================== *)

(** The specification's threshold: the quantile, at [(1 - P_fa)^(1/N_cells)],
    of the exponential distribution of rate [lambda]. *)
Definition pfa_threshold `{M : MathLib} (lambda ncells : Z) (pfa : float) : float :=
  to_single (exponential_quantile (double_of_uint lambda)
               (pow (1 - pfa)%float (1 / double_of_uint ncells)%float)).

(** The probability at which the quantile is taken, as [pow] computes it. *)
Definition quantile_probability `{M : MathLib} (ncells : Z) (pfa : float) : float :=
  pow (1 - pfa)%float (1 / double_of_uint ncells)%float.

(** A rate that is positive; a probability in [0, 1]; a probability in
    [0, 1), where the quantile of the exponential distribution exists. *)
Definition positive_rate (lambda : Z) : bool :=
  negb (double_of_uint lambda <=? 0)%float && is_finite (double_of_uint lambda).
Definition in_unit_interval (p : float) : bool :=
  negb (p <? 0)%float && negb (1 <? p)%float && is_finite p.
Definition below_one (p : float) : bool :=
  in_unit_interval p && negb (p =? 1)%float.

(** What the threshold of rate [lambda] over [ncells] cells comes to, for an
    outcome [r] of [calculate_threshold]: the specification's value where
    the quantile exists, and the exception of Boost.Math where it does
    not. *)
Definition threshold_outcome `{M : MathLib} (lambda ncells : Z) (pfa : float)
    (r : result float) : Prop :=
  let p := quantile_probability ncells pfa in
  (positive_rate lambda = true → below_one p = true →
   r = Done (pfa_threshold lambda ncells pfa))
  ∧ (lambda = 0 → r = Fault DomainError)
  ∧ (positive_rate lambda = true → in_unit_interval p = false → r = Fault DomainError)
  ∧ (positive_rate lambda = true → p = 1%float → r = Fault OverflowError).

(** The number of Doppler values [-doppler_max + k * doppler_step], [k >= 0],
    that do not exceed [doppler_max]. *)
Definition doppler_bins (doppler_max doppler_step : Z) : Z :=
  2 * doppler_max / doppler_step + 1.

(** Doppler bins still to be counted when the loop variable is [d]. *)
Definition remaining (doppler_max doppler_step d : Z) : Z :=
  if decide (d ≤ doppler_max) then (doppler_max - d) / doppler_step + 1 else 0.

(** The specification's "rounded upward to a multiple of [m]". *)
Definition rounded_upward (x m : Z) : Z := (x + m - 1) / m * m.

(** What the QuickSync constructor reads as integration time and folding
    factor, as [unsigned int]. *)
Definition configured_ms (cfg : ConfigurationInterface) (role : string) : Z :=
  wrap32 (property_int cfg (role +:+ ".coherent_integration_time_ms") 8).
Definition configured_folding (cfg : ConfigurationInterface) (role : string) : Z :=
  wrap32 (property_int cfg (role +:+ ".folding_factor") 2).



(* ===================================================================== *)
(** ** hybrid_pvt_cc: what a call reads and in which order it acts *)
(* ===================================================================== *)

Module PvtMore.
Import HybridPvt.

Section WithNavData.
Context `{N : NavData}.

Definition is_log_rinex_obs (e : Event) : bool :=
  match e with log_rinex_obs _ _ _ _ => true | _ => false end.

(** The place of a call in the body of [general_work]. *)
Definition event_rank (e : Event) : nat :=
  match e with
  | get_PVT _ _ _ => 0
  | print_position_hybrid => 1
  | rinex_obs_header _ _ _ => 2
  | rinex_nav_header _ _ _ _ _ => 3
  | log_rinex_nav _ _ => 4
  | log_rinex_obs _ _ _ _ => 5
  | display_position => 6
  | log_dump_exception => 7
  end%nat.

Fixpoint increasing (l : list nat) : bool :=
  match l with
  | x :: (y :: _) as l' => bool_decide (x < y)%nat && increasing l'
  | _ => true
  end.

(** The channels a call reads, and those among them with a valid
    pseudorange. *)
Definition channels_read (b : t) (env : Environment) : list Gnss_Synchro :=
  take (Z.to_nat (d_nchannels b)) (input_items env).

Definition valid_channels (b : t) (env : Environment) : list Gnss_Synchro :=
  filter (λ ch, Flag_valid_pseudorange ch = true) (channels_read b env).

(** The first valid channel that tracks the satellite with map key [k]. *)
Definition first_valid_with_key (channels : list Gnss_Synchro) (k : Z) : option Gnss_Synchro :=
  head (filter (λ ch, Flag_valid_pseudorange ch = true ∧ to_int32 (PRN ch) = k) channels).

(** The environment with another fate for the dump writes. *)
Definition with_dump_write_fault (env : Environment) (fault_at : option nat) : Environment :=
  {| input_items := input_items env;
     global_galileo_ephemeris_map := global_galileo_ephemeris_map env;
     global_galileo_iono_map := global_galileo_iono_map env;
     global_galileo_utc_model_map := global_galileo_utc_model_map env;
     global_galileo_almanac_map := global_galileo_almanac_map env;
     global_gps_ephemeris_map := global_gps_ephemeris_map env;
     global_gps_iono_map := global_gps_iono_map env;
     global_gps_utc_model_map := global_gps_utc_model_map env;
     pvt_result := pvt_result env; b_valid_position := b_valid_position env;
     dump_write_fault := fault_at |}.

(** The last non-empty snapshot among those seen, none if all were empty. *)
Definition latest_snapshot {V} (seen : list (gmap Z V)) : gmap Z V :=
  default ∅ (last (filter (λ m, 0 < size m)%nat seen)).

End WithNavData.
End PvtMore.

(** *** More concrete epochs *)

Module MoreFixtures.
Import HybridPvt Fixtures.

(** Two channels that track the same satellite, both with a valid
    pseudorange. *)
Definition same_prn_epoch : Environment (N := issue_numbers) :=
  {| input_items := [channel 3 true 25000000 100.5; channel 3 true 26000000 101.5];
     global_galileo_ephemeris_map := {[ 11 := 5 ]};
     global_galileo_iono_map := ∅; global_galileo_utc_model_map := ∅;
     global_galileo_almanac_map := {[ 0 := tt ]};
     global_gps_ephemeris_map := {[ 3 := 9 ]};
     global_gps_iono_map := ∅; global_gps_utc_model_map := ∅;
     pvt_result := true; b_valid_position := true; dump_write_fault := None |}.

(** No channel has a valid pseudorange. *)
Definition no_fix_epoch : Environment (N := issue_numbers) :=
  {| input_items := [channel 3 false 0 0; channel 7 false 0 0];
     global_galileo_ephemeris_map := {[ 11 := 5 ]};
     global_galileo_iono_map := ∅; global_galileo_utc_model_map := ∅;
     global_galileo_almanac_map := {[ 0 := tt ]};
     global_gps_ephemeris_map := {[ 3 := 9 ]};
     global_gps_iono_map := ∅; global_gps_utc_model_map := ∅;
     pvt_result := true; b_valid_position := true; dump_write_fault := None |}.

(** A block configured with the given output rate. *)
Definition block_with_rate (output_rate_ms : Z) : t (N := issue_numbers) :=
  hybrid_pvt_cc 2 false 10 false output_rate_ms 1000 true.

(** A configuration that sets the folding factor. *)
Definition cfg_folding (p : Z) : ConfigurationInterface :=
  {| int_properties := {[ "Acquisition.folding_factor" := p ]};
     bool_properties := ∅; string_properties := ∅; double_properties := ∅ |}.

(** An adapter whose folding factor exceeds the 16000 samples of one code. *)
Definition overfolded_quicksync : result QuickSync.t :=
  r ← QuickSync.GalileoE1PcpsQuickSyncAmbiguousAcquisition (cfg_folding 20000) "Acquisition";
  mret (QuickSync.set_doppler_step (QuickSync.set_doppler_max r.1 10000) 250).

End MoreFixtures.

(* ===================================================================== *)
(** ** Rinex_Printer: the inline string helpers of rinex_printer.h *)
(* ===================================================================== *)

Module RinexPrinter.
Import Stdlib.Strings.Ascii.

(** A [std::string] is the list of its characters, a [size_type] a natural
    number; exhaustion of memory is outside the model.  The "C" locale is
    assumed. *)

(** [leftJustify]: [substr(0, length)] or [append(length - s.length(), pad)]. *)
Definition leftJustify (s : list ascii) (length : nat) (pad : ascii) : list ascii :=
  if decide (length < List.length s)%nat then take length s
  else s ++ replicate (length - List.length s) pad.

(** [rightJustify]: [substr(s.length() - length, npos)] or
    [insert(0, length - s.length(), pad)]. *)
Definition rightJustify (s : list ascii) (length : nat) (pad : ascii) : list ascii :=
  if decide (length < List.length s)%nat then drop (List.length s - length) s
  else replicate (length - List.length s) pad ++ s.

(** The character of a decimal digit. *)
Definition digit_char (d : Z) : ascii := ascii_of_N (Z.to_N (48 + d)).

(** The decimal digits of a non-negative number, most significant first,
    in front of [tail]. *)
Fixpoint put_digits (fuel : nat) (n : Z) (tail : list ascii) : list ascii :=
  match fuel with
  | O => tail
  | S fuel' =>
      let tail' := digit_char (n `mod` 10) :: tail in
      if decide (n / 10 = 0) then tail' else put_digits fuel' (n / 10) tail'
  end.

(** [operator<<] of a stream for an integer with the default flags: a minus
    sign for a negative number, then its decimal digits.  A number has no
    more decimal digits than binary ones. *)
Definition put_integer (x : Z) : list ascii :=
  let digits := put_digits (S (Z.to_nat (Z.log2 (Z.abs x)))) (Z.abs x) [] in
  if decide (x < 0) then "-"%char :: digits else digits.

(** The template [asString], at an integer type: [ss << x; return ss.str()]. *)
Definition asString (x : Z) : list ascii := put_integer x.

(** [asFixWidthString]: [setw(width)] pads on the left with the fill
    character up to [width] characters (none for a negative width); the
    position [size() - width] is computed in [size_type], and [substr] throws
    [std::out_of_range] ([None]) for a position beyond the size. *)
Definition asFixWidthString (x width : Z) (fill_digit : ascii) : option (list ascii) :=
  let text := put_integer x in
  let str := replicate (Z.to_nat width - List.length text) fill_digit ++ text in
  let pos := wrap64 (Z.of_nat (List.length str) - width) in
  if decide (Z.of_nat (List.length str) < pos) then None
  else Some (drop (Z.to_nat pos) str).

(** [isspace] and [isdigit]. *)
Definition isspace (c : ascii) : bool :=
  bool_decide (c ∈ [" "; "009"; "010"; "011"; "012"; "013"]%char).
Definition isdigit (c : ascii) : bool :=
  bool_decide (48 ≤ Z.of_N (N_of_ascii c) ≤ 57).

Fixpoint skip_space (s : list ascii) : list ascii :=
  match s with
  | c :: s' => if isspace c then skip_space s' else s
  | [] => []
  end.

(** The digits read by [strtol] in base 10, up to the first character that
    is no digit (the terminating NUL of [c_str()] at the latest). *)
Fixpoint strtol_digits (s : list ascii) (acc : Z) : Z :=
  match s with
  | c :: s' =>
      if isdigit c then strtol_digits s' (acc * 10 + (Z.of_N (N_of_ascii c) - 48))
      else acc
  | [] => acc
  end.

(** [long] on LP64. *)
Definition LONG_MAX : Z := 2 ^ 63 - 1.
Definition LONG_MIN : Z := - 2 ^ 63.

(** [strtol(s, 0, 10)]: white space, an optional sign, digits; a value out
    of range is replaced by [LONG_MAX] or [LONG_MIN]. *)
Definition strtol (s : list ascii) : Z :=
  let s := skip_space s in
  let '(negative, digits) :=
    match s with
    | c :: s' =>
        if decide (c = "-"%char) then (true, s')
        else if decide (c = "+"%char) then (false, s')
        else (false, s)
    | [] => (false, [])
    end in
  let v := strtol_digits digits 0 in
  Z.max LONG_MIN (Z.min LONG_MAX (if negative : bool then - v else v)).

(** [asInt]. *)
Definition asInt (s : list ascii) : Z := strtol s.

(** [bitString[i]] as a [char], which is signed: the character at [i], the
    terminating NUL at [i = size()], undefined ([None]) beyond. *)
Definition char_value (c : ascii) : Z :=
  let v := Z.of_N (N_of_ascii c) in if decide (v < 128) then v else v - 256.
Definition char_at (s : list ascii) (i : nat) : option Z :=
  match s !! i with
  | Some c => Some (char_value c)
  | None => if decide (i = List.length s) then Some 0 else None
  end.

(** The loop of [toInt], [count] rounds from index [i]; a shift by 32 bits
    or more is undefined ([None]), products are taken in [int]. *)
Fixpoint toInt_loop (bitString : list ascii) (sLength : Z) (count : nat) (i num : Z)
  : option Z :=
  match count with
  | O => Some num
  | S count' =>
      c ← char_at bitString (Z.to_nat i);
      let tempInt := c - 48 in
      if decide (32 ≤ sLength - 1 - i) then None
      else toInt_loop bitString sLength count' (i + 1)
             (Z.lor num (to_int32 (to_int32 (Z.shiftl 1 (sLength - 1 - i)) * tempInt)))
  end.

(** [toInt]. *)
Definition toInt (bitString : list ascii) (sLength : Z) : option Z :=
  toInt_loop bitString sLength (Z.to_nat sLength) 0 0.

(** The number a string of binary digits denotes, most significant digit
    first. *)
Definition bits_value (l : list ascii) : Z :=
  foldl (λ a c, 2 * a + (if decide (c = "1"%char) then 1 else 0)) 0 l.

End RinexPrinter.

(* ===================================================================== *)
(** ** Machine-integer facts *)
(* ===================================================================== *)

Lemma wrap32_small z : 0 ≤ z < 2 ^ 32 → wrap32 z = z.
Proof. intros Hz. unfold wrap32. apply Z.mod_small. exact Hz. Qed.

Lemma wrap32_range z : 0 ≤ wrap32 z < 2 ^ 32.
Proof. unfold wrap32. apply Z.mod_pos_bound. lia. Qed.

Lemma to_int32_wrap32 z : - 2 ^ 31 ≤ z < 2 ^ 31 → to_int32 (wrap32 z) = z.
Proof.
  intros Hz. unfold to_int32, wrap32.
  rewrite Zplus_mod_idemp_l. rewrite Z.mod_small; lia.
Qed.

Lemma to_int32_small z : 0 ≤ z < 2 ^ 31 → to_int32 z = z.
Proof. intros Hz. unfold to_int32. rewrite Z.mod_small; lia. Qed.

Lemma wrap32_to_int32 z : 0 ≤ z < 2 ^ 32 → wrap32 (to_int32 z) = z.
Proof.
  intros Hz. unfold to_int32, wrap32.
  destruct (decide (z < 2 ^ 31)) as [Hlt|Hge].
  - rewrite (Z.mod_small (z + 2 ^ 31)) by lia.
    replace (z + 2 ^ 31 - 2 ^ 31) with z by lia. apply Z.mod_small; lia.
  - replace (z + 2 ^ 31) with (z - 2 ^ 31 + 1 * 2 ^ 32) by lia.
    rewrite Z_mod_plus_full. rewrite (Z.mod_small (z - 2 ^ 31)) by lia.
    replace (z - 2 ^ 31 - 2 ^ 31) with (z + (-1) * 2 ^ 32) by lia.
    rewrite Z_mod_plus_full. apply Z.mod_small; lia.
Qed.

Lemma umod_nonzero a b : b ≠ 0 → umod a b = Done (a mod b).
Proof. intros Hb. unfold umod. rewrite decide_False by exact Hb. reflexivity. Qed.

Lemma udiv_nonzero a b : b ≠ 0 → udiv a b = Done (a / b).
Proof. intros Hb. unfold udiv. rewrite decide_False by exact Hb. reflexivity. Qed.

(* ===================================================================== *)
(** ** The Doppler-bin loop *)
(* ===================================================================== *)

Section DopplerLoop.

Variables doppler_max doppler_step : Z.
Hypothesis max_nonneg : 0 ≤ doppler_max.
Hypothesis step_pos : 0 < doppler_step.
Hypothesis no_overflow : doppler_max + doppler_step < 2 ^ 31.

Local Abbreviation remaining := (remaining doppler_max doppler_step).

Lemma remaining_nonneg d : 0 ≤ remaining d.
Proof.
  unfold remaining. case_decide; [|lia].
  assert (0 ≤ (doppler_max - d) / doppler_step) by (apply Z.div_pos; lia). lia.
Qed.

Lemma remaining_step d :
  d ≤ doppler_max → remaining d = 1 + remaining (d + doppler_step).
Proof.
  intros Hd. unfold remaining. rewrite decide_True by exact Hd.
  case_decide as Hnext.
  - replace (doppler_max - d) with (doppler_max - (d + doppler_step) + 1 * doppler_step)
      by lia.
    rewrite Z.div_add by lia. lia.
  - rewrite Z.div_small by lia. lia.
Qed.

Lemma frequency_bins_loop_counts fuel : ∀ d bins,
  - 2 ^ 31 ≤ d → d ≤ doppler_max + doppler_step → 0 ≤ bins →
  bins + remaining d < 2 ^ 32 →
  remaining d < Z.of_nat fuel →
  frequency_bins_loop fuel doppler_max doppler_step d bins = Some (bins + remaining d).
Proof using max_nonneg step_pos no_overflow.
  induction fuel as [|fuel IH]; intros d bins Hlo Hhi Hbins Hfit Hfuel.
  - pose proof (remaining_nonneg d). lia.
  - cbn [frequency_bins_loop]. rewrite to_int32_small by lia.
    destruct (decide (d ≤ doppler_max)) as [Hd|Hd].
    + pose proof (remaining_step d Hd) as Hrem.
      pose proof (remaining_nonneg (d + doppler_step)).
      rewrite to_int32_wrap32 by lia. rewrite wrap32_small by lia.
      rewrite IH by lia. f_equal. lia.
    + unfold remaining. rewrite decide_False by exact Hd. f_equal. lia.
Qed.

Lemma remaining_start : remaining (- doppler_max) = doppler_bins doppler_max doppler_step.
Proof using max_nonneg.
  unfold remaining, doppler_bins. rewrite decide_True by lia. do 2 f_equal. lia.
Qed.

Lemma doppler_bins_bound : 1 ≤ doppler_bins doppler_max doppler_step < 2 ^ 32.
Proof using max_nonneg step_pos no_overflow.
  unfold doppler_bins.
  assert (0 ≤ 2 * doppler_max / doppler_step) by (apply Z.div_pos; lia).
  assert (2 * doppler_max / doppler_step ≤ 2 * doppler_max)
    by (apply Z.div_le_upper_bound; nia).
  lia.
Qed.

Lemma frequency_bins_closed_form fuel :
  doppler_bins doppler_max doppler_step < Z.of_nat fuel →
  frequency_bins fuel doppler_max doppler_step
  = Some (doppler_bins doppler_max doppler_step).
Proof using max_nonneg step_pos no_overflow.
  intros Hfuel. unfold frequency_bins.
  rewrite to_int32_wrap32 by lia.
  pose proof doppler_bins_bound as Hb. pose proof remaining_start as Hs.
  rewrite frequency_bins_loop_counts; rewrite ?Hs; try lia.
  f_equal.
Qed.

(** [doppler_bins] counts the grid: the [k]-th Doppler value is inside the
    search range exactly for [k] below it. *)
Lemma doppler_bins_counts k :
  0 ≤ k →
  (- doppler_max + k * doppler_step ≤ doppler_max
   ↔ k < doppler_bins doppler_max doppler_step).
Proof using step_pos.
  intros Hk. unfold doppler_bins. split; intros Hle.
  - assert (k ≤ 2 * doppler_max / doppler_step)
      by (apply Z.div_le_lower_bound; lia).
    lia.
  - assert (k ≤ 2 * doppler_max / doppler_step) as Hq by lia.
    pose proof (Z.mul_div_le (2 * doppler_max) doppler_step step_pos). nia.
Qed.

End DopplerLoop.

(* ===================================================================== *)
(** ** The QuickSync adapter: construction *)
(* ===================================================================== *)

Module QuickSyncFacts.
Import QuickSync Fixtures.

Lemma adjust_sampled_ms_multiple c p :
  0 ≤ c < 2 ^ 32 → 1 ≤ p → 4 * p < 2 ^ 32 → c mod (4 * p) = 0 →
  adjust_sampled_ms c p = Done (c, []).
Proof.
  intros Hc Hp Hm Hr. unfold adjust_sampled_ms.
  rewrite (wrap32_small (p * 4)) by lia. rewrite umod_nonzero by lia. cbn.
  replace (p * 4) with (4 * p) by lia. rewrite Hr. reflexivity.
Qed.

Lemma adjust_sampled_ms_other c p :
  0 ≤ c < 2 ^ 32 → 1 ≤ p → 4 * p < 2 ^ 32 → c mod (4 * p) ≠ 0 →
  ∃ log,
    adjust_sampled_ms c p
    = Done (if decide (c < 4 * p) then 4 * p else c / (4 * p) * (4 * p), log)
    ∧ ∃ text values, LOG WARNING text values ∈ log.
Proof.
  intros Hc Hp Hm Hr. unfold adjust_sampled_ms.
  rewrite (wrap32_small (p * 4)) by lia. rewrite umod_nonzero by lia. cbn.
  replace (p * 4) with (4 * p) by lia.
  rewrite decide_True by exact Hr. cbn.
  eexists. split.
  - do 2 f_equal. destruct (decide (c < 4 * p)) as [Hlt|Hge].
    + apply wrap32_to_int32. lia.
    + assert (0 ≤ c / (4 * p)) by (apply Z.div_pos; lia).
      assert (c / (4 * p) * (4 * p) ≤ c) by (rewrite Z.mul_comm; apply Z.mul_div_le; lia).
      assert (c / (4 * p) ≤ c) by nia.
      rewrite wrap32_to_int32 by lia. apply wrap32_small. lia.
  - do 2 eexists. apply list_elem_of_here.
Qed.

Lemma constructor_sampled_ms cfg role ms log :
  adjust_sampled_ms (configured_ms cfg role) (configured_folding cfg role) = Done (ms, log) →
  ∃ a log', GalileoE1PcpsQuickSyncAmbiguousAcquisition cfg role = Done (a, log ++ log')
            ∧ sampled_ms_ a = ms
            ∧ folding_factor_ a = configured_folding cfg role.
Proof.
  intros Hadj. unfold GalileoE1PcpsQuickSyncAmbiguousAcquisition.
  fold (configured_ms cfg role). fold (configured_folding cfg role).
  rewrite Hadj. cbn. do 2 eexists. split; [reflexivity|]. split; reflexivity.
Qed.

(** C3 (as the code has it).  When the configured
    coherent_integration_time_ms is not a multiple of 4 * folding_factor
    (folding_factor at least 1 and 4 * folding_factor below 2^32, so that
    the unsigned product does not wrap), the constructor completes, logs a
    WARNING, and sets sampled_ms_ to 4 * folding_factor when the configured
    value is below it and to the configured value rounded downward to a
    multiple of 4 * folding_factor otherwise; sampled_ms_ is then a multiple
    of 4 * folding_factor. *)
Theorem sampled_ms_forced_to_multiple cfg role :
  let c := configured_ms cfg role in
  let p := configured_folding cfg role in
  1 ≤ p → 4 * p < 2 ^ 32 → c mod (4 * p) ≠ 0 →
  ∃ a log,
    GalileoE1PcpsQuickSyncAmbiguousAcquisition cfg role = Done (a, log)
    ∧ sampled_ms_ a = (if decide (c < 4 * p) then 4 * p else c / (4 * p) * (4 * p))
    ∧ sampled_ms_ a mod (4 * folding_factor_ a) = 0
    ∧ ∃ text values, LOG WARNING text values ∈ log.
Proof.
  intros c p Hp Hm Hr.
  destruct (adjust_sampled_ms_other c p (wrap32_range _) Hp Hm Hr)
    as (log & Hadj & text & values & Hin).
  destruct (constructor_sampled_ms cfg role _ _ Hadj) as (a & log' & Hctor & Hms & Hff).
  exists a, (log ++ log'). split; [exact Hctor|]. split; [exact Hms|]. split.
  - rewrite Hms, Hff. fold p. case_decide.
    + apply Z_mod_same_full.
    + apply Z_mod_mult.
  - exists text, values. apply elem_of_app. left. exact Hin.
Qed.

Lemma sampled_ms_forced_to_multiple_witness :
  ∃ a log,
    GalileoE1PcpsQuickSyncAmbiguousAcquisition (cfg_ms 12) "Acquisition" = Done (a, log)
    ∧ sampled_ms_ a = 8.
Proof.
  destruct (sampled_ms_forced_to_multiple (cfg_ms 12) "Acquisition")
    as (a & log & Hctor & Hms & _); [vm_compute; congruence ..|].
  exists a, log. split; [exact Hctor|]. rewrite Hms. reflexivity.
Defined.

(** C3 fails as stated: configured with 12 ms and folding factor 2, the
    constructor keeps 8 ms, whereas 12 rounded upward to a multiple of 8
    is 16. *)
Lemma sampled_ms_not_rounded_upward :
  (r ← GalileoE1PcpsQuickSyncAmbiguousAcquisition (cfg_ms 12) "Acquisition";
   mret (sampled_ms_ r.1)) = Done 8
  ∧ rounded_upward 12 (4 * 2) = 16.
Proof. split; vm_compute; reflexivity. Qed.

Lemma adjust_sampled_ms_zero_divisor c p :
  wrap32 (p * 4) = 0 → adjust_sampled_ms c p = Fault DivisionByZero.
Proof. intros Hm. unfold adjust_sampled_ms. by rewrite Hm. Qed.

Lemma adjust_sampled_ms_result c p :
  0 ≤ c < 2 ^ 32 → wrap32 (p * 4) ≠ 0 →
  ∃ ms log,
    adjust_sampled_ms c p = Done (ms, log)
    ∧ ms `mod` wrap32 (p * 4) = 0
    ∧ 0 ≤ ms < 2 ^ 32
    ∧ (ms = 0 ↔ c = 0).
Proof.
  intros Hc Hm. pose proof (wrap32_range (p * 4)) as Hrange.
  unfold adjust_sampled_ms. rewrite umod_nonzero by exact Hm. cbn.
  destruct (decide (c `mod` wrap32 (p * 4) ≠ 0)) as [Hr|Hr].
  - destruct (decide (c < wrap32 (p * 4))) as [Hlt|Hge].
    + do 2 eexists. split; [reflexivity|]. rewrite wrap32_to_int32 by exact Hrange.
      split; [apply Z_mod_same_full|]. split; [lia|]. split; [lia|].
      intros ->. by rewrite Z.mod_0_l in Hr.
    + assert (1 ≤ c / wrap32 (p * 4)) by (apply Z.div_le_lower_bound; lia).
      assert (c / wrap32 (p * 4) * wrap32 (p * 4) ≤ c)
        by (rewrite Z.mul_comm; apply Z.mul_div_le; lia).
      assert (c / wrap32 (p * 4) ≤ c) by nia.
      do 2 eexists. split; [reflexivity|].
      rewrite wrap32_to_int32 by lia. rewrite wrap32_small by nia.
      split; [apply Z_mod_mult|]. split; [nia|]. split; [nia|].
      intros ->. by rewrite Z.mod_0_l in Hr.
  - do 2 eexists. split; [reflexivity|]. split; [|done].
    destruct (decide (c `mod` wrap32 (p * 4) = 0)); tauto.
Qed.

(** C7.  The QuickSync constructor returns an adapter whenever
    folding_factor * 4 is not 0 as unsigned int (it divides by that product),
    and every adapter it returns has max_dwells_ = 2 when
    bit_transition_flag is set, whatever <Role>.max_dwells says; otherwise
    max_dwells_ is the configured <Role>.max_dwells (1 when the key is
    absent), converted to unsigned int.  The block behind the adapter is
    made with the same value. *)
Theorem max_dwells_from_configuration cfg role :
  (wrap32 (configured_folding cfg role * 4) ≠ 0 →
   ∃ a log, GalileoE1PcpsQuickSyncAmbiguousAcquisition cfg role = Done (a, log))
  ∧ (∀ a log,
       GalileoE1PcpsQuickSyncAmbiguousAcquisition cfg role = Done (a, log) →
       bit_transition_flag_ a = property_bool cfg (role +:+ ".bit_transition_flag") false
       ∧ (bit_transition_flag_ a = true → max_dwells_ a = 2)
       ∧ (bit_transition_flag_ a = false →
          max_dwells_ a = wrap32 (property_int cfg (role +:+ ".max_dwells") 1)
          ∧ (∀ v, int_properties cfg !! (role +:+ ".max_dwells") = Some v →
                  0 ≤ v < 2 ^ 32 → max_dwells_ a = v)
          ∧ (int_properties cfg !! (role +:+ ".max_dwells") = None → max_dwells_ a = 1))
       ∧ (d_max_dwells <$> acquisition_cc_ a) = (λ _, max_dwells_ a) <$> acquisition_cc_ a).
Proof.
  split.
  - intros Hm.
    destruct (adjust_sampled_ms_result (configured_ms cfg role)
                (configured_folding cfg role) (wrap32_range _) Hm)
      as (ms & log1 & Hadj & _).
    destruct (constructor_sampled_ms cfg role ms log1 Hadj) as (a & log' & Hctor & _).
    by exists a, (log1 ++ log').
  - intros a log. unfold GalileoE1PcpsQuickSyncAmbiguousAcquisition.
    destruct (adjust_sampled_ms _ _) as [[ms log1]|f]; cbn; [|discriminate].
    intros [= <- _]. cbn. split; [reflexivity|]. split; [|split].
    + intros ->. reflexivity.
    + intros ->. cbn. split; [reflexivity|]. unfold property_int. split.
      * intros v -> Hv. cbn. apply wrap32_small. exact Hv.
      * intros ->. reflexivity.
    + case_bool_decide; reflexivity.
Qed.

Lemma max_dwells_from_configuration_witness :
  (∃ a log, GalileoE1PcpsQuickSyncAmbiguousAcquisition (cfg_dwells true 5) "Acquisition"
            = Done (a, log)
            ∧ max_dwells_ a = 2)
  ∧ (∃ a log, GalileoE1PcpsQuickSyncAmbiguousAcquisition (cfg_dwells false 5) "Acquisition"
              = Done (a, log)
              ∧ max_dwells_ a = 5)
  ∧ (∃ a log, GalileoE1PcpsQuickSyncAmbiguousAcquisition empty_configuration "Acquisition"
              = Done (a, log)
              ∧ max_dwells_ a = 1).
Proof.
  split; [|split].
  - destruct (max_dwells_from_configuration (cfg_dwells true 5) "Acquisition")
      as [Hreturns Hdwells].
    destruct Hreturns as (a & log & Hctor); [vm_compute; discriminate|].
    destruct (Hdwells a log Hctor) as (Hflag & Hset & _).
    exists a, log. split; [exact Hctor|]. apply Hset. rewrite Hflag. reflexivity.
  - destruct (max_dwells_from_configuration (cfg_dwells false 5) "Acquisition")
      as [Hreturns Hdwells].
    destruct Hreturns as (a & log & Hctor); [vm_compute; discriminate|].
    destruct (Hdwells a log Hctor) as (Hflag & _ & Hclear & _).
    exists a, log. split; [exact Hctor|].
    destruct Hclear as (_ & Hvalue & _); [rewrite Hflag; reflexivity|].
    apply Hvalue; [reflexivity|lia].
  - destruct (max_dwells_from_configuration empty_configuration "Acquisition")
      as [Hreturns Hdwells].
    destruct Hreturns as (a & log & Hctor); [vm_compute; discriminate|].
    destruct (Hdwells a log Hctor) as (Hflag & _ & Hclear & _).
    exists a, log. split; [exact Hctor|].
    destruct Hclear as (_ & _ & Habsent); [rewrite Hflag; reflexivity|].
    apply Habsent. reflexivity.
Defined.

(** C10 at its failing input.  Configured with 16 ms and folding factor 2
    (a multiple of 8, kept as it is), set_local_code copies
    16 / 8 = 2 blocks of code_length_ = 16000 samples into the array of
    16000 samples: the second copy starts at its end. *)
Theorem set_local_code_overruns_code :
  (r ← GalileoE1PcpsQuickSyncAmbiguousAcquisition (cfg_ms 16) "Acquisition";
   n ← udiv (sampled_ms_ r.1) (4 * folding_factor_ r.1);
   mret (n, Z.of_nat (length (code_ r.1)))) = Done (2, 16000)
  ∧ (r ← GalileoE1PcpsQuickSyncAmbiguousAcquisition (cfg_ms 16) "Acquisition";
     set_local_code r.1 (replicate (Z.to_nat 16000) (1%float, 0%float)))
    = Fault (OutOfBoundsWrite 16000 16000 16000).
Proof. split; vm_compute; reflexivity. Qed.

End QuickSyncFacts.

(* ===================================================================== *)
(** ** The local code replica *)
(* ===================================================================== *)

Module LocalCodeFacts.

Lemma replicate_code_step code_ n code_length code :
  0 ≤ n →
  replicate_code code_ (n + 1) code_length code
  = (b ← replicate_code code_ n code_length code;
     checked_memcpy b (wrap32 (n * code_length)) code code_length).
Proof.
  intros Hn. unfold replicate_code.
  rewrite seqZ_app by lia. rewrite foldl_app. cbn. rewrite Z.add_0_l. reflexivity.
Qed.

Lemma memcpy_length dst off src b :
  memcpy dst off src = Some b → length b = length dst.
Proof.
  unfold memcpy. case_decide as Hfit; [|discriminate]. intros [= <-].
  rewrite !length_app, length_take, length_fmap, length_drop. lia.
Qed.

Lemma checked_memcpy_length dst off src count b :
  checked_memcpy dst off src count = Done b → length b = length dst.
Proof.
  unfold checked_memcpy. case_decide; [discriminate|].
  destruct (memcpy _ _ _) as [b'|] eqn:Hcopy; [|discriminate].
  intros [= <-]. by apply memcpy_length in Hcopy.
Qed.

(** A first block fits an array of [code_length] samples; every further
    block starts at or beyond its end. *)
Lemma replicate_code_one code_ code_length code :
  Z.of_nat (length code_) = code_length → Z.of_nat (length code) = code_length →
  ∃ b, replicate_code code_ 1 code_length code = Done b ∧ length b = length code_.
Proof.
  intros Hbuf Hcode. change 1 with (0 + 1). rewrite replicate_code_step by lia.
  change (replicate_code code_ 0 code_length code) with (Done code_). cbn.
  rewrite Z.mul_0_l. unfold checked_memcpy. rewrite decide_False by lia.
  destruct (memcpy code_ (wrap32 0) (take (Z.to_nat code_length) code)) as [b|] eqn:Hcopy.
  - exists b. split; [reflexivity|]. by apply memcpy_length in Hcopy.
  - unfold memcpy in Hcopy. rewrite decide_True in Hcopy; [discriminate|].
    rewrite length_take. unfold wrap32. rewrite Z.mod_0_l by lia. lia.
Qed.

Lemma replicate_code_overrun code_ code_length code n :
  Z.of_nat (length code_) = code_length → Z.of_nat (length code) = code_length →
  0 < code_length < 2 ^ 32 → 2 ≤ n →
  replicate_code code_ n code_length code
  = Fault (OutOfBoundsWrite code_length code_length code_length).
Proof.
  intros Hbuf Hcode Hlen Hn.
  assert (Htwo : replicate_code code_ 2 code_length code
                 = Fault (OutOfBoundsWrite code_length code_length code_length)).
  { change 2 with (1 + 1). rewrite replicate_code_step by lia.
    destruct (replicate_code_one code_ code_length code Hbuf Hcode) as (b & -> & Hb).
    cbn. unfold checked_memcpy. rewrite decide_False by lia.
    rewrite Z.mul_1_l, wrap32_small by lia.
    unfold memcpy. rewrite decide_False.
    - do 2 f_equal. lia.
    - rewrite length_take. lia. }
  replace n with (2 + Z.of_nat (Z.to_nat (n - 2))) by lia.
  induction (Z.to_nat (n - 2)) as [|k IH]; [exact Htwo|].
  replace (2 + Z.of_nat (S k)) with (2 + Z.of_nat k + 1) by lia.
  rewrite replicate_code_step by lia. rewrite IH. reflexivity.
Qed.

Import QuickSync Fixtures.

Lemma constructed_code_array cfg role a log :
  GalileoE1PcpsQuickSyncAmbiguousAcquisition cfg role = Done (a, log) →
  Z.of_nat (length (code_ a)) = code_length_ a ∧ code_length_ a < 2 ^ 32.
Proof.
  unfold GalileoE1PcpsQuickSyncAmbiguousAcquisition.
  destruct (adjust_sampled_ms _ _) as [[ms log1]|f]; cbn; [|discriminate].
  intros [= <- _]. cbn. unfold new_buffer. rewrite length_replicate.
  pose proof (wrap32_range (round_div (property_int cfg "GNSS-SDR.internal_fs_hz" 4000000)
                              (Galileo_E1_CODE_CHIP_RATE_HZ
                               / Galileo_E1_B_CODE_LENGTH_CHIPS))).
  lia.
Qed.

(** Whatever the configuration, a constructed adapter whose integration time
    spans two or more groups of [4 * folding_factor_] ms overruns [code_] with
    its second copy. *)
Lemma set_local_code_overruns cfg role a log code :
  GalileoE1PcpsQuickSyncAmbiguousAcquisition cfg role = Done (a, log) →
  is_gr_complex a = true →
  0 < code_length_ a → Z.of_nat (length code) = code_length_ a →
  wrap32 (folding_factor_ a * 4) ≠ 0 →
  2 ≤ sampled_ms_ a / wrap32 (folding_factor_ a * 4) →
  set_local_code a code
  = Fault (OutOfBoundsWrite (code_length_ a) (code_length_ a) (code_length_ a)).
Proof.
  intros Hctor Hitem Hpos Hcode Hm Hn.
  destruct (constructed_code_array _ _ _ _ Hctor) as [Hbuf Hlt].
  unfold set_local_code. rewrite Hitem, udiv_nonzero by exact Hm. cbn.
  rewrite replicate_code_overrun by (assumption || lia). reflexivity.
Qed.

(** The default 8 ms with folding factor 2 ask for one copy, which fits. *)
Lemma set_local_code_default_fits :
  (r ← GalileoE1PcpsQuickSyncAmbiguousAcquisition empty_configuration "Acquisition";
   a ← set_local_code r.1 (replicate (Z.to_nat 16000) (1%float, 0%float));
   mret (Z.of_nat (length (code_ a)))) = Done 16000.
Proof. vm_compute. reflexivity. Qed.

(** The GPS Tong adapter runs the same loop over an array of
    [vector_length_] samples: 3 ms at 2.048 MHz are three copies that fit. *)
Lemma tong_set_local_code_fits :
  (a ← Tong.set_local_code
         (Tong.GpsL1CaPcpsTongAcquisition (cfg_ms 3) "Acquisition").1
         (replicate (Z.to_nat 2048) (1%float, 0%float));
   mret (Z.of_nat (length (Tong.code_ a)))) = Done 6144.
Proof. vm_compute. reflexivity. Qed.

End LocalCodeFacts.

(* ===================================================================== *)
(** ** Thresholds of both adapters *)
(* ===================================================================== *)

Module ThresholdFacts.
Import Fixtures MoreFixtures.

Lemma tong_threshold_cells fuel (a : Tong.t) :
  0 ≤ Tong.doppler_max_ a → 0 < Tong.doppler_step_ a →
  Tong.doppler_max_ a + Tong.doppler_step_ a < 2 ^ 31 →
  doppler_bins (Tong.doppler_max_ a) (Tong.doppler_step_ a) < Z.of_nat fuel →
  Tong.threshold_cells fuel a
  = Done (doppler_bins (Tong.doppler_max_ a) (Tong.doppler_step_ a),
          wrap32 (Tong.vector_length_ a
                  * doppler_bins (Tong.doppler_max_ a) (Tong.doppler_step_ a)),
          Tong.vector_length_ a).
Proof.
  intros Hmax Hstep Hov Hfuel. unfold Tong.threshold_cells.
  rewrite frequency_bins_closed_form by assumption. reflexivity.
Qed.

Lemma quicksync_threshold_cells fuel (a : QuickSync.t) :
  0 ≤ QuickSync.doppler_max_ a → 0 < QuickSync.doppler_step_ a →
  QuickSync.doppler_max_ a + QuickSync.doppler_step_ a < 2 ^ 31 →
  doppler_bins (QuickSync.doppler_max_ a) (QuickSync.doppler_step_ a) < Z.of_nat fuel →
  QuickSync.folding_factor_ a ≠ 0 →
  QuickSync.threshold_cells fuel a
  = Done (doppler_bins (QuickSync.doppler_max_ a) (QuickSync.doppler_step_ a),
          wrap32 (QuickSync.code_length_ a / QuickSync.folding_factor_ a
                  * doppler_bins (QuickSync.doppler_max_ a) (QuickSync.doppler_step_ a)),
          QuickSync.code_length_ a / QuickSync.folding_factor_ a).
Proof.
  intros Hmax Hstep Hov Hfuel Hff. unfold QuickSync.threshold_cells.
  rewrite frequency_bins_closed_form by assumption. cbn.
  rewrite udiv_nonzero by exact Hff. reflexivity.
Qed.

Lemma quantile_of_cells `{M : MathLib} (lambda ncells : Z) (pfa : float) :
  threshold_outcome lambda ncells pfa
    (mydist ← exponential_distribution (double_of_uint lambda);
     threshold ← quantile mydist (pow (1 - pfa)%float (1 / double_of_uint ncells)%float);
     mret (to_single threshold)).
Proof.
  unfold threshold_outcome, positive_rate, below_one, in_unit_interval,
    quantile_probability, pfa_threshold, exponential_distribution, quantile.
  cbv zeta. set (p := pow (1 - pfa)%float (1 / double_of_uint ncells)%float).
  split; [|split; [|split]].
  - intros Hrate Hp.
    apply andb_true_iff in Hrate as [Hpos Hfin]. apply negb_true_iff in Hpos.
    apply andb_true_iff in Hp as [Hunit Hone]. apply negb_true_iff in Hone.
    apply andb_true_iff in Hunit as [Hunit Hpfin].
    apply andb_true_iff in Hunit as [Hlow Hhigh].
    apply negb_true_iff in Hlow, Hhigh.
    rewrite Hpos, Hfin. cbn. rewrite Hlow, Hhigh, Hpfin, Hone. reflexivity.
  - intros ->. reflexivity.
  - intros Hrate Hp.
    apply andb_true_iff in Hrate as [Hpos Hfin]. apply negb_true_iff in Hpos.
    rewrite Hpos, Hfin. cbn.
    destruct (p <? 0)%float, (1 <? p)%float, (is_finite p); cbn in *;
      first [reflexivity | discriminate Hp].
  - intros Hrate Hp.
    apply andb_true_iff in Hrate as [Hpos Hfin]. apply negb_true_iff in Hpos.
    rewrite Hpos, Hfin. cbn. rewrite Hp. reflexivity.
Qed.

(** C1 (as the code has it).  With a Doppler grid that fits an int
    (0 <= doppler_max, 0 < doppler_step, doppler_max + doppler_step < 2^31),
    a positive rate lambda and a probability (1 - pfa)^(1/N_cells) that pow
    returns inside [0, 1), calculate_threshold(pfa) returns
    quantile(Exponential(lambda), (1 - pfa)^(1/N_cells)) narrowed to float,
    where frequency_bins = 2 * doppler_max / doppler_step + 1 is the number of
    Doppler values -doppler_max + k * doppler_step inside the range; for the
    GPS Tong adapter lambda is the input vector length vector_length_ and
    N_cells = vector_length_ * frequency_bins; for the Galileo QuickSync
    adapter lambda is the integer quotient code_length_ / folding_factor_ of
    the samples of one 4 ms code, and N_cells is that quotient times
    frequency_bins (both products modulo 2^32).  Where the quantile does not
    exist the call throws: std::domain_error for the rate 0 and for a
    probability outside [0, 1], std::overflow_error for the probability 1,
    to which pow rounds for a very small pfa. *)
Theorem calculate_threshold_arguments `{M : MathLib} (fuel : nat) (pfa : float) :
  (∀ a : Tong.t,
     let bins := doppler_bins (Tong.doppler_max_ a) (Tong.doppler_step_ a) in
     0 ≤ Tong.doppler_max_ a → 0 < Tong.doppler_step_ a →
     Tong.doppler_max_ a + Tong.doppler_step_ a < 2 ^ 31 →
     bins < Z.of_nat fuel →
     threshold_outcome (Tong.vector_length_ a) (wrap32 (Tong.vector_length_ a * bins)) pfa
       (Tong.calculate_threshold fuel a pfa))
  ∧ (∀ a : QuickSync.t,
     let bins := doppler_bins (QuickSync.doppler_max_ a) (QuickSync.doppler_step_ a) in
     let folded := QuickSync.code_length_ a / QuickSync.folding_factor_ a in
     0 ≤ QuickSync.doppler_max_ a → 0 < QuickSync.doppler_step_ a →
     QuickSync.doppler_max_ a + QuickSync.doppler_step_ a < 2 ^ 31 →
     bins < Z.of_nat fuel →
     QuickSync.folding_factor_ a ≠ 0 →
     threshold_outcome folded (wrap32 (folded * bins)) pfa
       (QuickSync.calculate_threshold fuel a pfa))
  ∧ (∀ doppler_max doppler_step k, 0 < doppler_step → 0 ≤ k →
     (- doppler_max + k * doppler_step ≤ doppler_max
      ↔ k < doppler_bins doppler_max doppler_step)).
Proof.
  split; [|split].
  - intros a bins Hmax Hstep Hov Hfuel. unfold Tong.calculate_threshold.
    rewrite tong_threshold_cells by assumption. apply quantile_of_cells.
  - intros a bins folded Hmax Hstep Hov Hfuel Hff. unfold QuickSync.calculate_threshold.
    rewrite quicksync_threshold_cells by assumption. apply quantile_of_cells.
  - intros doppler_max doppler_step k Hstep Hk. apply doppler_bins_counts; assumption.
Qed.

Lemma default_quicksync_eq : default_quicksync = Done default_quicksync_value.
Proof. vm_compute. reflexivity. Qed.

Lemma calculate_threshold_arguments_witness :
  Tong.calculate_threshold (M := rate_probe) 100 default_tong 0.5%float
  = Done 2048%float
  ∧ QuickSync.calculate_threshold (M := rate_probe) 100 default_quicksync_value 0.5%float
    = Done 8000%float
  ∧ (a ← overfolded_quicksync;
     QuickSync.calculate_threshold (M := rate_probe) 100 a 0.5%float)
    = Fault DomainError
  ∧ (- 10000 + 80 * 250 ≤ 10000 ↔ 80 < doppler_bins 10000 250).
Proof.
  destruct (calculate_threshold_arguments (M := rate_probe) 100 0.5%float)
    as (Htong & Hquick & Hbins).
  split; [|split; [|split]].
  - destruct (Htong default_tong) as (Hdone & _); [vm_compute; congruence ..|].
    rewrite Hdone; [reflexivity | vm_compute; reflexivity ..].
  - destruct (Hquick default_quicksync_value) as (Hdone & _); [vm_compute; congruence ..|].
    rewrite Hdone; [reflexivity | vm_compute; reflexivity ..].
  - eassert (Hadapter : overfolded_quicksync = Done _) by (vm_compute; reflexivity).
    rewrite Hadapter. cbn [mbind result_bind].
    match type of Hadapter with
    | _ = Done ?a => destruct (Hquick a) as (_ & Hzero & _); [vm_compute; congruence ..|]
    end.
    apply Hzero. vm_compute. reflexivity.
  - apply (Hbins 10000 250 80); lia.
Defined.

(** C1 fails as stated for the QuickSync adapter.  With the default
    configuration (4 MHz, 8 ms, folding factor 2) and a Doppler grid of
    +-10000 Hz in steps of 250 Hz, the input vector has L = 32000 samples,
    so L / p = 16000 and (L / p) * frequency_bins = 1296000; the adapter
    hands 8000 and 648000 to the distribution, and at pfa = 0.5 the two
    thresholds do not agree for every choice of the library functions. *)
Lemma quicksync_rate_is_not_vector_length_over_folding :
  default_quicksync = Done default_quicksync_value
  ∧ QuickSync.threshold_cells 100 default_quicksync_value = Done (81, 648000, 8000)
  ∧ QuickSync.vector_length_ default_quicksync_value
    / QuickSync.folding_factor_ default_quicksync_value = 16000
  ∧ ¬ (∀ M : MathLib,
         QuickSync.calculate_threshold 100 default_quicksync_value 0.5%float
         = Done (pfa_threshold 16000 (16000 * 81) 0.5%float)).
Proof.
  split; [exact default_quicksync_eq|]. split; [vm_compute; reflexivity|].
  split; [vm_compute; reflexivity|].
  intros Hall. specialize (Hall rate_probe).
  pose proof (f_equal (λ r, match r with
                            | Done x => (x =? 8000)%float
                            | Fault _ => false
                            end) Hall) as Hrate.
  vm_compute in Hrate. discriminate Hrate.
Qed.

End ThresholdFacts.

Module SetThresholdFacts.
Import Fixtures.





End SetThresholdFacts.

(* ===================================================================== *)
(** ** The hybrid PVT block *)
(* ===================================================================== *)

Module HybridPvtFacts.
Import HybridPvt.

Section WithNavData.
Context `{N : NavData}.

Lemma map_begin_None {V} (m : gmap Z V) : map_begin m = None ↔ m = ∅.
Proof.
  unfold map_begin. rewrite <- (map_to_list_empty_iff m).
  destruct (map_to_list m) as [|kv l]; [done|].
  cbn. split; [|done]. destruct (foldr _ _ l); [case_decide|]; done.
Qed.

Lemma map_begin_Some {V} (m : gmap Z V) : m ≠ ∅ → is_Some (snd <$> map_begin m).
Proof.
  intros Hm. destruct (map_begin m) as [kv|] eqn:Hb; [by eexists|].
  apply map_begin_None in Hb. done.
Qed.

Lemma map_insert_nonempty {V} k (v : V) m : map_insert k v m ≠ ∅.
Proof.
  unfold map_insert. destruct (m !! k) eqn:Hk.
  - intros ->. by rewrite lookup_empty in Hk.
  - apply insert_non_empty.
Qed.

Lemma size_pos_nonempty {V} (m : gmap Z V) : (0 < size m)%nat ↔ m ≠ ∅.
Proof. rewrite <- map_size_non_empty_iff. lia. Qed.

(** Reading the repository never empties an ephemeris map of the solver,
    and the almanac flag says that key 0 is there. *)
Lemma read_global_maps_gps ls env :
  gps_ephemeris_map (read_global_maps ls env).1 ≠ ∅
  ↔ global_gps_ephemeris_map env ≠ ∅ ∨ gps_ephemeris_map ls ≠ ∅.
Proof.
  unfold read_global_maps.
  destruct (if decide (0 < size (global_galileo_almanac_map env))%nat then _ else _).
  cbn. case_decide as Hs; rewrite size_pos_nonempty in Hs; [tauto|].
  split; [tauto|]. intros [|]; done.
Qed.

Lemma read_global_maps_galileo ls env :
  galileo_ephemeris_map (read_global_maps ls env).1 ≠ ∅
  ↔ global_galileo_ephemeris_map env ≠ ∅ ∨ galileo_ephemeris_map ls ≠ ∅.
Proof.
  unfold read_global_maps.
  destruct (if decide (0 < size (global_galileo_almanac_map env))%nat then _ else _).
  cbn. case_decide as Hs; rewrite size_pos_nonempty in Hs; [tauto|].
  split; [tauto|]. intros [|]; done.
Qed.

Lemma read_global_maps_almanac ls env :
  (read_global_maps ls env).2
  = bool_decide (is_Some (global_galileo_almanac_map env !! 0)).
Proof.
  unfold read_global_maps, concurrent_read.
  case_decide as Hs.
  - destruct (global_galileo_almanac_map env !! 0) eqn:Hk; reflexivity.
  - cbn. rewrite bool_decide_eq_false_2; [done|]. intros [v Hv].
    apply Hs. apply size_pos_nonempty. intros Hempty.
    rewrite Hempty in Hv. by rewrite lookup_empty in Hv.
Qed.

(** *** One call, taken apart *)

Lemma general_work_inv b env b' evs :
  general_work b env = Done (b', evs) →
  ∃ channels m tow rx ls arrived,
    read_inputs (d_nchannels b) (input_items env) = Done channels
    ∧ collect_pseudoranges channels (d_TOW_at_curr_symbol_constellation b) (d_rx_time b)
      = (m, tow, rx)
    ∧ read_global_maps (d_ls_pvt b) env = (ls, arrived)
    ∧ ((size m = 0%nat
        ∧ b' = update b (wrap64 (d_sample_counter b + 1)) (d_last_sample_nav_output b)
                 rx tow (b_rinex_header_writen b) ls (d_dump_file b)
        ∧ evs = [])
       ∨ ((0 < size m)%nat
          ∧ ∃ r r' hw ln ev_pvt file ev_dump,
              umod (wrap64 (d_sample_counter b + 1)) (wrap64 (d_output_rate_ms b)) = Done r
              ∧ umod (wrap64 (d_sample_counter b + 1)) (wrap64 (d_display_rate_ms b))
                = Done r'
              ∧ compute_pvt b env (wrap64 (d_sample_counter b + 1)) r ls arrived rx m
                = (hw, ln, ev_pvt)
              ∧ record_dump b env channels rx = (file, ev_dump)
              ∧ b' = update b (wrap64 (d_sample_counter b + 1)) ln rx tow hw ls file
              ∧ evs = ev_pvt ++ display env r' ++ ev_dump)).
Proof.
  unfold general_work. intros Hwork.
  destruct (read_inputs _ _) as [channels|f] eqn:Hread; [|discriminate Hwork].
  cbn in Hwork.
  destruct (collect_pseudoranges _ _ _) as [[m tow] rx] eqn:Hcollect.
  destruct (read_global_maps _ _) as [ls arrived] eqn:Hmaps.
  exists channels, m, tow, rx, ls, arrived. do 3 (split; [first [reflexivity|assumption]|]).
  destruct (decide (0 < size m)%nat) as [Hsize|Hsize].
  - right. split; [exact Hsize|].
    destruct (umod _ (wrap64 (d_output_rate_ms b))) as [r|f] eqn:Hr; [|discriminate Hwork].
    cbn in Hwork.
    destruct (compute_pvt _ _ _ _ _ _ _ _) as [[hw ln] ev_pvt] eqn:Hpvt.
    destruct (umod _ (wrap64 (d_display_rate_ms b))) as [r'|f] eqn:Hr';
      [|discriminate Hwork].
    cbn in Hwork.
    destruct (record_dump _ _ _ _) as [file ev_dump] eqn:Hdump.
    injection Hwork as <- <-.
    exists r, r', hw, ln, ev_pvt, file, ev_dump. repeat split; first [reflexivity|assumption].
  - left. injection Hwork as <- <-. split; [lia|split; reflexivity].
Qed.

(** Neither the console message nor the dump is a solver call, a header or
    a navigation record. *)
Lemma display_plain env r e :
  e ∈ display env r →
  is_get_PVT e = false ∧ is_rinex_header e = false ∧ is_log_rinex_nav e = false
  ∧ ∀ g ga t m, e ≠ log_rinex_obs g ga t m.
Proof.
  unfold display. destruct (_ && _); intros Hin.
  - apply list_elem_of_singleton in Hin as ->. done.
  - by apply elem_of_nil in Hin.
Qed.

Lemma record_dump_plain b env channels rx file ev e :
  record_dump b env channels rx = (file, ev) → e ∈ ev →
  is_get_PVT e = false ∧ is_rinex_header e = false ∧ is_log_rinex_nav e = false
  ∧ ∀ g ga t m, e ≠ log_rinex_obs g ga t m.
Proof.
  unfold record_dump, write_dump. intros Hdump Hin.
  repeat case_match; simplify_eq; try by apply elem_of_nil in Hin.
  all: apply list_elem_of_singleton in Hin as ->; done.
Qed.

Lemma existsb_false {A} (p : A → bool) l : (∀ x, x ∈ l → p x = false) → existsb p l = false.
Proof.
  induction l as [|x l IH]; intros Hall; [done|]. cbn.
  rewrite (Hall x) by apply list_elem_of_here. apply IH. intros y Hy.
  apply Hall. by apply list_elem_of_further.
Qed.

(** Step 2 of one call. *)
Lemma compute_pvt_spec b env c r ls arrived rx m hw ln ev :
  compute_pvt b env c r ls arrived rx m = (hw, ln, ev) →
  let fix_found := bool_decide (r = 0) && pvt_result env in
  let go := negb (b_rinex_header_writen b) && fix_found
            && bool_decide (gps_ephemeris_map ls ≠ ∅)
            && bool_decide (galileo_ephemeris_map ls ≠ ∅) && arrived in
  existsb is_get_PVT ev = bool_decide (r = 0)
  ∧ hw = b_rinex_header_writen b || go
  ∧ existsb is_rinex_header ev = go
  ∧ (go = true →
     ∃ g ga, filter (λ e, is_rinex_header e = true) ev
             = [rinex_obs_header (Some g) (Some ga) rx;
                rinex_nav_header (gps_iono ls) (gps_utc_model ls) (galileo_iono ls)
                  (galileo_utc_model ls) (galileo_almanac ls)])
  ∧ (existsb is_log_rinex_nav ev = true →
     hw = true ∧ ln = c ∧ 6000 ≤ wrap64 (c - d_last_sample_nav_output b))
  ∧ (existsb is_log_rinex_nav ev = false → ln = d_last_sample_nav_output b)
  ∧ (∀ g ga t m', log_rinex_obs g ga t m' ∈ ev →
       hw = true ∧ g = snd <$> map_begin (gps_ephemeris_map ls)
       ∧ ga = snd <$> map_begin (galileo_ephemeris_map ls))
  ∧ (∀ m' t f, get_PVT m' t f ∈ ev → m' = m ∧ t = rx).
Proof.
  unfold compute_pvt, write_rinex_header, write_rinex_records. intros Hc.
  rewrite !(bool_decide_ext (map_begin (gps_ephemeris_map ls) ≠ None)
              (gps_ephemeris_map ls ≠ ∅)) in Hc by (by rewrite map_begin_None).
  rewrite !(bool_decide_ext (map_begin (galileo_ephemeris_map ls) ≠ None)
              (galileo_ephemeris_map ls ≠ ∅)) in Hc by (by rewrite map_begin_None).
  destruct (decide (r = 0)) as [Hr|Hr];
    [rewrite (bool_decide_eq_true_2 _ Hr) | rewrite (bool_decide_eq_false_2 _ Hr)];
    destruct (pvt_result env), (b_rinex_header_writen b),
      (bool_decide (gps_ephemeris_map ls ≠ ∅)) eqn:Hg,
      (bool_decide (galileo_ephemeris_map ls ≠ ∅)) eqn:Hga, arrived;
    cbn in Hc |- *;
    try destruct (decide (6000 ≤ wrap64 (c - d_last_sample_nav_output b))) as [Hgap|Hgap];
    cbn in Hc |- *; simplify_eq; cbn;
    (split; [done|]); (split; [done|]); (split; [done|]);
    (split; [first [done | intros _; apply bool_decide_eq_true in Hg, Hga;
                            destruct (map_begin_Some _ Hg) as [g ->];
                            destruct (map_begin_Some _ Hga) as [ga ->]; by eauto]|]);
    (split; [done|]); (split; [done|]);
    (split; [intros g ga t m' Hin | intros m' t f Hin]);
    repeat (apply elem_of_cons in Hin as [Hin|Hin]; [by simplify_eq|]);
    by apply elem_of_nil in Hin.
Qed.

Lemma filter_none {A} (p : A → bool) (l : list A) :
  (∀ x, x ∈ l → p x = false) → filter (λ x, p x = true) l = [].
Proof.
  induction l as [|x l IH]; intros Hall; [done|].
  rewrite filter_cons_False.
  - apply IH. intros y Hy. apply Hall. by apply list_elem_of_further.
  - rewrite (Hall x) by apply list_elem_of_here. done.
Qed.

(** What the events after step 2 cannot be. *)
Lemma tail_plain b env channels rx r file ev e :
  record_dump b env channels rx = (file, ev) → e ∈ display env r ++ ev →
  is_get_PVT e = false ∧ is_rinex_header e = false ∧ is_log_rinex_nav e = false
  ∧ ∀ g ga t m, e ≠ log_rinex_obs g ga t m.
Proof.
  intros Hdump Hin. apply elem_of_app in Hin as [Hin|Hin].
  - by apply display_plain in Hin.
  - by apply (record_dump_plain _ _ _ _ _ _ _ Hdump) in Hin.
Qed.

Lemma existsb_tail (p : Event → bool) ev tail :
  (∀ e, e ∈ tail → p e = false) → existsb p (ev ++ tail) = existsb p ev.
Proof. intros Hp. rewrite existsb_app, (existsb_false p tail Hp). apply orb_false_r. Qed.

(** One call of [general_work], seen as an epoch. *)
Lemma general_work_epoch b env b' evs :
  general_work b env = Done (b', evs) →
  let ep := {| before := b; found := env; events := evs; after := b' |} in
  d_sample_counter b' = wrap64 (d_sample_counter b + 1)
  ∧ writes_header ep = negb (b_rinex_header_writen b) && header_gate ep
  ∧ b_rinex_header_writen b' = b_rinex_header_writen b || header_gate ep
  ∧ (writes_header ep = true →
     ∃ g ga, filter (λ e, is_rinex_header e = true) evs
             = [rinex_obs_header (Some g) (Some ga) (d_rx_time b');
                rinex_nav_header (gps_iono (d_ls_pvt b')) (gps_utc_model (d_ls_pvt b'))
                  (galileo_iono (d_ls_pvt b')) (galileo_utc_model (d_ls_pvt b'))
                  (galileo_almanac (d_ls_pvt b'))])
  ∧ (logs_nav ep = true →
     b_rinex_header_writen b' = true
     ∧ d_last_sample_nav_output b' = d_sample_counter b'
     ∧ 6000 ≤ wrap64 (d_sample_counter b' - d_last_sample_nav_output b))
  ∧ (logs_nav ep = false → d_last_sample_nav_output b' = d_last_sample_nav_output b)
  ∧ (∀ g ga t m, log_rinex_obs g ga t m ∈ evs →
       b_rinex_header_writen b' = true
       ∧ g = snd <$> map_begin (gps_ephemeris_map (d_ls_pvt b'))
       ∧ ga = snd <$> map_begin (galileo_ephemeris_map (d_ls_pvt b')))
  ∧ d_ls_pvt b' = (read_global_maps (d_ls_pvt b) env).1.
Proof.
  intros Hwork ep.
  destruct (general_work_inv _ _ _ _ Hwork)
    as (channels & m & tow & rx & ls & arrived & Hread & Hcollect & Hmaps & Hcases).
  pose proof (read_global_maps_almanac (d_ls_pvt b) env) as Halm.
  rewrite Hmaps in Halm. cbn in Halm.
  unfold writes_header, logs_nav, header_gate, valid_pvt. subst ep. cbn [events found after].
  destruct Hcases as [(Hsize & -> & ->)|(Hsize & r & r' & hw & ln & ev_pvt & file & ev_dump
                                         & Hr & Hr' & Hpvt & Hdump & -> & ->)].
  - cbn. rewrite Hmaps, andb_false_r, orb_false_r.
    do 6 (split; [done|]). split; [|done].
    intros g ga t m' Hin. by apply elem_of_nil in Hin.
  - pose proof (λ e, tail_plain _ _ _ _ r' _ _ e Hdump) as Htail.
    apply compute_pvt_spec in Hpvt
      as (Hget & Hhw & Hheader & Hfilter & Hnav & Hnonav & Hobs & _).
    rewrite (existsb_tail is_get_PVT), (existsb_tail is_rinex_header),
      (existsb_tail is_log_rinex_nav)
      by (intros e He; apply Htail in He as (? & ? & ? & _); assumption).
    cbn. rewrite Hmaps. cbn. rewrite Hget, Hheader, Hhw, <- Halm.
    split; [done|]. split; [|split; [|split; [|split; [|split; [|split]]]]].
    + destruct (b_rinex_header_writen b); cbn; done.
    + destruct (b_rinex_header_writen b); cbn; done.
    + intros Hgo. rewrite filter_app.
      rewrite (filter_none is_rinex_header (display env r' ++ ev_dump))
        by (intros e He; apply Htail in He as (? & ? & ? & _); assumption).
      rewrite app_nil_r. by apply Hfilter.
    + intros Hn. destruct (Hnav Hn) as (H1 & H2 & H3). by rewrite <- Hhw.
    + done.
    + intros g ga t m' Hin. apply elem_of_app in Hin as [Hin|Hin].
      * apply Hobs in Hin as (H1 & H2 & H3). by rewrite <- Hhw.
      * apply Htail in Hin as (_ & _ & _ & Hne). by destruct (Hne g ga t m').
    + done.
Qed.

(** *** Navigation records *)

Lemma nav_gap_range b : 0 ≤ nav_gap b < 2 ^ 64.
Proof. unfold nav_gap, wrap64. apply Z.mod_pos_bound. lia. Qed.

Lemma nav_gap_step b env b' evs :
  general_work b env = Done (b', evs) →
  let ep := {| before := b; found := env; events := evs; after := b' |} in
  (logs_nav ep = true → 6000 ≤ wrap64 (nav_gap b + 1) ∧ nav_gap b' = 0)
  ∧ (logs_nav ep = false → nav_gap b' = wrap64 (nav_gap b + 1)).
Proof.
  intros Hwork ep.
  apply general_work_epoch in Hwork as (Hcount & _ & _ & _ & Hnav & Hquiet & _).
  fold ep in Hnav, Hquiet. unfold nav_gap, wrap64 in *. split.
  - intros Hlogs. destruct (Hnav Hlogs) as (_ & -> & Hgap). split.
    + rewrite Zplus_mod_idemp_l.
      rewrite Hcount, Zminus_mod_idemp_l in Hgap.
      replace (d_sample_counter b - d_last_sample_nav_output b + 1)
        with (d_sample_counter b + 1 - d_last_sample_nav_output b) by lia.
      exact Hgap.
    + rewrite Z.sub_diag. reflexivity.
  - intros Hlogs. rewrite (Hquiet Hlogs), Hcount.
    rewrite Zminus_mod_idemp_l, Zplus_mod_idemp_l. f_equal. lia.
Qed.

Lemma epoch_facts ep :
  general_work (before ep) (found ep) = Done (after ep, events ep) →
  d_sample_counter (after ep) = wrap64 (d_sample_counter (before ep) + 1)
  ∧ writes_header ep = negb (b_rinex_header_writen (before ep)) && header_gate ep
  ∧ b_rinex_header_writen (after ep) = b_rinex_header_writen (before ep) || header_gate ep
  ∧ (writes_header ep = true →
     ∃ g ga, filter (λ e, is_rinex_header e = true) (events ep)
             = [rinex_obs_header (Some g) (Some ga) (d_rx_time (after ep));
                rinex_nav_header (gps_iono (d_ls_pvt (after ep)))
                  (gps_utc_model (d_ls_pvt (after ep)))
                  (galileo_iono (d_ls_pvt (after ep)))
                  (galileo_utc_model (d_ls_pvt (after ep)))
                  (galileo_almanac (d_ls_pvt (after ep)))])
  ∧ (logs_nav ep = true → 6000 ≤ wrap64 (nav_gap (before ep) + 1) ∧ nav_gap (after ep) = 0)
  ∧ (logs_nav ep = false → nav_gap (after ep) = wrap64 (nav_gap (before ep) + 1)).
Proof.
  destruct ep as [b env evs b']. cbn [before found after events]. intros Hwork.
  pose proof (nav_gap_step _ _ _ _ Hwork) as [Hnav Hquiet].
  apply general_work_epoch in Hwork as (H1 & H2 & H3 & H4 & _). done.
Qed.

(** *** Sessions *)

Lemma session_cons b env envs tr :
  session b (env :: envs) = Done tr →
  ∃ b' evs rest,
    general_work b env = Done (b', evs) ∧ session b' envs = Done rest
    ∧ tr = {| before := b; found := env; events := evs; after := b' |} :: rest.
Proof.
  cbn. destruct (general_work b env) as [[b' evs]|f]; cbn; [|discriminate].
  destruct (session b' envs) as [rest|f] eqn:Hrest; cbn; [|discriminate].
  intros [= <-]. exists b', evs, rest. split; [done|]. split; [exact Hrest|done].
Qed.

(** Every epoch of a session is one call, epoch [k + 1] starts where epoch
    [k] ended, and a property kept by every call holds all along. *)
Lemma session_invariant (P : t → Prop) :
  (∀ b env b' evs, general_work b env = Done (b', evs) → P b → P b') →
  ∀ envs b tr k ep,
    P b → session b envs = Done tr → tr !! k = Some ep →
    P (before ep) ∧ P (after ep)
    ∧ general_work (before ep) (found ep) = Done (after ep, events ep).
Proof.
  intros Hkeep. induction envs as [|env envs IH]; intros b tr k ep Hb Hs Hk.
  - cbn in Hs. injection Hs as <-. by rewrite lookup_nil in Hk.
  - apply session_cons in Hs as (b' & evs & rest & Hwork & Hrest & ->).
    destruct k as [|k]; cbn in Hk.
    + injection Hk as <-. cbn. split; [done|]. split; [by eapply Hkeep|done].
    + apply (IH b' rest k ep); [by eapply Hkeep|done|done].
Qed.

Lemma session_step envs b tr k ep :
  session b envs = Done tr → tr !! k = Some ep →
  general_work (before ep) (found ep) = Done (after ep, events ep).
Proof.
  intros Hs Hk.
  by destruct (session_invariant (λ _, True) (λ _ _ _ _ _ _, I) envs b tr k ep I Hs Hk)
    as (_ & _ & Hwork).
Qed.

Lemma session_drop envs : ∀ b tr k ep,
  session b envs = Done tr → tr !! k = Some ep →
  session (after ep) (drop (S k) envs) = Done (drop (S k) tr).
Proof.
  induction envs as [|env envs IH]; intros b tr k ep Hs Hk.
  - cbn in Hs. injection Hs as <-. by rewrite lookup_nil in Hk.
  - apply session_cons in Hs as (b' & evs & rest & Hwork & Hrest & ->).
    destruct k as [|k]; cbn in Hk.
    + injection Hk as <-. cbn. by rewrite !drop_0.
    + cbn. by apply (IH b').
Qed.

Lemma existsb_take_false {A} (p : A → bool) (l : list A) k :
  existsb p (take k l) = false
  ↔ ∀ j x, (j < k)%nat → l !! j = Some x → p x = false.
Proof.
  revert k. induction l as [|y l IH]; intros k.
  - rewrite take_nil. split; [|done]. intros _ j x _ Hj. by rewrite lookup_nil in Hj.
  - destruct k as [|k]; cbn.
    + split; [|done]. intros _ j x Hj. lia.
    + rewrite orb_false_iff, IH. split.
      * intros [Hy Hall] [|j] x Hj Hx; cbn in Hx; [by simplify_eq|].
        apply (Hall j); [lia|done].
      * intros Hall. split; [by apply (Hall 0%nat); [lia|]|].
        intros j x Hj Hx. apply (Hall (S j)); [lia|done].
Qed.

(** The header flag at the start of an epoch: set at the start of the
    session, or some earlier epoch passed the gate. *)
Lemma session_header_flag envs : ∀ b tr k ep,
  session b envs = Done tr → tr !! k = Some ep →
  b_rinex_header_writen (before ep)
  = b_rinex_header_writen b || existsb header_gate (take k tr).
Proof.
  induction envs as [|env envs IH]; intros b tr k ep Hs Hk.
  - cbn in Hs. injection Hs as <-. by rewrite lookup_nil in Hk.
  - apply session_cons in Hs as (b' & evs & rest & Hwork & Hrest & ->).
    destruct k as [|k]; cbn in Hk.
    + injection Hk as <-. cbn. by rewrite orb_false_r.
    + rewrite (IH b' rest k ep Hrest Hk). cbn.
      apply general_work_epoch in Hwork as (_ & _ & -> & _). by rewrite orb_assoc.
Qed.

(** The sample counter counts the calls. *)
Lemma session_sample_counter envs : ∀ b tr k ep,
  session b envs = Done tr → tr !! k = Some ep →
  d_sample_counter (after ep) = wrap64 (d_sample_counter b + Z.of_nat k + 1).
Proof.
  induction envs as [|env envs IH]; intros b tr k ep Hs Hk.
  - cbn in Hs. injection Hs as <-. by rewrite lookup_nil in Hk.
  - apply session_cons in Hs as (b' & evs & rest & Hwork & Hrest & ->).
    apply general_work_epoch in Hwork as (Hcount & _).
    destruct k as [|k]; cbn in Hk.
    + injection Hk as <-. cbn [after]. rewrite Hcount. f_equal. lia.
    + rewrite (IH b' rest k ep Hrest Hk), Hcount. unfold wrap64.
      rewrite <- Z.add_assoc, Zplus_mod_idemp_l. f_equal. lia.
Qed.

(** No navigation record while fewer than 6000 ticks have passed. *)
Lemma session_nav_quiet envs : ∀ b tr k ep,
  session b envs = Done tr → tr !! k = Some ep →
  nav_gap b + Z.of_nat k + 1 < 6000 → logs_nav ep = false.
Proof.
  induction envs as [|env envs IH]; intros b tr k ep Hs Hk Hgap.
  - cbn in Hs. injection Hs as <-. by rewrite lookup_nil in Hk.
  - apply session_cons in Hs as (b' & evs & rest & Hwork & Hrest & ->).
    pose proof (nav_gap_range b) as Hrange.
    apply nav_gap_step in Hwork as [Hnav Hquiet].
    assert (Hsmall : wrap64 (nav_gap b + 1) = nav_gap b + 1)
      by (apply Z.mod_small; lia).
    assert (Hfirst : logs_nav {| before := b; found := env; events := evs; after := b' |}
                     = false).
    { destruct (logs_nav _) eqn:Hlogs; [|done]. destruct (Hnav eq_refl). lia. }
    destruct k as [|k]; cbn in Hk.
    + by injection Hk as <-.
    + apply (IH b' rest k ep Hrest Hk). rewrite (Hquiet Hfirst), Hsmall. lia.
Qed.

(** *** Ephemerides behind the header flag *)

Lemma header_implies_ephemeris_kept b env b' evs :
  general_work b env = Done (b', evs) →
  header_implies_ephemeris b → header_implies_ephemeris b'.
Proof.
  intros Hwork Hb Hflag.
  apply general_work_epoch in Hwork as (_ & _ & Hflag' & _ & _ & _ & _ & Hls).
  rewrite Hflag in Hflag'. symmetry in Hflag'. apply orb_true_iff in Hflag' as [Hold|Hgate].
  - destruct (Hb Hold) as [Hgps Hgal]. rewrite Hls. split.
    + apply read_global_maps_gps. by right.
    + apply read_global_maps_galileo. by right.
  - unfold header_gate in Hgate. cbn [after] in Hgate.
    apply andb_true_iff in Hgate as [Hgate _].
    apply andb_true_iff in Hgate as [Hgate Hgal].
    apply andb_true_iff in Hgate as [_ Hgps].
    by apply bool_decide_eq_true in Hgps, Hgal.
Qed.

Lemma header_implies_ephemeris_initially nchannels dump depth averaging rate display_rate opens :
  header_implies_ephemeris
    (hybrid_pvt_cc nchannels dump depth averaging rate display_rate opens).
Proof. intros Hflag. discriminate Hflag. Qed.

(** C2.  In a session of a freshly constructed block, wherever
    log_rinex_obs is called both iterators it dereferences are valid: the
    GPS and the Galileo ephemeris map of the solver are both non-empty at
    that epoch. *)
Theorem log_rinex_obs_iterators_valid
    nchannels dump depth averaging rate display_rate opens envs tr k ep g ga t m :
  session (hybrid_pvt_cc nchannels dump depth averaging rate display_rate opens) envs = Done tr →
  tr !! k = Some ep →
  log_rinex_obs g ga t m ∈ events ep →
  is_Some g ∧ is_Some ga
  ∧ gps_ephemeris_map (d_ls_pvt (after ep)) ≠ ∅
  ∧ galileo_ephemeris_map (d_ls_pvt (after ep)) ≠ ∅.
Proof.
  intros Hs Hk Hin.
  destruct (session_invariant header_implies_ephemeris header_implies_ephemeris_kept
              envs _ tr k ep
              (header_implies_ephemeris_initially _ _ _ _ _ _ _) Hs Hk)
    as (_ & Hafter & Hwork).
  apply general_work_epoch in Hwork as (_ & _ & _ & _ & _ & _ & Hobs & _).
  destruct (Hobs g ga t m Hin) as (Hflag & -> & ->).
  destruct (Hafter Hflag) as [Hgps Hgal].
  split; [by apply map_begin_Some|]. split; [by apply map_begin_Some|]. done.
Qed.

(** C4.  In a session of a freshly constructed block the RINEX headers are
    written at an epoch exactly when it is the first epoch with a valid PVT
    at which the solver holds a GPS and a Galileo ephemeris and the Galileo
    almanac is in the repository; that epoch writes one observation header
    and one mixed navigation header, no epoch that starts with the flag set
    writes a header, and no other epoch of the session writes one. *)
Theorem rinex_headers_written_once
    nchannels dump depth averaging rate display_rate opens envs tr k ep :
  session (hybrid_pvt_cc nchannels dump depth averaging rate display_rate opens) envs = Done tr →
  tr !! k = Some ep →
  (writes_header ep = true
   ↔ header_gate ep = true
     ∧ ∀ j ep', (j < k)%nat → tr !! j = Some ep' → header_gate ep' = false)
  ∧ (writes_header ep = true →
     ∃ g ga, filter (λ e, is_rinex_header e = true) (events ep)
             = [rinex_obs_header (Some g) (Some ga) (d_rx_time (after ep));
                rinex_nav_header (gps_iono (d_ls_pvt (after ep)))
                  (gps_utc_model (d_ls_pvt (after ep)))
                  (galileo_iono (d_ls_pvt (after ep)))
                  (galileo_utc_model (d_ls_pvt (after ep)))
                  (galileo_almanac (d_ls_pvt (after ep)))])
  ∧ (b_rinex_header_writen (before ep) = true → writes_header ep = false)
  ∧ (∀ j ep', j ≠ k → tr !! j = Some ep' → writes_header ep = true →
              writes_header ep' = false).
Proof.
  intros Hs Hk.
  assert (Hwrites : ∀ i e, tr !! i = Some e →
            writes_header e = negb (existsb header_gate (take i tr)) && header_gate e).
  { intros i e Hi. pose proof (session_step _ _ _ _ _ Hs Hi) as Hwork.
    pose proof (session_header_flag _ _ _ _ _ Hs Hi) as Hflag. cbn in Hflag.
    apply epoch_facts in Hwork as (_ & Hw & _). by rewrite Hw, Hflag. }
  assert (Hfirst : ∀ i e, tr !! i = Some e →
            (writes_header e = true
             ↔ header_gate e = true
               ∧ ∀ j e', (j < i)%nat → tr !! j = Some e' → header_gate e' = false)).
  { intros i e Hi. rewrite (Hwrites i e Hi), andb_true_iff, negb_true_iff,
      existsb_take_false. tauto. }
  split; [by apply Hfirst|]. split; [|split].
  - intros Hw. pose proof (session_step _ _ _ _ _ Hs Hk) as Hwork.
    apply epoch_facts in Hwork as (_ & _ & _ & Hshape & _). by apply Hshape.
  - intros Hflag. pose proof (session_step _ _ _ _ _ Hs Hk) as Hwork.
    apply epoch_facts in Hwork as (_ & Hw & _). by rewrite Hw, Hflag.
  - intros j ep' Hjk Hj Hw. destruct (writes_header ep') eqn:Hw'; [|done].
    apply (Hfirst k ep Hk) in Hw as [Hgate Hbefore].
    apply (Hfirst j ep' Hj) in Hw' as [Hgate' Hbefore'].
    destruct (decide (j < k)%nat) as [Hlt|Hge].
    + rewrite (Hbefore j ep' Hlt Hj) in Hgate'. discriminate.
    + assert (k < j)%nat as Hlt by lia.
      rewrite (Hbefore' k ep Hlt Hk) in Hgate. discriminate.
Qed.

(** C5.  In a session of a freshly constructed block, two epochs that
    both append navigation records (log_rinex_nav) lie at least 6000 calls
    apart, whatever output_rate_ms is; the sample counter advances by one
    per call, being (k + 1) mod 2^64 after epoch k. *)
Theorem nav_records_6000_ticks_apart
    nchannels dump depth averaging rate display_rate opens envs i j :
  let b0 := hybrid_pvt_cc nchannels dump depth averaging rate display_rate opens in
  (i < j)%nat →
  nav_logged_at b0 envs i = true → nav_logged_at b0 envs j = true →
  6000 ≤ Z.of_nat j - Z.of_nat i
  ∧ ∀ k ep, epoch_at b0 envs k = Some ep →
            d_sample_counter (after ep) = wrap64 (Z.of_nat k + 1).
Proof.
  intros b0 Hij Hi Hj. unfold nav_logged_at, epoch_at in *.
  destruct (session b0 envs) as [tr|f] eqn:Hs; [|discriminate Hi].
  split.
  - destruct (tr !! i) as [epi|] eqn:Hepi; [|discriminate Hi].
    destruct (tr !! j) as [epj|] eqn:Hepj; [|discriminate Hj].
    pose proof (session_step _ _ _ _ _ Hs Hepi) as Hwork.
    apply epoch_facts in Hwork as (_ & _ & _ & _ & Hnav & _).
    destruct (Hnav Hi) as [_ Hzero].
    pose proof (session_drop _ _ _ _ _ Hs Hepi) as Hrest.
    destruct (decide (6000 ≤ Z.of_nat j - Z.of_nat i)) as [|Hclose]; [done|].
    assert (Hlookup : drop (S i) tr !! (j - S i)%nat = Some epj).
    { rewrite lookup_drop. rewrite <- Hepj. f_equal. lia. }
    rewrite (session_nav_quiet _ _ _ _ _ Hrest Hlookup) in Hj; [discriminate Hj|].
    rewrite Hzero. lia.
  - intros k ep Hk. rewrite (session_sample_counter _ _ _ _ _ Hs Hk). reflexivity.
Qed.

(** *** Receiver time and the dump *)

Lemma collect_pseudoranges_snoc channels ch tow rx :
  collect_pseudoranges (channels ++ [ch]) tow rx
  = (let '(m, tow', rx') := collect_pseudoranges channels tow rx in
     if Flag_valid_pseudorange ch
     then (map_insert (to_int32 (PRN ch)) ch m,
           d_TOW_at_current_symbol ch, d_TOW_hybrid_at_current_symbol ch)
     else (m, tow', rx')).
Proof.
  unfold collect_pseudoranges. rewrite foldl_app. cbn [foldl].
  by destruct (foldl _ _ channels) as [[m tow'] rx'].
Qed.

(** After the first loop either no channel was valid, or the receiver
    time is that of a valid channel. *)
Lemma collect_pseudoranges_rx_time t channels tow rx m tow' rx' :
  (∀ ch, ch ∈ channels → Flag_valid_pseudorange ch = true →
         d_TOW_hybrid_at_current_symbol ch = t) →
  collect_pseudoranges channels tow rx = (m, tow', rx') →
  (m = ∅ ∧ rx' = rx ∧ ∀ ch, ch ∈ channels → Flag_valid_pseudorange ch = false)
  ∨ (m ≠ ∅ ∧ rx' = t).
Proof.
  revert m tow' rx'. induction channels as [|ch channels IH] using rev_ind;
    intros m tow' rx' Hcommon Hcollect.
  - cbn in Hcollect. simplify_eq. left. split; [done|]. split; [done|].
    intros ch Hch. by apply elem_of_nil in Hch.
  - rewrite collect_pseudoranges_snoc in Hcollect.
    destruct (collect_pseudoranges channels tow rx) as [[m0 tow0] rx0] eqn:Hprefix.
    destruct (Flag_valid_pseudorange ch) eqn:Hvalid; simplify_eq.
    + right. split; [apply map_insert_nonempty|].
      apply Hcommon; [|done]. apply elem_of_app. right. apply list_elem_of_here.
    + destruct (IH m tow' rx') as [(-> & -> & Hnone)|[Hm ->]]; [|done| |].
      * intros c Hc. apply Hcommon. apply elem_of_app. by left.
      * left. split; [done|]. split; [done|]. intros c Hc.
        apply elem_of_app in Hc as [Hc|Hc]; [by apply Hnone|].
        by apply list_elem_of_singleton in Hc as ->.
      * by right.
Qed.

(** A valid channel leaves a pseudorange in the map. *)
Lemma collect_pseudoranges_valid channels tow rx :
  (∃ ch, ch ∈ channels ∧ Flag_valid_pseudorange ch = true) →
  (collect_pseudoranges channels tow rx).1.1 ≠ ∅.
Proof.
  induction channels as [|ch channels IH] using rev_ind; intros (c & Hc & Hvalid).
  - by apply elem_of_nil in Hc.
  - rewrite collect_pseudoranges_snoc.
    destruct (collect_pseudoranges channels tow rx) as [[m0 tow0] rx0] eqn:Hprefix.
    destruct (Flag_valid_pseudorange ch) eqn:Hch; cbn.
    + apply map_insert_nonempty.
    + apply IH. exists c. split; [|done].
      apply elem_of_app in Hc as [Hc|Hc]; [done|].
      apply list_elem_of_singleton in Hc as ->. congruence.
Qed.

Lemma read_inputs_Done nchannels items :
  nchannels ≤ Z.of_nat (length items) →
  read_inputs nchannels items = Done (take (Z.to_nat nchannels) items).
Proof. intros Hn. unfold read_inputs. by rewrite decide_True. Qed.

(** A call returns when every input stream is there and neither rate is
    zero. *)
Lemma general_work_returns b env :
  d_nchannels b ≤ Z.of_nat (length (input_items env)) →
  wrap64 (d_output_rate_ms b) ≠ 0 → wrap64 (d_display_rate_ms b) ≠ 0 →
  ∃ b' evs, general_work b env = Done (b', evs).
Proof.
  intros Hn Hrate Hdisplay. unfold general_work.
  rewrite read_inputs_Done by exact Hn. cbn.
  destruct (collect_pseudoranges _ _ _) as [[m tow] rx].
  destruct (read_global_maps _ _) as [ls arrived].
  case_decide; [|by eauto].
  rewrite (umod_nonzero _ _ Hrate). cbn.
  destruct (compute_pvt _ _ _ _ _ _ _ _) as [[hw ln] ev_pvt].
  rewrite (umod_nonzero _ _ Hdisplay). cbn.
  destruct (record_dump _ _ _ _) as [file ev_dump]. by eauto.
Qed.

Lemma write_dump_prefix file records fault_at :
  ∃ k, written (write_dump file records fault_at).1 = written file ++ take k records.
Proof.
  unfold write_dump. destruct (rdstate file).
  - destruct fault_at as [k|]; [case_decide|]; cbn; [by exists k| |];
      exists (length records); by rewrite firstn_all.
  - exists 0%nat. by rewrite take_0, app_nil_r.
  - exists 0%nat. rewrite take_0, app_nil_r. by destruct records.
Qed.

Lemma general_work_times b env b' evs t :
  general_work b env = Done (b', evs) →
  let channels := take (Z.to_nat (d_nchannels b)) (input_items env) in
  (∀ ch, ch ∈ channels → Flag_valid_pseudorange ch = true →
         d_TOW_hybrid_at_current_symbol ch = t) →
  (∀ m rx f, get_PVT m rx f ∈ evs → rx = t)
  ∧ (∃ k, written (d_dump_file b')
          = written (d_dump_file b) ++ take k (dump_records channels t))
  ∧ ((∃ ch, ch ∈ channels ∧ Flag_valid_pseudorange ch = true) → d_rx_time b' = t).
Proof.
  intros Hwork channels Hcommon.
  destruct (general_work_inv _ _ _ _ Hwork)
    as (channels' & m & tow & rx & ls & arrived & Hread & Hcollect & Hmaps & Hcases).
  assert (channels' = channels) as ->.
  { unfold read_inputs in Hread. case_decide; by simplify_eq. }
  destruct (collect_pseudoranges_rx_time t _ _ _ _ _ _ Hcommon Hcollect)
    as [(-> & -> & Hnone)|[Hm ->]].
  - destruct Hcases as [(_ & -> & ->)|(Hsize & _)];
      [|rewrite map_size_empty in Hsize; lia].
    cbn. split; [intros m rx f Hin; by apply elem_of_nil in Hin|]. split.
    + exists 0%nat. by rewrite take_0, app_nil_r.
    + intros (ch & Hch & Hvalid). rewrite (Hnone ch Hch) in Hvalid. discriminate.
  - destruct Hcases as [(Hsize & _)|(Hsize & r & r' & hw & ln & ev_pvt & file & ev_dump
                                     & Hr & Hr' & Hpvt & Hdump & -> & ->)].
    { apply map_size_empty_iff in Hsize. done. }
    pose proof (λ e, tail_plain _ _ _ _ r' _ _ e Hdump) as Htail.
    apply compute_pvt_spec in Hpvt as (_ & _ & _ & _ & _ & _ & _ & Hget).
    cbn. split; [|split].
    + intros m' rx f Hin. apply elem_of_app in Hin as [Hin|Hin].
      * by apply Hget in Hin as [_ ->].
      * apply Htail in Hin as (Hno & _). discriminate Hno.
    + unfold record_dump in Hdump.
      destruct (d_dump b); [|simplify_eq; exists 0%nat; by rewrite take_0, app_nil_r].
      destruct (write_dump_prefix (d_dump_file b) (dump_records channels t)
                  (dump_write_fault env)) as [k Hk].
      rewrite Hdump in Hk. by exists k.
    + done.
Qed.

Lemma dump_records_length channels rx :
  length (dump_records channels rx) = (3 * length channels)%nat.
Proof.
  unfold dump_records. induction channels as [|ch channels IH]; [done|].
  cbn. rewrite IH. lia.
Qed.

(** C6.  When all input streams are there and no rate is zero, a call
    returns; if every channel with Flag_valid_pseudorange carries the same
    d_TOW_hybrid_at_current_symbol, that common value is the rx_time of
    every get_PVT call of the epoch, the receiver-time member of every
    record appended to the dump, and, when some channel is valid,
    d_rx_time after the call. *)
Theorem rx_time_is_common_tow b env t :
  let channels := take (Z.to_nat (d_nchannels b)) (input_items env) in
  d_nchannels b ≤ Z.of_nat (length (input_items env)) →
  wrap64 (d_output_rate_ms b) ≠ 0 → wrap64 (d_display_rate_ms b) ≠ 0 →
  (∀ ch, ch ∈ channels → Flag_valid_pseudorange ch = true →
         d_TOW_hybrid_at_current_symbol ch = t) →
  ∃ b' evs,
    general_work b env = Done (b', evs)
    ∧ (∀ m rx f, get_PVT m rx f ∈ evs → rx = t)
    ∧ (∃ k, written (d_dump_file b')
            = written (d_dump_file b) ++ take k (dump_records channels t))
    ∧ ((∃ ch, ch ∈ channels ∧ Flag_valid_pseudorange ch = true) → d_rx_time b' = t).
Proof.
  intros channels Hn Hrate Hdisplay Hcommon.
  destruct (general_work_returns b env Hn Hrate Hdisplay) as (b' & evs & Hwork).
  exists b', evs. split; [exact Hwork|].
  destruct (general_work_times b env b' evs t Hwork Hcommon) as (Hget & Hfile & Hrx).
  split; [exact Hget|]. split; [exact Hfile|exact Hrx].
Qed.


End WithNavData.

(** *** The statements at concrete sessions *)

Import Fixtures.

Lemma log_rinex_obs_iterators_valid_witness :
  ∃ ep, epoch_at (two_channel_block false) [gps_only_epoch; full_epoch] 1 = Some ep
        ∧ gps_ephemeris_map (d_ls_pvt (after ep)) ≠ ∅
        ∧ galileo_ephemeris_map (d_ls_pvt (after ep)) ≠ ∅.
Proof.
  eexists. split; [vm_compute; reflexivity|].
  eapply (log_rinex_obs_iterators_valid (N := issue_numbers) 2 false 10 false 1 1000 true
            [gps_only_epoch; full_epoch] _ 1).
  - vm_compute. reflexivity.
  - reflexivity.
  - cbn [events]. do 4 apply list_elem_of_further. apply list_elem_of_here.
Defined.

Lemma rinex_headers_written_once_witness :
  ∃ ep1 ep2,
    epoch_at (two_channel_block false) [gps_only_epoch; full_epoch; full_epoch] 1
    = Some ep1
    ∧ epoch_at (two_channel_block false) [gps_only_epoch; full_epoch; full_epoch] 2
      = Some ep2
    ∧ writes_header ep1 = true ∧ writes_header ep2 = false.
Proof.
  eexists _, _. split; [vm_compute; reflexivity|]. split; [vm_compute; reflexivity|].
  split; [vm_compute; reflexivity|].
  eapply (λ Hs Hk, proj1 (proj2 (proj2
            (rinex_headers_written_once (N := issue_numbers) 2 false 10 false 1 1000 true
               [gps_only_epoch; full_epoch; full_epoch] _ 2 _ Hs Hk)))).
  - vm_compute. reflexivity.
  - reflexivity.
  - reflexivity.
Defined.

Lemma nav_records_6000_ticks_apart_witness :
  nav_logged_at (two_channel_block false) (replicate (Z.to_nat 12000) full_epoch)
    (Z.to_nat 5999) = true
  ∧ nav_logged_at (two_channel_block false) (replicate (Z.to_nat 12000) full_epoch)
      (Z.to_nat 11999) = true
  ∧ 6000 ≤ Z.of_nat (Z.to_nat 11999) - Z.of_nat (Z.to_nat 5999).
Proof.
  split; [vm_compute; reflexivity|]. split; [vm_compute; reflexivity|].
  apply (nav_records_6000_ticks_apart (N := issue_numbers) 2 false 10 false 1 1000 true
           (replicate (Z.to_nat 12000) full_epoch) (Z.to_nat 5999) (Z.to_nat 11999)).
  - lia.
  - vm_compute. reflexivity.
  - vm_compute. reflexivity.
Defined.

Lemma rx_time_is_common_tow_witness :
  ∃ b' evs,
    general_work (two_channel_block true) full_epoch = Done (b', evs)
    ∧ d_rx_time b' = 100.5%float.
Proof.
  destruct (rx_time_is_common_tow (two_channel_block true) full_epoch 100.5%float)
    as (b' & evs & Hwork & _ & _ & Hrx).
  - vm_compute. discriminate.
  - vm_compute. discriminate.
  - vm_compute. discriminate.
  - intros ch Hch Hvalid. cbn in Hch.
    apply elem_of_cons in Hch as [->|Hch]; [reflexivity|].
    apply list_elem_of_singleton in Hch as ->. discriminate Hvalid.
  - exists b', evs. split; [exact Hwork|]. apply Hrx.
    eexists. split; [apply list_elem_of_here|reflexivity].
Defined.



End HybridPvtFacts.

(* ===================================================================== *)
(** ** Further facts: the PVT block *)
(* ===================================================================== *)

Module PvtMoreFacts.
Import HybridPvt PvtMore HybridPvtFacts.

Section WithNavData.
Context `{N : NavData}.

Lemma increasing_lookup l :
  increasing l = true →
  ∀ i j x y, (i < j)%nat → l !! i = Some x → l !! j = Some y → (x < y)%nat.
Proof.
  induction l as [|a l IH]; intros Hinc i j x y Hij Hi Hj; [by rewrite lookup_nil in Hi|].
  assert (Htail : increasing l = true).
  { destruct l as [|c l]; [done|]. cbn in Hinc. by apply andb_true_iff in Hinc as [_ ?]. }
  assert (Hhead : ∀ k z, l !! k = Some z → (a < z)%nat).
  { intros k. revert Hinc Htail IH. clear. revert a.
    induction k as [|k IHk]; intros a Hinc Htail IH z Hz.
    - destruct l as [|c l]; [done|]. cbn in Hz. simplify_eq. cbn in Hinc.
      apply andb_true_iff in Hinc as [Hac _]. by apply bool_decide_eq_true in Hac.
    - destruct l as [|c l]; [done|]. cbn in Hinc.
      apply andb_true_iff in Hinc as [Hac Hl]. apply bool_decide_eq_true in Hac.
      cbn in Hz. pose proof (IH Htail 0%nat (S k) c z) as Hcz.
      assert (c < z)%nat by (apply Hcz; [lia|done|done]). lia. }
  destruct i as [|i]; destruct j as [|j]; try lia; cbn in Hi, Hj.
  - simplify_eq. by apply (Hhead j).
  - apply (IH Htail i j); [lia|done|done].
Qed.

Lemma nav_gap_next b :
  wrap64 (wrap64 (d_sample_counter b + 1) - d_last_sample_nav_output b)
  = wrap64 (nav_gap b + 1).
Proof.
  unfold nav_gap, wrap64. rewrite Zminus_mod_idemp_l, Zplus_mod_idemp_l. f_equal. lia.
Qed.

(** *** Step 2, once more: which records, with what, in which order *)

Lemma compute_pvt_records b env c r ls arrived rx m hw ln ev :
  compute_pvt b env c r ls arrived rx m = (hw, ln, ev) →
  existsb is_log_rinex_nav ev
  = bool_decide (r = 0) && pvt_result env && hw
    && bool_decide (6000 ≤ wrap64 (c - d_last_sample_nav_output b))
  ∧ existsb is_log_rinex_obs ev
    = bool_decide (r = 0) && pvt_result env && hw
      && (bool_decide (galileo_ephemeris_map ls ≠ ∅)
          || bool_decide (gps_ephemeris_map ls ≠ ∅))
  ∧ (∀ g ga t m', log_rinex_obs g ga t m' ∈ ev → m' = m ∧ t = rx)
  ∧ (∀ tl, tl = [] ∨ tl = [display_position] ∨ tl = [log_dump_exception]
           ∨ tl = [display_position; log_dump_exception] →
           increasing (event_rank <$> ev ++ tl) = true).
Proof.
  unfold compute_pvt, write_rinex_header, write_rinex_records. intros Hc.
  rewrite !(bool_decide_ext (map_begin (gps_ephemeris_map ls) ≠ None)
              (gps_ephemeris_map ls ≠ ∅)) in Hc by (by rewrite map_begin_None).
  rewrite !(bool_decide_ext (map_begin (galileo_ephemeris_map ls) ≠ None)
              (galileo_ephemeris_map ls ≠ ∅)) in Hc by (by rewrite map_begin_None).
  destruct (decide (r = 0)) as [Hr|Hr];
    [rewrite (bool_decide_eq_true_2 _ Hr) | rewrite (bool_decide_eq_false_2 _ Hr)];
    destruct (pvt_result env), (b_rinex_header_writen b),
      (bool_decide (gps_ephemeris_map ls ≠ ∅)) eqn:Hg,
      (bool_decide (galileo_ephemeris_map ls ≠ ∅)) eqn:Hga, arrived;
    cbn in Hc |- *;
    try destruct (decide (6000 ≤ wrap64 (c - d_last_sample_nav_output b))) as [Hgap|Hgap];
    cbn in Hc |- *; simplify_eq; cbn;
    try rewrite (bool_decide_eq_true_2 _ Hgap); try rewrite (bool_decide_eq_false_2 _ Hgap);
    (split; [done|]); (split; [done|]);
    (split; [intros g ga t m' Hin;
             repeat (apply elem_of_cons in Hin as [Hin|Hin]; [by simplify_eq|]);
             by apply elem_of_nil in Hin
            |intros tl [->|[->|[->| ->]]]; reflexivity]).
Qed.

Lemma tail_shape b env channels rx r file ev :
  record_dump b env channels rx = (file, ev) →
  let tl := display env r ++ ev in
  tl = [] ∨ tl = [display_position] ∨ tl = [log_dump_exception]
  ∨ tl = [display_position; log_dump_exception].
Proof.
  unfold record_dump, write_dump, display. intros Hdump.
  destruct (_ && _); repeat case_match; simplify_eq; cbn; tauto.
Qed.

Lemma tail_no_obs b env channels rx r file ev e :
  record_dump b env channels rx = (file, ev) → e ∈ display env r ++ ev →
  is_log_rinex_obs e = false.
Proof.
  intros Hdump Hin. apply (tail_plain _ _ _ _ _ _ _ _ Hdump) in Hin as (_ & _ & _ & Hne).
  destruct e; try done. by destruct (Hne gps_eph galileo_eph obs_time pseudoranges).
Qed.

(** One call: the records it appends. *)
Lemma general_work_records b env b' evs :
  general_work b env = Done (b', evs) →
  let ep := {| before := b; found := env; events := evs; after := b' |} in
  logs_nav ep
  = valid_pvt ep && b_rinex_header_writen b'
    && bool_decide (6000 ≤ wrap64 (nav_gap b + 1))
  ∧ existsb is_log_rinex_obs evs
    = valid_pvt ep && b_rinex_header_writen b'
      && (bool_decide (galileo_ephemeris_map (d_ls_pvt b') ≠ ∅)
          || bool_decide (gps_ephemeris_map (d_ls_pvt b') ≠ ∅))
  ∧ (∀ g ga t m, log_rinex_obs g ga t m ∈ evs →
       t = d_rx_time b'
       ∧ m = (collect_pseudoranges (channels_read b env)
                (d_TOW_at_curr_symbol_constellation b) (d_rx_time b)).1.1)
  ∧ (∀ m t f, get_PVT m t f ∈ evs →
       t = d_rx_time b'
       ∧ m = (collect_pseudoranges (channels_read b env)
                (d_TOW_at_curr_symbol_constellation b) (d_rx_time b)).1.1)
  ∧ increasing (event_rank <$> evs) = true.
Proof.
  intros Hwork ep.
  destruct (general_work_inv _ _ _ _ Hwork)
    as (channels & m & tow & rx & ls & arrived & Hread & Hcollect & Hmaps & Hcases).
  assert (channels = channels_read b env) as ->.
  { unfold read_inputs in Hread. case_decide; by simplify_eq. }
  rewrite Hcollect. unfold logs_nav, valid_pvt. subst ep. cbn [events found after before].
  destruct Hcases as [(Hsize & -> & ->)|(Hsize & r & r' & hw & ln & ev_pvt & file & ev_dump
                                         & Hr & Hr' & Hpvt & Hdump & -> & ->)].
  - cbn. do 2 (split; [done|]).
    split; [intros g ga t m' Hin; by apply elem_of_nil in Hin|].
    split; [intros m' t f Hin; by apply elem_of_nil in Hin|done].
  - pose proof (λ e, tail_plain _ _ _ _ r' _ _ e Hdump) as Htail.
    pose proof (λ e, tail_no_obs _ _ _ _ r' _ _ e Hdump) as Hnoobs.
    pose proof (tail_shape _ _ _ _ r' _ _ Hdump) as Hshape.
    pose proof (compute_pvt_records _ _ _ _ _ _ _ _ _ _ _ Hpvt)
      as (Hnav & Hobs & Hcarry & Hinc).
    apply compute_pvt_spec in Hpvt as (Hget & _ & _ & _ & _ & _ & _ & Hgetm).
    rewrite (existsb_tail is_get_PVT), (existsb_tail is_log_rinex_nav)
      by (intros e He; apply Htail in He as (? & ? & ? & _); assumption).
    rewrite (existsb_tail is_log_rinex_obs) by exact Hnoobs.
    cbn. rewrite Hnav, Hobs, Hget.
    split; [|split; [done|split; [|split]]].
    + by rewrite nav_gap_next.
    + intros g ga t m' Hin. apply elem_of_app in Hin as [Hin|Hin].
      * by destruct (Hcarry _ _ _ _ Hin) as [-> ->].
      * apply Htail in Hin as (_ & _ & _ & Hne). by destruct (Hne g ga t m').
    + intros m' t f Hin. apply elem_of_app in Hin as [Hin|Hin].
      * by destruct (Hgetm _ _ _ Hin) as [-> ->].
      * apply Htail in Hin as (Hno & _). discriminate Hno.
    + by apply Hinc.
Qed.

(** X1.  Whatever a call of general_work does, it does in the order
    of its body and each thing at most once: get_PVT, print_position_hybrid,
    rinex_obs_header, rinex_nav_header, log_rinex_nav, log_rinex_obs, the
    console message, the dump warning. *)
Theorem general_work_call_order b env b' evs i j e1 e2 :
  general_work b env = Done (b', evs) →
  (i < j)%nat → evs !! i = Some e1 → evs !! j = Some e2 →
  (event_rank e1 < event_rank e2)%nat.
Proof.
  intros Hwork Hij Hi Hj.
  apply general_work_records in Hwork as (_ & _ & _ & _ & Hinc).
  apply (increasing_lookup _ Hinc i j); [exact Hij| |];
    rewrite list_lookup_fmap; [by rewrite Hi | by rewrite Hj].
Qed.

(** X2.  A call appends navigation records exactly when it has a
    valid PVT, the headers are written (before or during the call) and the
    sample counter is, after its increment, 6000 or more ticks (modulo 2^64)
    past d_last_sample_nav_output. *)
Theorem navigation_record_when_due b env b' evs :
  general_work b env = Done (b', evs) →
  let ep := {| before := b; found := env; events := evs; after := b' |} in
  logs_nav ep
  = valid_pvt ep && b_rinex_header_writen b'
    && bool_decide (6000 ≤ wrap64 (nav_gap b + 1)).
Proof. intros Hwork. by apply general_work_records in Hwork as (Hnav & _). Qed.

Lemma epoch_records ep :
  general_work (before ep) (found ep) = Done (after ep, events ep) →
  logs_nav ep
  = valid_pvt ep && b_rinex_header_writen (after ep)
    && bool_decide (6000 ≤ wrap64 (nav_gap (before ep) + 1))
  ∧ existsb is_log_rinex_obs (events ep)
    = valid_pvt ep && b_rinex_header_writen (after ep)
      && (bool_decide (galileo_ephemeris_map (d_ls_pvt (after ep)) ≠ ∅)
          || bool_decide (gps_ephemeris_map (d_ls_pvt (after ep)) ≠ ∅))
  ∧ (∀ g ga t m, log_rinex_obs g ga t m ∈ events ep → t = d_rx_time (after ep)).
Proof.
  destruct ep as [b env evs b']. cbn [before found after events]. intros Hwork.
  apply general_work_records in Hwork as (H1 & H2 & H3 & _).
  split; [exact H1|]. split; [exact H2|]. intros g ga t m Hin. by apply H3 in Hin as [? _].
Qed.

(** X3.  In a session of a freshly constructed block an observation
    record is appended at exactly the epochs with a valid PVT whose call ends
    with the headers written; it carries two ephemerides and the receiver
    time of the epoch. *)
Theorem observation_record_at_every_fix
    nchannels dump depth averaging rate display_rate opens envs tr k ep :
  session (hybrid_pvt_cc nchannels dump depth averaging rate display_rate opens) envs = Done tr →
  tr !! k = Some ep →
  existsb is_log_rinex_obs (events ep) = valid_pvt ep && b_rinex_header_writen (after ep)
  ∧ (∀ g ga t m, log_rinex_obs g ga t m ∈ events ep →
       is_Some g ∧ is_Some ga ∧ t = d_rx_time (after ep)).
Proof.
  intros Hs Hk.
  destruct (session_invariant header_implies_ephemeris header_implies_ephemeris_kept
              envs _ tr k ep
              (header_implies_ephemeris_initially _ _ _ _ _ _ _) Hs Hk)
    as (_ & Hafter & Hwork).
  pose proof (epoch_records ep Hwork) as (_ & Hobs & Htime).
  split.
  - rewrite Hobs. destruct (b_rinex_header_writen (after ep)) eqn:Hflag;
      [|by rewrite !andb_false_r].
    destruct (Hafter Hflag) as [Hgps Hgal].
    rewrite (bool_decide_eq_true_2 _ Hgal). by rewrite !andb_true_r.
  - intros g ga t m Hin. split; [|split]; [| |by apply (Htime g ga t m)].
    + destruct ep as [b env evs b'].
      apply general_work_epoch in Hwork as (_ & _ & _ & _ & _ & _ & Hit & _).
      destruct (Hit g ga t m Hin) as (Hflag & -> & _).
      destruct (Hafter Hflag) as [Hgps _]. by apply map_begin_Some.
    + destruct ep as [b env evs b'].
      apply general_work_epoch in Hwork as (_ & _ & _ & _ & _ & _ & Hit & _).
      destruct (Hit g ga t m Hin) as (Hflag & _ & ->).
      destruct (Hafter Hflag) as [_ Hgal]. by apply map_begin_Some.
Qed.

Lemma existsb_take_first {A} (p : A → bool) (l : list A) : ∀ n,
  existsb p (take n l) = true →
  ∃ j x, (j < n)%nat ∧ l !! j = Some x ∧ p x = true ∧ existsb p (take j l) = false.
Proof.
  induction l as [|y l IH]; intros n Hn.
  - by rewrite take_nil in Hn.
  - destruct n as [|n]; [done|]. cbn in Hn. destruct (p y) eqn:Hy.
    + exists 0%nat, y. split; [lia|]. by rewrite take_0.
    + cbn in Hn. destruct (IH n Hn) as (j & x & Hj & Hx & Hpx & Hnone).
      exists (S j), x. split; [lia|]. split; [done|]. split; [done|].
      cbn. by rewrite Hy.
Qed.

Lemma session_writes_header envs b tr i e :
  session b envs = Done tr → tr !! i = Some e →
  writes_header e
  = negb (b_rinex_header_writen b || existsb header_gate (take i tr)) && header_gate e
  ∧ b_rinex_header_writen (after e)
    = b_rinex_header_writen b || existsb header_gate (take (S i) tr).
Proof.
  intros Hs Hi. pose proof (session_step _ _ _ _ _ Hs Hi) as Hwork.
  pose proof (session_header_flag _ _ _ _ _ Hs Hi) as Hflag.
  apply epoch_facts in Hwork as (_ & Hw & Hafter & _).
  split; [by rewrite Hw, Hflag|]. rewrite Hafter, Hflag.
  rewrite (take_S_r _ _ _ Hi), existsb_app. cbn. by rewrite orb_false_r, orb_assoc.
Qed.

(** X4.  In a session of a freshly constructed block no
    navigation or observation record is appended before the headers: an
    epoch with such a record is the epoch that writes the headers or comes
    after it. *)
Theorem records_follow_header
    nchannels dump depth averaging rate display_rate opens envs tr k ep :
  session (hybrid_pvt_cc nchannels dump depth averaging rate display_rate opens) envs = Done tr →
  tr !! k = Some ep →
  logs_nav ep = true ∨ existsb is_log_rinex_obs (events ep) = true →
  ∃ j epj, (j ≤ k)%nat ∧ tr !! j = Some epj ∧ writes_header epj = true.
Proof.
  intros Hs Hk Hrecord.
  pose proof (session_step _ _ _ _ _ Hs Hk) as Hwork.
  pose proof (epoch_records ep Hwork) as (Hnav & Hobs & _).
  assert (Hflag : b_rinex_header_writen (after ep) = true).
  { destruct Hrecord as [Hr|Hr]; [rewrite Hnav in Hr|rewrite Hobs in Hr];
      destruct (b_rinex_header_writen (after ep)); try done;
      by rewrite ?andb_false_r in Hr. }
  destruct (session_writes_header _ _ _ _ _ Hs Hk) as [_ Hafter].
  rewrite Hflag in Hafter. cbn in Hafter. symmetry in Hafter.
  destruct (existsb_take_first _ _ _ Hafter) as (j & epj & Hj & Hepj & Hgate & Hnone).
  exists j, epj. split; [lia|]. split; [exact Hepj|].
  destruct (session_writes_header _ _ _ _ _ Hs Hepj) as [-> _]. cbn.
  by rewrite Hnone, Hgate.
Qed.

(** X5.  In a session of a freshly constructed block none of the
    first 5999 calls appends navigation records, even when the headers are
    written at the first call: d_last_sample_nav_output starts at 0. *)
Theorem no_navigation_record_before_tick_6000
    nchannels dump depth averaging rate display_rate opens envs tr k ep :
  session (hybrid_pvt_cc nchannels dump depth averaging rate display_rate opens) envs = Done tr →
  tr !! k = Some ep →
  Z.of_nat k + 1 < 6000 →
  logs_nav ep = false.
Proof.
  intros Hs Hk Hearly. apply (session_nav_quiet _ _ _ _ _ Hs Hk).
  change (nav_gap (hybrid_pvt_cc nchannels dump depth averaging rate display_rate opens)) with 0.
  lia.
Qed.

(** *** The first loop *)

Lemma head_app {A} (l1 l2 : list A) :
  head (l1 ++ l2) = match head l1 with Some x => Some x | None => head l2 end.
Proof. by destruct l1. Qed.

Lemma collect_pseudoranges_lookup channels tow rx k :
  (collect_pseudoranges channels tow rx).1.1 !! k = first_valid_with_key channels k.
Proof.
  unfold first_valid_with_key.
  induction channels as [|ch channels IH] using rev_ind; [done|].
  rewrite collect_pseudoranges_snoc, filter_app, head_app.
  destruct (collect_pseudoranges channels tow rx) as [[m0 tow0] rx0]. cbn in IH.
  rewrite <- IH. clear IH. destruct (Flag_valid_pseudorange ch) eqn:Hvalid.
  - unfold map_insert. destruct (decide (to_int32 (PRN ch) = k)) as [Hk|Hk].
    + rewrite filter_cons_True by done. subst k. cbn.
      destruct (m0 !! to_int32 (PRN ch)) eqn:Hm; cbn; [done|].
      by rewrite lookup_insert_eq.
    + rewrite filter_cons_False by tauto. cbn.
      destruct (m0 !! to_int32 (PRN ch)) eqn:Hm; cbn.
      * by destruct (m0 !! k).
      * rewrite lookup_insert_ne by done. by destruct (m0 !! k).
  - rewrite filter_cons_False by (rewrite Hvalid; intros [? _]; done). cbn.
    by destruct (m0 !! k).
Qed.

Lemma collect_pseudoranges_times channels tow rx :
  (collect_pseudoranges channels tow rx).1.2
  = default tow (d_TOW_at_current_symbol
                   <$> last (filter (λ ch, Flag_valid_pseudorange ch = true) channels))
  ∧ (collect_pseudoranges channels tow rx).2
    = default rx (d_TOW_hybrid_at_current_symbol
                    <$> last (filter (λ ch, Flag_valid_pseudorange ch = true) channels)).
Proof.
  induction channels as [|ch channels IH] using rev_ind; [done|].
  rewrite collect_pseudoranges_snoc, filter_app.
  destruct (collect_pseudoranges channels tow rx) as [[m0 tow0] rx0]. cbn in IH.
  destruct (Flag_valid_pseudorange ch) eqn:Hvalid.
  - rewrite filter_cons_True by done. rewrite filter_nil, last_snoc. done.
  - rewrite filter_cons_False by (by rewrite Hvalid). by rewrite filter_nil, app_nil_r.
Qed.

Lemma collect_pseudoranges_empty channels tow rx :
  (collect_pseudoranges channels tow rx).1.1 = ∅
  ↔ filter (λ ch, Flag_valid_pseudorange ch = true) channels = [].
Proof.
  split.
  - intros Hempty. destruct (filter _ channels) as [|ch l] eqn:Hf; [done|].
    assert (ch ∈ filter (λ ch, Flag_valid_pseudorange ch = true) channels) as Hin
      by (rewrite Hf; apply list_elem_of_here).
    apply list_elem_of_filter in Hin as [Hvalid Hin].
    by destruct (collect_pseudoranges_valid channels tow rx
                   (ex_intro _ ch (conj Hin Hvalid)) Hempty).
  - intros Hnone. apply map_eq. intros k.
    rewrite collect_pseudoranges_lookup, lookup_empty. unfold first_valid_with_key.
    destruct (filter (λ ch, Flag_valid_pseudorange ch = true ∧ to_int32 (PRN ch) = k)
                channels) as [|ch l] eqn:Hf; [done|].
    assert (ch ∈ filter (λ ch, Flag_valid_pseudorange ch = true ∧ to_int32 (PRN ch) = k)
                   channels) as Hin by (rewrite Hf; apply list_elem_of_here).
    apply list_elem_of_filter in Hin as [[Hvalid _] Hin].
    assert (ch ∈ filter (λ ch, Flag_valid_pseudorange ch = true) channels) as Hin'
      by (by apply list_elem_of_filter).
    rewrite Hnone in Hin'. by apply elem_of_nil in Hin'.
Qed.

(** X6.  The pseudoranges handed to get_PVT and to log_rinex_obs hold,
    under each PRN, the first channel (in channel order) with a valid
    pseudorange for that PRN; later channels on the same PRN are ignored. *)
Theorem pseudoranges_first_channel_per_prn b env b' evs :
  general_work b env = Done (b', evs) →
  (∀ m t f, get_PVT m t f ∈ evs →
     ∀ k, m !! k = first_valid_with_key (channels_read b env) k)
  ∧ (∀ g ga t m, log_rinex_obs g ga t m ∈ evs →
       ∀ k, m !! k = first_valid_with_key (channels_read b env) k).
Proof.
  intros Hwork. apply general_work_records in Hwork as (_ & _ & Hobs & Hget & _).
  split.
  - intros m t f Hin k. destruct (Hget m t f Hin) as [_ ->].
    apply collect_pseudoranges_lookup.
  - intros g ga t m Hin k. destruct (Hobs g ga t m Hin) as [_ ->].
    apply collect_pseudoranges_lookup.
Qed.

(** X7.  After a call d_rx_time and d_TOW_at_curr_symbol_constellation
    are those of the last channel (in channel order) with a valid
    pseudorange, and keep their old values when no channel is valid. *)
Theorem rx_time_of_last_valid_channel b env b' evs :
  general_work b env = Done (b', evs) →
  d_rx_time b'
  = default (d_rx_time b)
      (d_TOW_hybrid_at_current_symbol <$> last (valid_channels b env))
  ∧ d_TOW_at_curr_symbol_constellation b'
    = default (d_TOW_at_curr_symbol_constellation b)
        (d_TOW_at_current_symbol <$> last (valid_channels b env)).
Proof.
  intros Hwork.
  destruct (general_work_inv _ _ _ _ Hwork)
    as (channels & m & tow & rx & ls & arrived & Hread & Hcollect & Hmaps & Hcases).
  assert (channels = channels_read b env) as ->.
  { unfold read_inputs in Hread. case_decide; by simplify_eq. }
  pose proof (collect_pseudoranges_times (channels_read b env)
                (d_TOW_at_curr_symbol_constellation b) (d_rx_time b)) as [Htow Hrx].
  rewrite Hcollect in Htow, Hrx. cbn in Htow, Hrx. unfold valid_channels.
  destruct Hcases as [(_ & -> & _)|(_ & r & r' & hw & ln & ev_pvt & file & ev_dump
                                    & _ & _ & _ & _ & -> & _)]; cbn; by rewrite Htow, Hrx.
Qed.

Lemma general_work_without_pseudorange b env :
  d_nchannels b ≤ Z.of_nat (length (input_items env)) →
  valid_channels b env = [] →
  general_work b env
  = Done (update b (wrap64 (d_sample_counter b + 1)) (d_last_sample_nav_output b)
            (d_rx_time b) (d_TOW_at_curr_symbol_constellation b)
            (b_rinex_header_writen b) (read_global_maps (d_ls_pvt b) env).1
            (d_dump_file b), []).
Proof.
  intros Hn Hnone. unfold general_work. rewrite read_inputs_Done by exact Hn. cbn.
  fold (channels_read b env).
  pose proof (collect_pseudoranges_times (channels_read b env)
                (d_TOW_at_curr_symbol_constellation b) (d_rx_time b)) as [Htow Hrx].
  pose proof (proj2 (collect_pseudoranges_empty (channels_read b env)
                       (d_TOW_at_curr_symbol_constellation b) (d_rx_time b)) Hnone)
    as Hempty.
  unfold valid_channels in Hnone. rewrite Hnone in Htow, Hrx. cbn in Htow, Hrx.
  destruct (collect_pseudoranges _ _ _) as [[m tow] rx]. cbn in *. subst.
  destruct (read_global_maps _ _) as [ls arrived]. cbn.
  rewrite decide_False by (rewrite map_size_empty; lia). reflexivity.
Qed.

(** X8.  A call that finds every input stream but no valid pseudorange
    returns, even with a zero output or display rate, calls nothing, and
    changes only the sample counter and the navigation data of the solver. *)
Theorem epoch_without_pseudorange_is_quiet b env :
  d_nchannels b ≤ Z.of_nat (length (input_items env)) →
  valid_channels b env = [] →
  general_work b env
  = Done (update b (wrap64 (d_sample_counter b + 1)) (d_last_sample_nav_output b)
            (d_rx_time b) (d_TOW_at_curr_symbol_constellation b)
            (b_rinex_header_writen b) (read_global_maps (d_ls_pvt b) env).1
            (d_dump_file b), []).
Proof. apply general_work_without_pseudorange. Qed.

(** X9.  A call returns exactly when every input stream is there and
    either no channel has a valid pseudorange or neither rate is zero (as
    unsigned long); a missing stream is an out-of-bounds read, a zero rate
    with a valid pseudorange a division by zero. *)
Theorem general_work_returns_iff b env :
  ((∃ r, general_work b env = Done r)
   ↔ d_nchannels b ≤ Z.of_nat (length (input_items env))
     ∧ (valid_channels b env = []
        ∨ (wrap64 (d_output_rate_ms b) ≠ 0 ∧ wrap64 (d_display_rate_ms b) ≠ 0)))
  ∧ (Z.of_nat (length (input_items env)) < d_nchannels b →
     general_work b env = Fault (OutOfBoundsRead (Z.of_nat (length (input_items env)))))
  ∧ (d_nchannels b ≤ Z.of_nat (length (input_items env)) →
     valid_channels b env ≠ [] →
     wrap64 (d_output_rate_ms b) = 0 ∨ wrap64 (d_display_rate_ms b) = 0 →
     general_work b env = Fault DivisionByZero).
Proof.
  assert (Hmissing : Z.of_nat (length (input_items env)) < d_nchannels b →
            general_work b env
            = Fault (OutOfBoundsRead (Z.of_nat (length (input_items env))))).
  { intros Hn. unfold general_work, read_inputs. by rewrite decide_False by lia. }
  assert (Hzero : d_nchannels b ≤ Z.of_nat (length (input_items env)) →
            valid_channels b env ≠ [] →
            wrap64 (d_output_rate_ms b) = 0 ∨ wrap64 (d_display_rate_ms b) = 0 →
            general_work b env = Fault DivisionByZero).
  { intros Hn Hvalid Hrates. unfold general_work. rewrite read_inputs_Done by exact Hn.
    cbn. fold (channels_read b env).
    pose proof (collect_pseudoranges_empty (channels_read b env)
                  (d_TOW_at_curr_symbol_constellation b) (d_rx_time b)) as Hempty.
    destruct (collect_pseudoranges _ _ _) as [[m tow] rx]. cbn in Hempty.
    destruct (read_global_maps _ _) as [ls arrived].
    rewrite decide_True by (apply size_pos_nonempty; unfold valid_channels in Hvalid; tauto).
    destruct (decide (wrap64 (d_output_rate_ms b) = 0)) as [Hrate|Hrate];
      [rewrite Hrate; reflexivity|].
    rewrite (umod_nonzero _ _ Hrate). cbn.
    destruct (compute_pvt _ _ _ _ _ _ _ _) as [[hw ln] ev_pvt].
    destruct Hrates as [Hzero|Hzero]; [done|]. rewrite Hzero. reflexivity. }
  split; [|split; [exact Hmissing|exact Hzero]]. split.
  - intros [r Hr].
    destruct (decide (d_nchannels b ≤ Z.of_nat (length (input_items env)))) as [Hn|Hn];
      [|rewrite Hmissing in Hr by lia; discriminate Hr].
    split; [exact Hn|].
    destruct (decide (valid_channels b env = [])) as [|Hvalid]; [by left|right].
    destruct (decide (wrap64 (d_output_rate_ms b) = 0)) as [Hrate|Hrate];
      [rewrite Hzero in Hr by tauto; discriminate Hr|].
    destruct (decide (wrap64 (d_display_rate_ms b) = 0)) as [Hdisplay|Hdisplay];
      [rewrite Hzero in Hr by tauto; discriminate Hr|]. done.
  - intros [Hn [Hnone|[Hrate Hdisplay]]].
    + rewrite general_work_without_pseudorange by assumption. by eexists.
    + destruct (general_work_returns b env Hn Hrate Hdisplay) as (b' & evs & ->).
      by eexists.
Qed.

(** *** Navigation data inside the solver *)

Lemma read_global_maps_ephemeris ls env :
  gps_ephemeris_map (read_global_maps ls env).1
  = (if decide (0 < size (global_gps_ephemeris_map env))%nat
     then global_gps_ephemeris_map env else gps_ephemeris_map ls)
  ∧ galileo_ephemeris_map (read_global_maps ls env).1
    = (if decide (0 < size (global_galileo_ephemeris_map env))%nat
       then global_galileo_ephemeris_map env else galileo_ephemeris_map ls).
Proof.
  unfold read_global_maps.
  by destruct (if decide (0 < size (global_galileo_almanac_map env))%nat then _ else _).
Qed.

Lemma session_found envs : ∀ b tr k ep,
  session b envs = Done tr → tr !! k = Some ep → envs !! k = Some (found ep).
Proof.
  induction envs as [|env envs IH]; intros b tr k ep Hs Hk.
  - cbn in Hs. injection Hs as <-. by rewrite lookup_nil in Hk.
  - apply session_cons in Hs as (b' & evs & rest & Hwork & Hrest & ->).
    destruct k as [|k]; cbn in Hk; [by injection Hk as <-|].
    cbn. by apply (IH b' rest).
Qed.

Lemma latest_snapshot_cons {V} (m : gmap Z V) seen (current : gmap Z V) :
  default (if decide (0 < size m)%nat then m else current)
    (last (filter (λ m, 0 < size m)%nat seen))
  = default current (last (filter (λ m, 0 < size m)%nat (m :: seen))).
Proof.
  case_decide as Hm.
  - rewrite filter_cons_True by done. rewrite last_cons.
    by destruct (last (filter _ seen)).
  - by rewrite filter_cons_False by done.
Qed.

Lemma session_ephemeris envs : ∀ b tr k ep,
  session b envs = Done tr → tr !! k = Some ep →
  gps_ephemeris_map (d_ls_pvt (after ep))
  = default (gps_ephemeris_map (d_ls_pvt b))
      (last (filter (λ m, 0 < size m)%nat
               (global_gps_ephemeris_map <$> take (S k) envs)))
  ∧ galileo_ephemeris_map (d_ls_pvt (after ep))
    = default (galileo_ephemeris_map (d_ls_pvt b))
        (last (filter (λ m, 0 < size m)%nat
                 (global_galileo_ephemeris_map <$> take (S k) envs))).
Proof.
  induction envs as [|env envs IH]; intros b tr k ep Hs Hk.
  - cbn in Hs. injection Hs as <-. by rewrite lookup_nil in Hk.
  - apply session_cons in Hs as (b' & evs & rest & Hwork & Hrest & ->).
    apply general_work_epoch in Hwork as (_ & _ & _ & _ & _ & _ & _ & Hls).
    destruct (read_global_maps_ephemeris (d_ls_pvt b) env) as [Hgps Hgal].
    rewrite <- Hls in Hgps, Hgal.
    destruct k as [|k]; cbn in Hk.
    + injection Hk as <-. cbn [after]. rewrite Hgps, Hgal.
      change (take 1 (env :: envs)) with [env]. cbn [fmap list_fmap].
      rewrite <- !latest_snapshot_cons. done.
    + destruct (IH b' rest k ep Hrest Hk) as [-> ->]. rewrite Hgps, Hgal.
      change (take (S (S k)) (env :: envs)) with (env :: take (S k) envs).
      cbn [fmap list_fmap]. by rewrite !latest_snapshot_cons.
Qed.

(** X10.  In a session of a freshly constructed block the solver
    holds, after each call, the last non-empty content the GPS (Galileo)
    ephemeris map of the repository had at a call so far: an empty
    repository never erases what the solver has. *)
Theorem solver_keeps_latest_ephemeris
    nchannels dump depth averaging rate display_rate opens envs tr k ep :
  session (hybrid_pvt_cc nchannels dump depth averaging rate display_rate opens) envs = Done tr →
  tr !! k = Some ep →
  gps_ephemeris_map (d_ls_pvt (after ep))
  = latest_snapshot (global_gps_ephemeris_map <$> take (S k) envs)
  ∧ galileo_ephemeris_map (d_ls_pvt (after ep))
    = latest_snapshot (global_galileo_ephemeris_map <$> take (S k) envs).
Proof. intros Hs Hk. exact (session_ephemeris _ _ _ _ _ Hs Hk). Qed.

(** *** The cadence of the solver *)

Lemma general_work_keeps_configuration b env b' evs :
  general_work b env = Done (b', evs) →
  d_nchannels b' = d_nchannels b ∧ d_dump b' = d_dump b
  ∧ d_output_rate_ms b' = d_output_rate_ms b
  ∧ d_display_rate_ms b' = d_display_rate_ms b
  ∧ d_flag_averaging b' = d_flag_averaging b.
Proof.
  intros Hwork.
  destruct (general_work_inv _ _ _ _ Hwork)
    as (channels & m & tow & rx & ls & arrived & _ & _ & _ & Hcases).
  by destruct Hcases as [(_ & -> & _)|(_ & r & r' & hw & ln & ev_pvt & file & ev_dump
                                      & _ & _ & _ & _ & -> & _)].
Qed.

Lemma general_work_solver_call b env b' evs :
  general_work b env = Done (b', evs) →
  existsb is_get_PVT evs
  = bool_decide (valid_channels b env ≠ [])
    && bool_decide (d_sample_counter b' `mod` wrap64 (d_output_rate_ms b) = 0).
Proof.
  intros Hwork.
  destruct (general_work_inv _ _ _ _ Hwork)
    as (channels & m & tow & rx & ls & arrived & Hread & Hcollect & Hmaps & Hcases).
  assert (channels = channels_read b env) as ->.
  { unfold read_inputs in Hread. case_decide; by simplify_eq. }
  pose proof (collect_pseudoranges_empty (channels_read b env)
                (d_TOW_at_curr_symbol_constellation b) (d_rx_time b)) as Hempty.
  rewrite Hcollect in Hempty. cbn in Hempty. unfold valid_channels.
  destruct Hcases as [(Hsize & -> & ->)|(Hsize & r & r' & hw & ln & ev_pvt & file & ev_dump
                                         & Hr & Hr' & Hpvt & Hdump & -> & ->)].
  - apply map_size_empty_iff in Hsize. rewrite bool_decide_eq_false_2; [done|].
    intros Hne. apply Hne, Hempty, Hsize.
  - pose proof (λ e, tail_plain _ _ _ _ r' _ _ e Hdump) as Htail.
    apply compute_pvt_spec in Hpvt as (Hget & _).
    rewrite (existsb_tail is_get_PVT)
      by (intros e He; apply Htail in He as (? & _); assumption).
    rewrite Hget. apply size_pos_nonempty in Hsize.
    assert (Hsome : filter (λ ch, Flag_valid_pseudorange ch = true) (channels_read b env)
                    ≠ []) by (intros Hnone; apply Hsize, Hempty, Hnone).
    rewrite (bool_decide_eq_true_2 _ Hsome).
    cbn. unfold umod in Hr. case_decide; by simplify_eq.
Qed.

(** X11.  In a session of a freshly constructed block get_PVT is
    called at call number n (counting from 1, below 2^64) exactly when some
    channel has a valid pseudorange and n is a multiple of output_rate_ms
    (as unsigned long). *)
Theorem solver_called_every_output_rate
    nchannels dump depth averaging rate display_rate opens envs tr k ep :
  session (hybrid_pvt_cc nchannels dump depth averaging rate display_rate opens) envs = Done tr →
  tr !! k = Some ep →
  Z.of_nat k + 1 < 2 ^ 64 →
  existsb is_get_PVT (events ep)
  = bool_decide (valid_channels (before ep) (found ep) ≠ [])
    && bool_decide ((Z.of_nat k + 1) `mod` wrap64 rate = 0).
Proof.
  intros Hs Hk Hsmall.
  destruct (session_invariant (λ b, d_output_rate_ms b = rate)
              (λ b env b' evs Hwork Hb,
                 eq_trans (proj1 (proj2 (proj2 (general_work_keeps_configuration
                                                  b env b' evs Hwork)))) Hb)
              envs (hybrid_pvt_cc nchannels dump depth averaging rate display_rate opens)
              tr k ep eq_refl Hs Hk) as (Hrate & _ & Hwork).
  rewrite (general_work_solver_call _ _ _ _ Hwork), Hrate.
  rewrite (session_sample_counter envs
             (hybrid_pvt_cc nchannels dump depth averaging rate display_rate opens) tr k ep Hs Hk).
  cbn [d_sample_counter hybrid_pvt_cc]. rewrite Z.add_0_l.
  assert (Hcount : wrap64 (Z.of_nat k + 1) = Z.of_nat k + 1)
    by (apply Z.mod_small; lia).
  by rewrite Hcount.
Qed.

(** *** A failing dump *)

Lemma general_work_dump_fault b env b0 evs0 j :
  d_dump b = true → rdstate (d_dump_file b) = goodbit → valid_channels b env ≠ [] →
  general_work b (with_dump_write_fault env None) = Done (b0, evs0) →
  (j < 3 * length (channels_read b env))%nat →
  general_work b (with_dump_write_fault env (Some j))
  = Done (update b0 (d_sample_counter b0) (d_last_sample_nav_output b0) (d_rx_time b0)
            (d_TOW_at_curr_symbol_constellation b0) (b_rinex_header_writen b0)
            (d_ls_pvt b0)
            {| written := written (d_dump_file b)
                          ++ take j (dump_records (channels_read b env) (d_rx_time b0));
               rdstate := badbit |},
          evs0 ++ [log_dump_exception])
  ∧ d_dump_file b0
    = {| written := written (d_dump_file b)
                    ++ dump_records (channels_read b env) (d_rx_time b0);
         rdstate := goodbit |}.
Proof.
  intros Hdump Hgood Hvalid Hwork Hj. revert Hwork. unfold general_work.
  cbn [input_items with_dump_write_fault].
  destruct (read_inputs _ _) as [channels|f] eqn:Hread; [|discriminate].
  assert (channels = channels_read b env) as ->.
  { unfold read_inputs in Hread. case_decide; by simplify_eq. }
  cbn [mbind result_bind].
  pose proof (collect_pseudoranges_empty (channels_read b env)
                (d_TOW_at_curr_symbol_constellation b) (d_rx_time b)) as Hempty.
  destruct (collect_pseudoranges _ _ _) as [[m tow] rx]. cbn in Hempty.
  change (read_global_maps (d_ls_pvt b) (with_dump_write_fault env None))
    with (read_global_maps (d_ls_pvt b) (with_dump_write_fault env (Some j))).
  destruct (read_global_maps _ _) as [ls arrived].
  destruct (decide (0 < size m)%nat) as [Hsize|Hsize];
    [|exfalso; apply Hsize, size_pos_nonempty; unfold valid_channels in Hvalid; tauto].
  destruct (umod _ (wrap64 (d_output_rate_ms b))) as [r|f]; [|discriminate].
  cbn [mbind result_bind].
  change (compute_pvt b (with_dump_write_fault env None)) with
    (compute_pvt b (with_dump_write_fault env (Some j))).
  destruct (compute_pvt _ _ _ _ _ _ _ _) as [[hw ln] ev_pvt].
  destruct (umod _ (wrap64 (d_display_rate_ms b))) as [r'|f]; [|discriminate].
  cbn [mbind result_bind].
  unfold record_dump, write_dump. rewrite Hdump, Hgood.
  cbn [dump_write_fault with_dump_write_fault].
  rewrite dump_records_length.
  destruct (decide (j < 3 * length (channels_read b env))%nat) as [_|Hno]; [|done].
  intros [= <- <-]. cbn. split; [|done].
  change (display (with_dump_write_fault env None) r')
    with (display (with_dump_write_fault env (Some j)) r').
  by rewrite app_nil_r, <- !app_assoc.
Qed.

(** X12.  With dumping enabled, a good dump stream and a valid pseudorange,
    a dump write that fails after j accepted writes ends the dump of the
    epoch: the stream has accepted those j doubles and no more, it is left
    with badbit, one warning is logged after everything else the call does,
    and nothing else changes: the solver, the RINEX output and the other
    members of the block are as without the failure. *)
Theorem dump_failure_ends_the_epoch_dump b env b0 evs0 j :
  d_dump b = true → rdstate (d_dump_file b) = goodbit → valid_channels b env ≠ [] →
  general_work b (with_dump_write_fault env None) = Done (b0, evs0) →
  (j < 3 * length (channels_read b env))%nat →
  ∃ b1,
    general_work b (with_dump_write_fault env (Some j))
    = Done (b1, evs0 ++ [log_dump_exception])
    ∧ written (d_dump_file b1)
      = written (d_dump_file b)
        ++ take j (dump_records (channels_read b env) (d_rx_time b0))
    ∧ rdstate (d_dump_file b1) = badbit
    ∧ written (d_dump_file b0)
      = written (d_dump_file b) ++ dump_records (channels_read b env) (d_rx_time b0)
    ∧ rdstate (d_dump_file b0) = goodbit
    ∧ d_sample_counter b1 = d_sample_counter b0
    ∧ d_last_sample_nav_output b1 = d_last_sample_nav_output b0
    ∧ b_rinex_header_writen b1 = b_rinex_header_writen b0
    ∧ d_rx_time b1 = d_rx_time b0
    ∧ d_ls_pvt b1 = d_ls_pvt b0.
Proof.
  intros Hdump Hgood Hvalid Hwork Hj.
  destruct (general_work_dump_fault b env b0 evs0 j Hdump Hgood Hvalid Hwork Hj)
    as [Hfault Hfile].
  eexists. split; [exact Hfault|]. rewrite Hfile. cbn. by repeat split.
Qed.

End WithNavData.

(** *** The statements at concrete epochs *)

Import Fixtures MoreFixtures.

Lemma general_work_call_order_witness :
  ∃ b' evs e1 e2,
    general_work (two_channel_block true) full_epoch = Done (b', evs)
    ∧ evs !! 0%nat = Some e1 ∧ evs !! 1%nat = Some e2
    ∧ (event_rank e1 < event_rank e2)%nat.
Proof.
  eexists _, _, _, _. split; [vm_compute; reflexivity|].
  split; [reflexivity|]. split; [reflexivity|].
  eapply (general_work_call_order (N := issue_numbers) (two_channel_block true) full_epoch
            _ _ 0 1).
  - vm_compute. reflexivity.
  - lia.
  - reflexivity.
  - reflexivity.
Defined.

Lemma navigation_record_when_due_witness :
  ∃ b' evs,
    general_work (two_channel_block false) full_epoch = Done (b', evs)
    ∧ logs_nav {| before := two_channel_block false; found := full_epoch;
                  events := evs; after := b' |} = false.
Proof.
  eexists _, _. split; [vm_compute; reflexivity|].
  eapply eq_trans.
  - eapply (navigation_record_when_due (N := issue_numbers) (two_channel_block false)
              full_epoch).
    vm_compute. reflexivity.
  - vm_compute. reflexivity.
Defined.

Lemma observation_record_at_every_fix_witness :
  ∃ ep, epoch_at (two_channel_block false) [gps_only_epoch; full_epoch] 1 = Some ep
        ∧ existsb is_log_rinex_obs (events ep) = true.
Proof.
  eexists. split; [vm_compute; reflexivity|].
  eapply eq_trans.
  - eapply (λ Hs Hk, proj1
              (observation_record_at_every_fix (N := issue_numbers) 2 false 10 false 1 1000 true
                 [gps_only_epoch; full_epoch] _ 1 _ Hs Hk)).
    + vm_compute. reflexivity.
    + reflexivity.
  - vm_compute. reflexivity.
Defined.

Lemma records_follow_header_witness :
  ∃ tr, session (two_channel_block false) [gps_only_epoch; full_epoch] = Done tr
        ∧ ∃ j epj, (j ≤ 1)%nat ∧ tr !! j = Some epj ∧ writes_header epj = true.
Proof.
  eexists. split; [vm_compute; reflexivity|].
  eapply (records_follow_header (N := issue_numbers) 2 false 10 false 1 1000 true
            [gps_only_epoch; full_epoch] _ 1).
  - vm_compute. reflexivity.
  - reflexivity.
  - right. vm_compute. reflexivity.
Defined.

Lemma no_navigation_record_before_tick_6000_witness :
  ∃ ep, epoch_at (two_channel_block false) [full_epoch; full_epoch] 1 = Some ep
        ∧ logs_nav ep = false.
Proof.
  eexists. split; [vm_compute; reflexivity|].
  eapply (no_navigation_record_before_tick_6000 (N := issue_numbers) 2 false 10 false 1 1000 true
            [full_epoch; full_epoch] _ 1).
  - vm_compute. reflexivity.
  - reflexivity.
  - lia.
Defined.

Lemma pseudoranges_first_channel_per_prn_witness :
  ∃ b' evs m t f,
    general_work (two_channel_block false) same_prn_epoch = Done (b', evs)
    ∧ get_PVT m t f ∈ evs
    ∧ m !! 3 = Some (channel 3 true 25000000 100.5).
Proof.
  eassert (Hw : general_work (two_channel_block false) same_prn_epoch = Done (_, _))
    by (vm_compute; reflexivity).
  eexists _, _, _, _, _. split; [exact Hw|]. split; [apply list_elem_of_here|].
  eapply eq_trans.
  - apply (proj1 (pseudoranges_first_channel_per_prn (N := issue_numbers) _ _ _ _ Hw)
             _ _ _ (list_elem_of_here _ _) 3).
  - vm_compute. reflexivity.
Defined.

Lemma rx_time_of_last_valid_channel_witness :
  ∃ b' evs,
    general_work (two_channel_block false) same_prn_epoch = Done (b', evs)
    ∧ d_rx_time b' = 101.5%float.
Proof.
  eexists _, _. split; [vm_compute; reflexivity|].
  eapply eq_trans.
  - eapply (λ Hw, proj1
              (rx_time_of_last_valid_channel (N := issue_numbers)
                 (two_channel_block false) same_prn_epoch _ _ Hw)).
    vm_compute. reflexivity.
  - vm_compute. reflexivity.
Defined.

Lemma epoch_without_pseudorange_is_quiet_witness :
  ∃ b', general_work (block_with_rate 0) no_fix_epoch = Done (b', []).
Proof.
  eexists.
  apply (epoch_without_pseudorange_is_quiet (N := issue_numbers) (block_with_rate 0)
           no_fix_epoch).
  - vm_compute. discriminate.
  - vm_compute. reflexivity.
Defined.

Lemma general_work_returns_iff_witness :
  general_work (block_with_rate 0) full_epoch = Fault DivisionByZero.
Proof.
  apply (proj2 (proj2 (general_work_returns_iff (N := issue_numbers) (block_with_rate 0)
                         full_epoch))).
  - vm_compute. discriminate.
  - vm_compute. discriminate.
  - left. vm_compute. reflexivity.
Defined.

Lemma solver_keeps_latest_ephemeris_witness :
  ∃ ep, epoch_at (two_channel_block false) [full_epoch; gps_only_epoch] 1 = Some ep
        ∧ galileo_ephemeris_map (d_ls_pvt (after ep)) = {[ 11 := 5 ]}.
Proof.
  eexists. split; [vm_compute; reflexivity|].
  eapply eq_trans.
  - eapply (λ Hs Hk, proj2
              (solver_keeps_latest_ephemeris (N := issue_numbers) 2 false 10 false 1 1000 true
                 [full_epoch; gps_only_epoch] _ 1 _ Hs Hk)).
    + vm_compute. reflexivity.
    + reflexivity.
  - vm_compute. reflexivity.
Defined.

Lemma solver_called_every_output_rate_witness :
  ∃ ep1 ep2,
    epoch_at (block_with_rate 2) [full_epoch; full_epoch] 0 = Some ep1
    ∧ epoch_at (block_with_rate 2) [full_epoch; full_epoch] 1 = Some ep2
    ∧ existsb is_get_PVT (events ep1) = false
    ∧ existsb is_get_PVT (events ep2) = true.
Proof.
  eexists _, _. split; [vm_compute; reflexivity|]. split; [vm_compute; reflexivity|].
  split; [vm_compute; reflexivity|].
  eapply eq_trans.
  - eapply (solver_called_every_output_rate (N := issue_numbers) 2 false 10 false 2 1000 true
              [full_epoch; full_epoch] _ 1).
    + vm_compute. reflexivity.
    + reflexivity.
    + reflexivity.
  - vm_compute. reflexivity.
Defined.

Lemma dump_failure_ends_the_epoch_dump_witness :
  ∃ b1 evs0,
    general_work (two_channel_block true) (with_dump_write_fault full_epoch (Some 2%nat))
    = Done (b1, evs0 ++ [log_dump_exception])
    ∧ length (written (d_dump_file b1)) = 2%nat
    ∧ rdstate (d_dump_file b1) = badbit.
Proof.
  eassert (Hfree : general_work (two_channel_block true)
                     (with_dump_write_fault full_epoch None) = Done (_, _))
    by (vm_compute; reflexivity).
  assert (Hvalid : valid_channels (two_channel_block true) full_epoch ≠ [])
    by (vm_compute; discriminate).
  assert (Hj : (2 < 3 * length (channels_read (two_channel_block true) full_epoch))%nat)
    by (vm_compute; lia).
  destruct (dump_failure_ends_the_epoch_dump (N := issue_numbers) (two_channel_block true)
              full_epoch _ _ 2%nat eq_refl eq_refl Hvalid Hfree Hj)
    as (b1 & Hwork & Hfile & Hbad & _).
  eexists b1, _. split; [exact Hwork|]. split; [|exact Hbad]. rewrite Hfile. reflexivity.
Defined.

End PvtMoreFacts.

(* ===================================================================== *)
(** ** Further facts: the acquisition adapters *)
(* ===================================================================== *)

Module AdapterMoreFacts.
Import Fixtures MoreFixtures QuickSyncFacts LocalCodeFacts.

(** *** The Doppler loop with a zero step *)

Lemma frequency_bins_loop_stuck fuel : ∀ doppler_max doppler bins,
  - 2 ^ 31 ≤ doppler < 2 ^ 31 → doppler ≤ to_int32 doppler_max →
  frequency_bins_loop fuel doppler_max 0 doppler bins = None.
Proof.
  induction fuel as [|fuel IH]; intros doppler_max doppler bins Hrange Hle; [done|].
  cbn [frequency_bins_loop]. rewrite decide_True by exact Hle.
  rewrite Z.add_0_r, to_int32_wrap32 by exact Hrange. by apply IH.
Qed.

Lemma frequency_bins_zero_step fuel doppler_max :
  0 ≤ doppler_max < 2 ^ 31 → frequency_bins fuel doppler_max 0 = None.
Proof.
  intros Hmax. unfold frequency_bins. apply frequency_bins_loop_stuck.
  - rewrite to_int32_wrap32 by lia. lia.
  - rewrite to_int32_wrap32, to_int32_small by lia. lia.
Qed.

(** X13.  With doppler_step_ = 0 the Doppler-bin loop of
    calculate_threshold never ends, on either adapter: no amount of fuel
    yields a threshold; set_threshold then returns only when no pfa is
    configured. *)
Theorem calculate_threshold_zero_step_never_returns `{M : MathLib} (fuel : nat) :
  (∀ (a : Tong.t) pfa,
     Tong.doppler_step_ a = 0 → 0 ≤ Tong.doppler_max_ a < 2 ^ 31 →
     Tong.calculate_threshold fuel a pfa = Fault OutOfFuel)
  ∧ (∀ (a : QuickSync.t) pfa,
     QuickSync.doppler_step_ a = 0 → 0 ≤ QuickSync.doppler_max_ a < 2 ^ 31 →
     QuickSync.calculate_threshold fuel a pfa = Fault OutOfFuel).
Proof.
  split; intros a pfa Hstep Hmax.
  - unfold Tong.calculate_threshold, Tong.threshold_cells.
    by rewrite Hstep, frequency_bins_zero_step.
  - unfold QuickSync.calculate_threshold, QuickSync.threshold_cells.
    by rewrite Hstep, frequency_bins_zero_step.
Qed.

(** *** Replicas that fit *)

Lemma length_join_replicate {A} (k : nat) (l : list A) :
  length (mjoin (replicate k l)) = (k * length l)%nat.
Proof.
  induction k as [|k IH]; [done|].
  change (mjoin (replicate (S k) l)) with (l ++ mjoin (replicate k l)).
  rewrite length_app, IH. lia.
Qed.

Lemma join_replicate_snoc {A} (k : nat) (l : list A) :
  mjoin (replicate (S k) l) = mjoin (replicate k l) ++ l.
Proof.
  induction k as [|k IH].
  - change (mjoin (replicate 1 l)) with (l ++ []). by rewrite app_nil_r.
  - change (mjoin (replicate (S (S k)) l)) with (l ++ mjoin (replicate (S k) l)).
    rewrite IH at 1.
    change (mjoin (replicate (S k) l)) with (l ++ mjoin (replicate k l)).
    by rewrite app_assoc.
Qed.

(** After [k] rounds of the loop the first [k] blocks of the array hold the
    replica, the rest is untouched. *)
Lemma replicate_code_fills code_ code_length code (n : nat) :
  Z.of_nat (length code) = code_length →
  Z.of_nat (length code_) = Z.of_nat n * code_length →
  Z.of_nat n * code_length < 2 ^ 32 →
  ∀ k : nat, (k ≤ n)%nat →
    replicate_code code_ (Z.of_nat k) code_length code
    = Done ((Some <$> mjoin (replicate k code)) ++ drop (k * length code) code_).
Proof.
  intros Hcode Hbuf Hfit. induction k as [|k IH]; intros Hk.
  - cbn. by rewrite drop_0.
  - replace (Z.of_nat (S k)) with (Z.of_nat k + 1) by lia.
    rewrite replicate_code_step by lia. rewrite IH by lia. cbn [mbind result_bind].
    unfold checked_memcpy. rewrite decide_False by lia.
    assert (Hoff : wrap32 (Z.of_nat k * code_length) = Z.of_nat (k * length code)).
    { rewrite wrap32_small by nia. lia. }
    rewrite Hoff. unfold memcpy.
    assert (Htake : take (Z.to_nat code_length) code = code).
    { apply take_ge. lia. }
    rewrite Htake.
    rewrite decide_True.
    2: { rewrite length_app, length_fmap, length_join_replicate, length_drop. nia. }
    f_equal. rewrite Nat2Z.id.
    rewrite take_app_length' by (by rewrite length_fmap, length_join_replicate).
    rewrite drop_app_ge by (rewrite length_fmap, length_join_replicate; lia).
    rewrite length_fmap, length_join_replicate.
    rewrite drop_drop, join_replicate_snoc, fmap_app, <- app_assoc.
    do 3 f_equal. lia.
Qed.

Lemma replicate_code_full code_ code_length code (n : nat) :
  Z.of_nat (length code) = code_length →
  Z.of_nat (length code_) = Z.of_nat n * code_length →
  Z.of_nat n * code_length < 2 ^ 32 →
  replicate_code code_ (Z.of_nat n) code_length code
  = Done (Some <$> mjoin (replicate n code)).
Proof.
  intros Hcode Hbuf Hfit.
  rewrite (replicate_code_fills code_ code_length code n Hcode Hbuf Hfit n) by lia.
  rewrite drop_ge by nia. by rewrite app_nil_r.
Qed.

(** X14.  On a constructed GPS Tong adapter whose vector length
    code_length_ * sampled_ms_ does not wrap, set_local_code stays inside
    code_ and leaves in it, and hands to the block, the replica repeated
    sampled_ms_ times, every sample written. *)
Theorem tong_set_local_code_fills_code cfg role code :
  let a := (Tong.GpsL1CaPcpsTongAcquisition cfg role).1 in
  Tong.is_gr_complex a = true →
  Z.of_nat (length code) = Tong.code_length_ a →
  Tong.code_length_ a * Tong.sampled_ms_ a < 2 ^ 32 →
  ∃ a',
    Tong.set_local_code a code = Done a'
    ∧ Tong.code_ a' = Some <$> mjoin (replicate (Z.to_nat (Tong.sampled_ms_ a)) code)
    ∧ (d_code <$> Tong.acquisition_cc_ a') = Some (Some (Tong.code_ a')).
Proof.
  intros a Hitem Hcode Hfit.
  assert (Hms : 0 ≤ Tong.sampled_ms_ a) by apply wrap32_range.
  assert (Hlen : 0 ≤ Tong.code_length_ a) by apply wrap32_range.
  assert (Hblock : is_Some (Tong.acquisition_cc_ a)).
  { unfold Tong.is_gr_complex in Hitem. subst a. cbn in *. by rewrite Hitem. }
  destruct Hblock as [blk Hblk].
  assert (Hbuf : Z.of_nat (length (Tong.code_ a))
                 = Z.of_nat (Z.to_nat (Tong.sampled_ms_ a)) * Tong.code_length_ a).
  { rewrite Z2Nat.id by exact Hms. subst a. cbn. unfold new_buffer.
    rewrite length_replicate. cbn in Hfit, Hms, Hlen.
    rewrite Z2Nat.id by apply wrap32_range. rewrite wrap32_small by (split; [nia|lia]).
    lia. }
  pose proof (replicate_code_full (Tong.code_ a) (Tong.code_length_ a) code
                (Z.to_nat (Tong.sampled_ms_ a)) Hcode Hbuf) as Hfull.
  rewrite Z2Nat.id in Hfull by exact Hms. clearbody a.
  unfold Tong.set_local_code. rewrite Hitem, Hfull by lia.
  cbn. rewrite Hblk. eexists. split; [reflexivity|]. done.
Qed.

(** *** The QuickSync constructor on every configuration *)

Import QuickSync.

(** X15.  The QuickSync constructor divides by zero exactly
    when 4 * folding_factor is 0 as unsigned int (a folding factor of 0, for
    one); on every other configuration it returns, sampled_ms_ is a multiple
    of folding_factor_ * 4, and sampled_ms_ is 0 only if 0 was configured. *)
Theorem quicksync_constructor_on_every_configuration cfg role :
  (wrap32 (configured_folding cfg role * 4) = 0 →
   GalileoE1PcpsQuickSyncAmbiguousAcquisition cfg role = Fault DivisionByZero)
  ∧ (wrap32 (configured_folding cfg role * 4) ≠ 0 →
     ∃ a log,
       GalileoE1PcpsQuickSyncAmbiguousAcquisition cfg role = Done (a, log)
       ∧ wrap32 (folding_factor_ a * 4) ≠ 0
       ∧ sampled_ms_ a `mod` wrap32 (folding_factor_ a * 4) = 0
       ∧ 0 ≤ sampled_ms_ a < 2 ^ 32
       ∧ (sampled_ms_ a = 0 ↔ configured_ms cfg role = 0)).
Proof.
  split; intros Hm.
  - unfold GalileoE1PcpsQuickSyncAmbiguousAcquisition.
    fold (configured_ms cfg role). fold (configured_folding cfg role).
    by rewrite adjust_sampled_ms_zero_divisor.
  - destruct (adjust_sampled_ms_result (configured_ms cfg role)
                (configured_folding cfg role) (wrap32_range _) Hm)
      as (ms & log & Hadj & Hmult & Hrange & Hzero).
    destruct (constructor_sampled_ms cfg role ms log Hadj)
      as (a & log' & Hctor & Hms & Hff).
    exists a, (log ++ log'). rewrite Hms, Hff. done.
Qed.

Lemma quicksync_constructed cfg role a log :
  GalileoE1PcpsQuickSyncAmbiguousAcquisition cfg role = Done (a, log) →
  wrap32 (folding_factor_ a * 4) ≠ 0 ∧ 0 ≤ sampled_ms_ a.
Proof.
  intros Hctor.
  destruct (decide (wrap32 (configured_folding cfg role * 4) = 0)) as [Hm|Hm].
  - exfalso. unfold GalileoE1PcpsQuickSyncAmbiguousAcquisition in Hctor.
    fold (configured_ms cfg role) in Hctor. fold (configured_folding cfg role) in Hctor.
    rewrite adjust_sampled_ms_zero_divisor in Hctor by exact Hm. discriminate Hctor.
  - destruct (adjust_sampled_ms_result (configured_ms cfg role)
                (configured_folding cfg role) (wrap32_range _) Hm)
      as (ms & log0 & Hadj & _ & Hrange & _).
    destruct (constructor_sampled_ms cfg role ms log0 Hadj)
      as (a' & log' & Hctor' & Hms & Hff).
    rewrite Hctor in Hctor'. injection Hctor' as -> _.
    rewrite Hms, Hff. split; [done|lia].
Qed.

(** X16.  On a constructed QuickSync adapter, set_local_code
    stays inside code_ exactly when sampled_ms_ spans at most one group of
    folding_factor_ * 4 ms; with exactly one group code_ afterwards holds the
    replica, every sample written, and the block is given that array. *)
Theorem quicksync_set_local_code_fits_iff cfg role a log code :
  GalileoE1PcpsQuickSyncAmbiguousAcquisition cfg role = Done (a, log) →
  is_gr_complex a = true →
  0 < code_length_ a → Z.of_nat (length code) = code_length_ a →
  ((∃ a', set_local_code a code = Done a')
   ↔ sampled_ms_ a / wrap32 (folding_factor_ a * 4) ≤ 1)
  ∧ (sampled_ms_ a / wrap32 (folding_factor_ a * 4) = 1 →
     ∃ a', set_local_code a code = Done a'
           ∧ code_ a' = Some <$> code
           ∧ (d_code <$> acquisition_cc_ a') = Some (Some (code_ a'))).
Proof.
  intros Hctor Hitem Hpos Hcode.
  destruct (quicksync_constructed _ _ _ _ Hctor) as [Hm Hms].
  destruct (constructed_code_array _ _ _ _ Hctor) as [Hbuf Hlt].
  pose proof (wrap32_range (folding_factor_ a * 4)) as Hrange.
  assert (Hq : 0 ≤ sampled_ms_ a / wrap32 (folding_factor_ a * 4))
    by (apply Z.div_pos; lia).
  assert (Hblock : is_Some (acquisition_cc_ a)).
  { unfold GalileoE1PcpsQuickSyncAmbiguousAcquisition in Hctor.
    destruct (adjust_sampled_ms _ _) as [[ms log1]|f]; cbn in Hctor; [|discriminate].
    injection Hctor as <- _. unfold is_gr_complex in Hitem. cbn in *. by rewrite Hitem. }
  destruct Hblock as [blk Hblk].
  assert (Hone : sampled_ms_ a / wrap32 (folding_factor_ a * 4) = 1 →
     ∃ a', set_local_code a code = Done a'
           ∧ code_ a' = Some <$> code
           ∧ (d_code <$> acquisition_cc_ a') = Some (Some (code_ a'))).
  { intros Hn. unfold set_local_code.
    rewrite Hitem, udiv_nonzero by exact Hm. rewrite Hn. cbn [mbind result_bind].
    pose proof (replicate_code_full (code_ a) (code_length_ a) code 1 Hcode) as Hfull.
    change (Z.of_nat 1) with 1 in Hfull. rewrite Hfull by lia.
    change (mjoin (replicate 1 code)) with (code ++ []). rewrite app_nil_r.
    cbn. rewrite Hblk. eexists. split; [reflexivity|]. done. }
  split; [|exact Hone]. split.
  - intros [a' Hdone].
    destruct (decide (sampled_ms_ a / wrap32 (folding_factor_ a * 4) ≤ 1)) as [|Hbig];
      [done|].
    rewrite (set_local_code_overruns cfg role a log code) in Hdone
      by (assumption || lia).
    discriminate Hdone.
  - intros Hle.
    destruct (decide (sampled_ms_ a / wrap32 (folding_factor_ a * 4) = 1)) as [Hn|Hn].
    + destruct (Hone Hn) as (a' & Hdone & _). by exists a'.
    + assert (Hzero : sampled_ms_ a / wrap32 (folding_factor_ a * 4) = 0) by lia.
      unfold set_local_code. rewrite Hitem, udiv_nonzero by exact Hm.
      rewrite Hzero. cbn. by eexists.
Qed.

(** *** The statements at concrete adapters *)

Lemma calculate_threshold_zero_step_never_returns_witness :
  Tong.calculate_threshold (M := rate_probe) (Z.to_nat 100000)
    (Tong.set_doppler_step default_tong 0) 0.5%float = Fault OutOfFuel.
Proof.
  apply (proj1 (calculate_threshold_zero_step_never_returns (M := rate_probe) (Z.to_nat 100000))).
  - reflexivity.
  - vm_compute. split; [discriminate|reflexivity].
Defined.

Lemma tong_set_local_code_fills_code_witness :
  ∃ a', Tong.set_local_code (Tong.GpsL1CaPcpsTongAcquisition (cfg_ms 3) "Acquisition").1
          (replicate (Z.to_nat 2048) (1%float, 0%float)) = Done a'
        ∧ length (Tong.code_ a') = Z.to_nat 6144.
Proof.
  pose proof (tong_set_local_code_fills_code (cfg_ms 3) "Acquisition"
                (replicate (Z.to_nat 2048) (1%float, 0%float))) as Hfills.
  cbv zeta in Hfills.
  destruct Hfills as (a' & Hdone & Hcode & _).
  - reflexivity.
  - vm_compute. reflexivity.
  - vm_compute. reflexivity.
  - exists a'. split; [exact Hdone|]. rewrite Hcode. vm_compute. reflexivity.
Defined.

Lemma quicksync_constructor_on_every_configuration_witness :
  GalileoE1PcpsQuickSyncAmbiguousAcquisition (cfg_folding 0) "Acquisition"
  = Fault DivisionByZero.
Proof.
  apply (proj1 (quicksync_constructor_on_every_configuration (cfg_folding 0) "Acquisition")).
  vm_compute. reflexivity.
Defined.

Lemma quicksync_set_local_code_fits_iff_witness :
  ∃ a log a',
    GalileoE1PcpsQuickSyncAmbiguousAcquisition empty_configuration "Acquisition"
    = Done (a, log)
    ∧ set_local_code a (replicate (Z.to_nat 16000) (1%float, 0%float)) = Done a'
    ∧ code_ a' = Some <$> replicate (Z.to_nat 16000) (1%float, 0%float).
Proof.
  eassert (Hctor : GalileoE1PcpsQuickSyncAmbiguousAcquisition empty_configuration
                     "Acquisition" = Done (_, _)) by (vm_compute; reflexivity).
  destruct (proj2 (quicksync_set_local_code_fits_iff empty_configuration "Acquisition"
                     _ _ (replicate (Z.to_nat 16000) (1%float, 0%float)) Hctor
                     eq_refl eq_refl eq_refl) eq_refl)
    as (a' & Hdone & Hcode & _).
  eexists _, _, a'. split; [exact Hctor|]. split; [exact Hdone|exact Hcode].
Defined.

End AdapterMoreFacts.

(* ===================================================================== *)
(** ** Facts of the string helpers of Rinex_Printer *)
(* ===================================================================== *)

Module RinexPrinterFacts.
Import Stdlib.Strings.Ascii RinexPrinter.

Lemma put_digits_app fuel : ∀ n tail,
  put_digits fuel n tail = put_digits fuel n [] ++ tail.
Proof.
  induction fuel as [|fuel IH]; intros n tail; [done|].
  cbn [put_digits]. destruct (decide (n / 10 = 0)); [done|].
  rewrite (IH _ (_ :: tail)), (IH _ [_]). by rewrite <- app_assoc.
Qed.

Lemma isdigit_digit_char d :
  0 ≤ d < 10 →
  isdigit (digit_char d) = true ∧ Z.of_N (N_of_ascii (digit_char d)) - 48 = d.
Proof.
  intros Hd. unfold isdigit, digit_char.
  rewrite N_ascii_embedding by lia. split; [|lia].
  apply bool_decide_eq_true_2. lia.
Qed.

Lemma isdigit_plain c :
  isdigit c = true → isspace c = false ∧ c ≠ "-"%char ∧ c ≠ "+"%char.
Proof.
  destruct c as [[] [] [] [] [] [] [] []]; vm_compute; intros Hc;
    first [discriminate Hc | (split; [reflexivity|split; discriminate])].
Qed.

Lemma strtol_digits_app l : ∀ rest a,
  Forall (λ c, isdigit c = true) l →
  strtol_digits (l ++ rest) a = strtol_digits rest (strtol_digits l a).
Proof.
  induction l as [|c l IH]; intros rest a Hl; [done|].
  apply Forall_cons in Hl as [Hc Hl]. cbn. rewrite Hc. by apply IH.
Qed.

Lemma strtol_digits_acc l : ∀ a,
  Forall (λ c, isdigit c = true) l →
  strtol_digits l a = a * 10 ^ Z.of_nat (length l) + strtol_digits l 0
  ∧ 0 ≤ strtol_digits l 0 < 10 ^ Z.of_nat (length l).
Proof.
  induction l as [|c l IH]; intros a Hl.
  - cbn. lia.
  - apply Forall_cons in Hl as [Hc Hl]. cbn [strtol_digits length]. rewrite Hc.
    destruct (IH (a * 10 + (Z.of_N (N_of_ascii c) - 48)) Hl) as [-> Hrange].
    destruct (IH (0 * 10 + (Z.of_N (N_of_ascii c) - 48)) Hl) as [-> _].
    apply bool_decide_eq_true_1 in Hc.
    rewrite Nat2Z.inj_succ, Z.pow_succ_r by lia. nia.
Qed.

Lemma put_digits_digits fuel : ∀ n,
  0 ≤ n → Forall (λ c, isdigit c = true) (put_digits fuel n []).
Proof.
  induction fuel as [|fuel IH]; intros n Hn; [done|].
  cbn [put_digits].
  assert (Hd : isdigit (digit_char (n `mod` 10)) = true).
  { apply isdigit_digit_char. apply Z.mod_pos_bound. lia. }
  destruct (decide (n / 10 = 0)); [by repeat constructor|].
  rewrite put_digits_app. apply Forall_app. split.
  - apply IH. apply Z.div_pos; lia.
  - by repeat constructor.
Qed.

Lemma put_digits_value fuel : ∀ n,
  0 ≤ n < 10 ^ Z.of_nat fuel → strtol_digits (put_digits fuel n []) 0 = n.
Proof.
  induction fuel as [|fuel IH]; intros n Hn.
  - cbn in *. lia.
  - cbn [put_digits].
    destruct (isdigit_digit_char (n `mod` 10)) as [Hd Hv];
      [apply Z.mod_pos_bound; lia|].
    pose proof (Z.div_mod n 10 ltac:(lia)) as Hdiv.
    destruct (decide (n / 10 = 0)) as [Hz|Hz].
    + cbn. rewrite Hd, Hv. lia.
    + rewrite put_digits_app, strtol_digits_app.
      2: { apply put_digits_digits. apply Z.div_pos; lia. }
      rewrite IH.
      2: { rewrite Nat2Z.inj_succ, Z.pow_succ_r in Hn by lia.
           split; [apply Z.div_pos; lia|]. apply Z.div_lt_upper_bound; lia. }
      cbn. rewrite Hd, Hv. lia.
Qed.

Lemma put_digits_nonempty fuel n : put_digits (S fuel) n [] ≠ [].
Proof.
  cbn [put_digits]. destruct (decide (n / 10 = 0)); [done|].
  rewrite put_digits_app. by destruct (put_digits fuel (n / 10) []).
Qed.

Lemma enough_fuel n : 0 ≤ n → n < 10 ^ Z.of_nat (S (Z.to_nat (Z.log2 n))).
Proof.
  intros Hn. rewrite Nat2Z.inj_succ, Z2Nat.id by apply Z.log2_nonneg.
  destruct (decide (n = 0)) as [->|Hpos]; [done|].
  pose proof (Z.log2_spec n ltac:(lia)) as [_ Hlt].
  eapply Z.lt_le_trans; [exact Hlt|].
  apply Z.pow_le_mono_l. pose proof (Z.log2_nonneg n). lia.
Qed.

Lemma put_integer_nonneg x :
  0 ≤ x →
  Forall (λ c, isdigit c = true) (put_integer x)
  ∧ strtol_digits (put_integer x) 0 = x
  ∧ put_integer x ≠ [].
Proof.
  intros Hx. unfold put_integer. rewrite decide_False by lia.
  rewrite Z.abs_eq by exact Hx. split; [by apply put_digits_digits|].
  split; [|apply put_digits_nonempty].
  apply put_digits_value. split; [exact Hx|by apply enough_fuel].
Qed.

Lemma strtol_of_digits s :
  Forall (λ c, isdigit c = true) s →
  strtol s = Z.max LONG_MIN (Z.min LONG_MAX (strtol_digits s 0)).
Proof.
  intros Hs. destruct s as [|c s]; [done|].
  apply Forall_cons in Hs as [Hc Hs].
  destruct (isdigit_plain c Hc) as (Hspace & Hminus & Hplus).
  unfold strtol. cbn [skip_space]. rewrite Hspace.
  by rewrite decide_False, decide_False.
Qed.

(** X17.  leftJustify and rightJustify give a string of exactly the
    requested length: leftJustify keeps the leading characters and pads at
    the end, and rightJustify is its mirror image, keeping the trailing
    characters and padding in front. *)
Theorem justify_exact_length_and_mirror s (n : nat) pad :
  length (leftJustify s n pad) = n
  ∧ length (rightJustify s n pad) = n
  ∧ leftJustify s n pad = take n (s ++ replicate n pad)
  ∧ rightJustify s n pad = reverse (leftJustify (reverse s) n pad).
Proof.
  unfold leftJustify, rightJustify. rewrite length_reverse.
  destruct (decide (n < length s)%nat) as [Hlt|Hge].
  - rewrite length_take, length_drop. split; [lia|]. split; [lia|]. split.
    + by rewrite take_app_le by lia.
    + by rewrite take_reverse, reverse_involutive.
  - rewrite !length_app, length_replicate. split; [lia|]. split; [lia|]. split.
    + rewrite take_app_ge, take_replicate by lia. do 2 f_equal. lia.
    + by rewrite reverse_app, reverse_replicate, reverse_involutive.
Qed.

Lemma put_digits_length fuel : ∀ n, (length (put_digits fuel n []) ≤ fuel)%nat.
Proof.
  induction fuel as [|fuel IH]; intros n; [done|]. cbn [put_digits].
  destruct (decide (n / 10 = 0)); [cbn; lia|].
  rewrite put_digits_app, length_app. specialize (IH (n / 10)). cbn. lia.
Qed.

Lemma put_integer_length x :
  - 2 ^ 31 ≤ x < 2 ^ 31 → (length (put_integer x) ≤ 33)%nat.
Proof.
  intros Hx. unfold put_integer.
  assert (Hlog : Z.log2 (Z.abs x) < 32).
  { destruct (decide (Z.abs x = 0)) as [->|Hne]; [done|].
    apply (proj1 (Z.log2_lt_pow2 (Z.abs x) 32 ltac:(lia))). lia. }
  pose proof (Z.log2_nonneg (Z.abs x)).
  pose proof (put_digits_length (S (Z.to_nat (Z.log2 (Z.abs x)))) (Z.abs x)).
  destruct (decide (x < 0)); cbn [length]; lia.
Qed.

Lemma asFixWidthString_rightJustify x width fill_digit :
  - 2 ^ 31 ≤ x < 2 ^ 31 → 0 ≤ width →
  asFixWidthString x width fill_digit
  = Some (rightJustify (asString x) (Z.to_nat width) fill_digit).
Proof.
  intros Hx Hpos. pose proof (put_integer_length x Hx) as Hlen.
  unfold asFixWidthString, asString, rightJustify.
  destruct (decide (Z.to_nat width < length (put_integer x))%nat) as [Hlt|Hge].
  - replace (Z.to_nat width - length (put_integer x))%nat with 0%nat by lia.
    cbn [replicate app]. unfold wrap64. rewrite Z.mod_small by lia.
    rewrite decide_False by lia. do 2 f_equal. lia.
  - rewrite !length_app, !length_replicate. unfold wrap64.
    replace (Z.of_nat (Z.to_nat width - length (put_integer x) + length (put_integer x))
             - width) with 0 by lia.
    rewrite Z.mod_0_l by lia. by rewrite decide_False by lia.
Qed.

(** X18.  asFixWidthString throws std::out_of_range for a negative
    width; for any other width it returns exactly that many characters: the
    decimal text of x, truncated to its last characters when it is longer
    (sign and leading digits are lost) and preceded by the fill character
    when it is shorter, which is rightJustify applied to asString(x). *)
Theorem asFixWidthString_is_right_justified x width fill_digit :
  - 2 ^ 31 ≤ x < 2 ^ 31 → - 2 ^ 31 ≤ width < 2 ^ 31 →
  (width < 0 → asFixWidthString x width fill_digit = None)
  ∧ (0 ≤ width →
     asFixWidthString x width fill_digit
     = Some (rightJustify (asString x) (Z.to_nat width) fill_digit)
     ∧ length (rightJustify (asString x) (Z.to_nat width) fill_digit)
       = Z.to_nat width).
Proof.
  intros Hx Hwidth. pose proof (put_integer_length x Hx) as Hlen. split.
  - intros Hneg. unfold asFixWidthString. rewrite length_app, length_replicate.
    unfold wrap64. rewrite Z.mod_small by lia. rewrite decide_True by lia. done.
  - intros Hpos. split; [by apply asFixWidthString_rightJustify|].
    unfold rightJustify. destruct (decide _).
    + rewrite length_drop. lia.
    + rewrite length_app, length_replicate. lia.
Qed.

(** X19.  asInt reads back what asString writes: for every long x,
    asInt(asString(x)) = x. *)
Theorem asInt_asString_round_trip x :
  LONG_MIN ≤ x ≤ LONG_MAX → asInt (asString x) = x.
Proof.
  unfold LONG_MIN, LONG_MAX. intros Hx. unfold asInt, asString.
  destruct (decide (x < 0)) as [Hneg|Hpos].
  - destruct (put_integer_nonneg (- x)) as (Hdigits & Hvalue & _); [lia|].
    unfold put_integer in *. rewrite decide_True by exact Hneg.
    rewrite decide_False in Hvalue by lia.
    replace (Z.abs (- x)) with (Z.abs x) in Hvalue by lia.
    unfold strtol. cbn [skip_space].
    change (isspace "-") with false. cbv iota. rewrite decide_True by done.
    rewrite Hvalue. unfold LONG_MIN, LONG_MAX. lia.
  - destruct (put_integer_nonneg x) as (Hdigits & Hvalue & _); [lia|].
    rewrite strtol_of_digits, Hvalue by exact Hdigits.
    unfold LONG_MIN, LONG_MAX. lia.
Qed.

Lemma strtol_digits_zeros (k : nat) rest a :
  strtol_digits (replicate k "0"%char ++ rest) a
  = strtol_digits rest (a * 10 ^ Z.of_nat k).
Proof.
  revert a. induction k as [|k IH]; intros a.
  - cbn. f_equal. lia.
  - cbn [replicate app strtol_digits]. change (isdigit "0") with true. cbv iota.
    rewrite IH. f_equal. change (Z.of_N (N_of_ascii "0") - 48) with 0.
    rewrite Nat2Z.inj_succ, Z.pow_succ_r by lia. lia.
Qed.

(** X20.  A non-negative int written by asFixWidthString with fill
    character '0' reads back through asInt as x modulo 10^width: the field
    holds the last width decimal digits of x, and x itself exactly when x
    has no more than width digits. *)
Theorem asFixWidthString_keeps_low_digits x width :
  0 ≤ x < 2 ^ 31 → 0 ≤ width < 2 ^ 31 →
  asInt <$> asFixWidthString x width "0"%char = Some (x `mod` 10 ^ width).
Proof.
  intros Hx Hwidth.
  rewrite asFixWidthString_rightJustify by lia. cbn [fmap option_fmap option_map]. f_equal.
  destruct (put_integer_nonneg x) as (Hdigits & Hvalue & _); [lia|].
  unfold asString, rightJustify.
  set (text := put_integer x) in *.
  destruct (strtol_digits_acc text 0 Hdigits) as [_ Hbound]. rewrite Hvalue in Hbound.
  destruct (decide (Z.to_nat width < length text)%nat) as [Hlt|Hge].
  - pose proof (take_drop (length text - Z.to_nat width) text) as Hsplit.
    assert (Hhead : Forall (λ c, isdigit c = true)
                      (take (length text - Z.to_nat width) text))
      by (by apply Forall_take).
    assert (Htail : Forall (λ c, isdigit c = true)
                      (drop (length text - Z.to_nat width) text))
      by (by apply Forall_drop).
    unfold asInt. rewrite strtol_of_digits by exact Htail.
    pose proof Hvalue as Hwhole. rewrite <- Hsplit in Hwhole.
    rewrite strtol_digits_app in Hwhole by exact Hhead.
    destruct (strtol_digits_acc _ (strtol_digits
                (take (length text - Z.to_nat width) text) 0) Htail) as [Hacc Hlow].
    rewrite Hacc in Hwhole.
    destruct (strtol_digits_acc _ 0 Hhead) as [_ Hhigh].
    rewrite length_drop in *.
    replace (Z.of_nat (length text - (length text - Z.to_nat width))) with width
      in * by lia.
    assert (Hmod : x `mod` 10 ^ width
                   = strtol_digits (drop (length text - Z.to_nat width) text) 0).
    { symmetry. apply (Z.mod_unique_pos _ _
        (strtol_digits (take (length text - Z.to_nat width) text) 0)); lia. }
    rewrite Hmod. unfold LONG_MIN, LONG_MAX.
    assert (10 ^ width ≤ 10 ^ Z.of_nat (length text))
      by (apply Z.pow_le_mono_r; lia).
    assert (0 ≤ strtol_digits (take (length text - Z.to_nat width) text) 0 * 10 ^ width)
      by (apply Z.mul_nonneg_nonneg; lia).
    lia.
  - unfold asInt. rewrite strtol_of_digits.
    2: { apply Forall_app. split; [|exact Hdigits]. by apply Forall_replicate. }
    rewrite strtol_digits_zeros, Z.mul_0_l, Hvalue.
    assert (10 ^ Z.of_nat (length text) ≤ 10 ^ width)
      by (apply Z.pow_le_mono_r; lia).
    rewrite Z.mod_small by lia. unfold LONG_MIN, LONG_MAX. lia.
Qed.

(** *** toInt *)

Lemma bits_value_snoc l c :
  bits_value (l ++ [c]) = 2 * bits_value l + (if decide (c = "1"%char) then 1 else 0).
Proof. unfold bits_value. by rewrite foldl_app. Qed.

Lemma bits_value_bound l : 0 ≤ bits_value l < 2 ^ Z.of_nat (length l).
Proof.
  induction l as [|c l IH] using rev_ind; [cbn; lia|].
  rewrite bits_value_snoc, length_app, Nat2Z.inj_add, Z.pow_add_r by lia.
  change (2 ^ Z.of_nat (length [c])) with 2. destruct (decide (c = "1"%char)); lia.
Qed.

Lemma lor_below v k b :
  0 ≤ k → 0 ≤ b < 2 →
  Z.lor (v * 2 ^ (k + 1)) (2 ^ k * b) = v * 2 ^ (k + 1) + 2 ^ k * b.
Proof.
  intros Hk Hb. assert (b = 0 ∨ b = 1) as [->| ->] by lia.
  - by rewrite Z.mul_0_r, Z.lor_0_r, Z.add_0_r.
  - rewrite Z.mul_1_r.
    assert (Hland : Z.land (v * 2 ^ (k + 1)) (2 ^ k) = 0).
    { apply Z.bits_inj'. intros m Hm. rewrite Z.land_spec, Z.bits_0.
      destruct (decide (m = k)) as [->|Hne].
      - by rewrite Z.mul_pow2_bits_low by lia.
      - rewrite (Z.pow2_bits_false k m) by lia. apply andb_false_r. }
    by rewrite (Z.add_nocarry_lxor _ _ Hland), (Z.lxor_lor _ _ Hland).
Qed.

Lemma toInt_loop_value bitString (n : nat) :
  (n ≤ 31)%nat → (n ≤ length bitString)%nat →
  Forall (λ c, c = "0"%char ∨ c = "1"%char) (take n bitString) →
  ∀ (count i : nat) num,
    (i + count = n)%nat →
    num = bits_value (take i bitString) * 2 ^ Z.of_nat count →
    toInt_loop bitString (Z.of_nat n) count (Z.of_nat i) num
    = Some (bits_value (take n bitString)).
Proof.
  intros Hn Hlen Hbits. induction count as [|count IH]; intros i num Hi Hnum.
  - cbn. replace i with n in Hnum by lia. rewrite Hnum. f_equal. cbn. lia.
  - cbn [toInt_loop]. rewrite Nat2Z.id.
    destruct (lookup_lt_is_Some_2 bitString i ltac:(lia)) as [c Hc].
    unfold char_at. rewrite Hc. cbn [mbind option_bind].
    assert (Hbit : c = "0"%char ∨ c = "1"%char).
    { rewrite Forall_lookup in Hbits. apply (Hbits i).
      rewrite lookup_take_lt by lia. exact Hc. }
    rewrite decide_False by lia.
    replace (Z.of_nat n - 1 - Z.of_nat i) with (Z.of_nat count) by lia.
    rewrite Z.shiftl_1_l.
    assert (Hpow : 0 < 2 ^ Z.of_nat count ≤ 2 ^ 30).
    { split; [apply Z.pow_pos_nonneg; lia|]. apply Z.pow_le_mono_r; lia. }
    assert (Hval : char_value c - 48 = if decide (c = "1"%char) then 1 else 0).
    { destruct Hbit as [-> | ->]; reflexivity. }
    rewrite Hval.
    rewrite (to_int32_small (2 ^ Z.of_nat count)) by lia.
    rewrite to_int32_small by (destruct (decide (c = "1"%char)); lia).
    replace (Z.of_nat i + 1) with (Z.of_nat (S i)) by lia.
    apply IH; [lia|]. subst num.
    rewrite Nat2Z.inj_succ, <- Z.add_1_r.
    rewrite lor_below by (destruct (decide (c = "1"%char)); lia).
    rewrite (take_S_r _ _ _ Hc), bits_value_snoc.
    rewrite Z.pow_add_r by lia. lia.
Qed.

(** X21.  For sLength up to 31 and a string whose first sLength
    characters are '0' or '1', toInt returns the number those characters
    denote in binary, most significant bit first, which lies below
    2^sLength; what follows the first sLength characters is not looked at. *)
Theorem toInt_reads_binary bitString sLength :
  0 ≤ sLength ≤ 31 → sLength ≤ Z.of_nat (length bitString) →
  Forall (λ c, c = "0"%char ∨ c = "1"%char) (take (Z.to_nat sLength) bitString) →
  toInt bitString sLength = Some (bits_value (take (Z.to_nat sLength) bitString))
  ∧ 0 ≤ bits_value (take (Z.to_nat sLength) bitString) < 2 ^ sLength.
Proof.
  intros Hlen Hfit Hbits. split.
  - unfold toInt. rewrite <- (Z2Nat.id sLength) at 1 by lia.
    apply (toInt_loop_value bitString (Z.to_nat sLength) ltac:(lia) ltac:(lia) Hbits
             (Z.to_nat sLength) 0%nat); [lia|].
    by rewrite take_0.
  - pose proof (bits_value_bound (take (Z.to_nat sLength) bitString)) as Hbound.
    rewrite length_take, Nat.min_l in Hbound by lia.
    by rewrite Z2Nat.id in Hbound by lia.
Qed.

(** *** The statements at concrete strings *)

Lemma asFixWidthString_is_right_justified_witness :
  asFixWidthString 2014 (- 1) "0"%char = None
  ∧ asFixWidthString 2014 2 "0"%char = Some ["1"; "4"]%char
  ∧ asFixWidthString (- 5) 4 "0"%char = Some ["0"; "0"; "-"; "5"]%char.
Proof.
  split; [|split].
  - apply (proj1 (asFixWidthString_is_right_justified 2014 (- 1) "0"%char
                    ltac:(lia) ltac:(lia))).
    lia.
  - eapply eq_trans.
    + apply (proj2 (asFixWidthString_is_right_justified 2014 2 "0"%char
                      ltac:(lia) ltac:(lia))).
      lia.
    + vm_compute. reflexivity.
  - eapply eq_trans.
    + apply (proj2 (asFixWidthString_is_right_justified (- 5) 4 "0"%char
                      ltac:(lia) ltac:(lia))).
      lia.
    + vm_compute. reflexivity.
Defined.

Lemma asInt_asString_round_trip_witness :
  asInt (asString (- 2 ^ 63)) = - 2 ^ 63 ∧ asInt (asString 20141031) = 20141031.
Proof.
  split; apply asInt_asString_round_trip; vm_compute; split; discriminate.
Defined.

Lemma asFixWidthString_keeps_low_digits_witness :
  asInt <$> asFixWidthString 2014 2 "0"%char = Some 14
  ∧ asInt <$> asFixWidthString 7 2 "0"%char = Some 7.
Proof.
  split.
  - apply (asFixWidthString_keeps_low_digits 2014 2); lia.
  - apply (asFixWidthString_keeps_low_digits 7 2); lia.
Defined.

Lemma toInt_reads_binary_witness :
  toInt ["1"; "0"; "1"; "1"; "x"]%char 4 = Some 11.
Proof.
  apply (proj1 (toInt_reads_binary ["1"; "0"; "1"; "1"; "x"]%char 4
                  ltac:(lia) ltac:(cbn; lia)
                  ltac:(cbn; repeat (constructor; [first [left; reflexivity
                                                         |right; reflexivity]|]);
                        constructor))).
Defined.

End RinexPrinterFacts.
